(** * Lemur: marker-gene abundance estimation (src/lemur.py)

    A shallow embedding of the inference engine of [LemurRunEnv]: the
    CIGAR scoring models, the likelihood-table row collection, the EM
    step and loop, the gene-hit plausibility filter, the rank check and
    the columns [collapse_rank] keeps, and the stages of [main].

    Numbers.  Python integers are [Z].  The float arithmetic of the
    source is idealised: code that only adds, multiplies, divides and
    takes integer powers is carried out in [Q], so that it evaluates;
    code that calls [np.log] / [np.exp] is carried out in [R].  Rounding,
    overflow and NaN/infinity are outside this model except where a
    definition says otherwise ([div_fillna], [xfloat]).  Over [R] no
    mass of the maximization is 0, so the step that drops the masses
    equal to 0 is also given with [np.exp] as a parameter
    ([maximize_with], [next_F]). *)

From Stdlib Require Import List ZArith QArith Qpower Bool Lia Lqa.
From Stdlib Require Import String Ascii.
From Stdlib Require Import Reals Qreals Lra.
From Stdlib Require Import Permutation.
Import ListNotations.

Local Open Scope Z_scope.

(** ** Operation sequences *)

(** [LemurRunEnv.CIGAR_OPS_INT]: M, I, D, =, X, H, S. *)
Definition CIGAR_OPS_INT : list Z := [0; 1; 2; 7; 8; 5; 4].

(** [CIGAR_OPS_INT[-1]], the soft-clip code. *)
Definition SOFT_CLIP : Z := last CIGAR_OPS_INT 0.

(** One entry of [read.cigartuples]: [(OP, L)]. *)
Definition Run : Type := (Z * Z)%type.
Definition Cigar : Type := list Run.

(** Python's [enumerate]. *)
Definition enumerate {A : Type} (l : list A) : list (nat * A) :=
  combine (seq 0 (List.length l)) l.

(** Python's [OP in ops] on a list of integers. *)
Definition mem_Z (x : Z) (l : list Z) : bool := existsb (Z.eqb x) l.

(** The guard [(i == 0 or i == N - 1) and (OP == CIGAR_OPS_INT[-1])]. *)
Definition boundary_clip (N i : nat) (OP : Z) : bool :=
  ((i =? 0)%nat || (Z.of_nat i =? Z.of_nat N - 1)) && (OP =? SOFT_CLIP).

(** ** build_transition_mat *)

(** The count frame: a DataFrame indexed (rows and columns) by
    [CIGAR_OPS_INT + [-1]], read by label with [.at]. *)
Definition frame_index : list Z := CIGAR_OPS_INT ++ [-1].

Definition Mat : Type := Z -> Z -> Z.

Definition mat_zero : Mat := fun _ _ => 0.

(** [T.at[a, b] += d] *)
Definition mat_add (T : Mat) (a b d : Z) : Mat :=
  fun x y => if (x =? a) && (y =? b) then T x y + d else T x y.

(** Body of the inner loop of [build_transition_mat]; the state is the
    frame and [prev_OP]. *)
Definition count_run (N : nat) (st : Mat * option Z) (it : nat * Run)
  : Mat * option Z :=
  let '(T, prev_OP) := st in
  let '(i, (OP, L)) := it in
  if negb (boundary_clip N i OP) then
    if mem_Z OP CIGAR_OPS_INT then
      let T1 := mat_add T OP OP (L - 1) in
      let T2 := match prev_OP with
                | Some p => mat_add T1 p OP 1
                | None => T1
                end in
      (T2, Some OP)
    else st
  else st.

(** One pass of the outer loop: [prev_OP] restarts at [None]. *)
Definition count_cigar (T : Mat) (cigar : Cigar) : Mat :=
  fst (fold_left (count_run (List.length cigar)) (enumerate cigar) (T, None)).

Definition count_cigars (cigars : list Cigar) : Mat :=
  fold_left count_cigar cigars mat_zero.

Definition Zsum (l : list Z) : Z := fold_right Z.add 0 l.

(** [transition_mat.sum(axis=1)] at row [a]. *)
Definition row_sum (T : Mat) (a : Z) : Z := Zsum (map (T a) frame_index).

(** One cell of [.div(row_sum, axis=0).fillna(0.)]: [0/0] is NaN and is
    filled with 0; [x/0] with [x <> 0] is an infinity, which [fillna]
    leaves alone ([None] here). *)
Definition div_fillna (x s : Z) : option Q :=
  if s =? 0 then (if x =? 0 then Some 0%Q else None)
  else Some (inject_Z x / inject_Z s)%Q.

Definition build_transition_mat (cigars : list Cigar) : Z -> Z -> option Q :=
  let T := count_cigars cigars in
  fun a b => div_fillna (T a b) (row_sum T a).

(** *** The builder in the words of the specification *)

(** Runs that take part in the counting: not a soft clip in first or
    last position, and an operation of the vocabulary. *)
Definition retained_runs (cigar : Cigar) : list Run :=
  map snd
    (filter (fun it : nat * Run =>
               negb (boundary_clip (List.length cigar) (fst it) (fst (snd it)))
               && mem_Z (fst (snd it)) CIGAR_OPS_INT)
            (enumerate cigar)).

(** Sum of [L - 1] over the retained runs of operation [a]. *)
Definition self_count (a : Z) (rs : list Run) : Z :=
  Zsum (map (fun r : Run => if fst r =? a then snd r - 1 else 0) rs).

(** Number of places where a retained [b] directly follows a retained
    [a]; [prev] is the retained operation before the list, if any. *)
Fixpoint pair_count (a b : Z) (prev : option Z) (rs : list Run) : Z :=
  match rs with
  | [] => 0
  | (op, _) :: rest =>
      (match prev with
       | Some p => if (p =? a) && (op =? b) then 1 else 0
       | None => 0
       end) + pair_count a b (Some op) rest
  end.

Definition spec_count (cigars : list Cigar) (a b : Z) : Z :=
  Zsum (map (fun c => (if a =? b then self_count a (retained_runs c) else 0)
                      + pair_count a b None (retained_runs c)) cigars).

Definition Qsum (l : list Q) : Q := fold_right Qplus 0%Q l.

(** ** score_cigar_markov *)

Local Open Scope R_scope.

(** [LemurRunEnv.FIXED_COSTS], as the dictionary's items. *)
Definition FIXED_COSTS : list (Z * R) :=
  [(0%Z, 1); (1%Z, 5 / 1000); (2%Z, 5 / 1000); (7%Z, 1);
   (8%Z, 1 / 100); (4%Z, 5 / 100); (5%Z, 1 / 1000)].

(** [d[k]] on a dictionary given by its items; [None] is [KeyError]. *)
Fixpoint dict_get {V : Type} (d : list (Z * V)) (k : Z) : option V :=
  match d with
  | [] => None
  | (k', v) :: rest => if (k =? k')%Z then Some v else dict_get rest k
  end.

(** [LemurRunEnv.FIXED_COSTS[OP]].  The scorer reads it only for
    [OP in [1, 2, 7, 8, 5, 4]], all of them keys
    ([scored_ops_have_fixed_cost]); the default is never used there. *)
Definition fixed_cost (OP : Z) : R :=
  match dict_get FIXED_COSTS OP with
  | Some c => c
  | None => 0
  end.

(** The literal list in [if OP in [1, 2, 7, 8, 5, 4]]. *)
Definition SCORED_OPS : list Z := [1; 2; 7; 8; 5; 4]%Z.

(** Body of the loop of [score_cigar_markov]; the state is [prev_OP]
    and [log_P], [T] is read with [T.at]. *)
Definition score_run (T : Z -> Z -> R) (N : nat) (st : option Z * R)
  (it : nat * Run) : option Z * R :=
  let '(prev_OP, log_P) := st in
  let '(i, (OP, L)) := it in
  if negb (boundary_clip N i OP) then
    if mem_Z OP SCORED_OPS then
      let log_P1 :=
        if Req_dec_T (T OP OP) 0
        then log_P + (IZR L - 1) * ln (fixed_cost OP)
        else log_P + (IZR L - 1) * ln (T OP OP) in
      let log_P2 :=
        match prev_OP with
        | Some p =>
            if Req_dec_T (T p OP) 0 then log_P1 else log_P1 + ln (T p OP)
        | None => log_P1
        end in
      (Some OP, log_P2)
    else st
  else st.

(** The loop, started at [prev_OP = None], [log_P = 0.]. *)
Definition score_loop (cigar : Cigar) (T : Z -> Z -> R) : option Z * R :=
  fold_left (score_run T (List.length cigar)) (enumerate cigar) (None, 0).

Definition score_cigar_markov (cigar : Cigar) (T : Z -> Z -> R) : R :=
  snd (score_loop cigar T).

(** *** The scorer in the words of the specification *)

(** Runs that are scored: not a soft clip in first or last position and
    one of I, D, =, X, H, S. *)
Definition scored_runs (cigar : Cigar) : list Run :=
  map snd
    (filter (fun it : nat * Run =>
               negb (boundary_clip (List.length cigar) (fst it) (fst (snd it)))
               && mem_Z (fst (snd it)) SCORED_OPS)
            (enumerate cigar)).

(** Self-transition term of a run: the learned value when it is
    positive, the fixed default otherwise. *)
Definition self_term (T : Z -> Z -> R) (r : Run) : R :=
  if Rlt_dec 0 (T (fst r) (fst r))
  then (IZR (snd r) - 1) * ln (T (fst r) (fst r))
  else (IZR (snd r) - 1) * ln (fixed_cost (fst r)).

(** Pairwise term: present only with a previous operation and a
    non-zero learned value; no fallback. *)
Definition pair_term (T : Z -> Z -> R) (prev : option Z) (r : Run) : R :=
  match prev with
  | Some p => if Req_dec_T (T p (fst r)) 0 then 0 else ln (T p (fst r))
  | None => 0
  end.

Fixpoint spec_markov (T : Z -> Z -> R) (prev : option Z) (rs : list Run) : R :=
  match rs with
  | [] => 0
  | r :: rest =>
      self_term T r + pair_term T prev r + spec_markov T (Some (fst r)) rest
  end.

Local Close Scope R_scope.

(** ** Exceptions *)

(** The Python exceptions the modelled code can raise. *)
Inductive exn : Type :=
| ZeroDivisionError
| KeyError
| IndexError
| UnboundLocalError
| ValueError (msg : string).

Inductive result (A : Type) : Type :=
| Ok (a : A)
| Raise (e : exn).

Arguments Ok {A} a.
Arguments Raise {A} e.

Definition bind {A B : Type} (m : result A) (f : A -> result B) : result B :=
  match m with
  | Ok a => f a
  | Raise e => Raise e
  end.

Notation "x <- m ;; k" := (bind m (fun x => k))
  (at level 61, m at next level, right associativity).

Definition of_option {A : Type} (e : exn) (o : option A) : result A :=
  match o with
  | Some a => Ok a
  | None => Raise e
  end.

(** ** Strings *)

(** [s.split(sep)] for a one-character separator. *)
Fixpoint split_on (sep : ascii) (s : string) : list string :=
  match s with
  | EmptyString => [EmptyString]
  | String c rest =>
      if Ascii.eqb c sep then EmptyString :: split_on sep rest
      else match split_on sep rest with
           | [] => [String c EmptyString]
           | tok :: toks => String c tok :: toks
           end
  end.

Definition is_space (c : ascii) : bool :=
  let n := nat_of_ascii c in
  ((9 <=? n) && (n <=? 13) || (28 <=? n) && (n <=? 32))%nat.

Fixpoint lstrip (s : string) : string :=
  match s with
  | EmptyString => EmptyString
  | String c rest => if is_space c then lstrip rest else s
  end.

Fixpoint rstrip (s : string) : string :=
  match s with
  | EmptyString => EmptyString
  | String c rest =>
      match lstrip s with
      | EmptyString => EmptyString
      | _ => String c (rstrip rest)
      end
  end.

Definition digit_of (c : ascii) : option Z :=
  let n := nat_of_ascii c in
  if ((48 <=? n) && (n <=? 57))%nat then Some (Z.of_nat n - 48) else None.

(** Decimal digits, single underscores allowed between digits. *)
Fixpoint parse_digits (s : string) (acc : Z) (after_digit : bool) : option Z :=
  match s with
  | EmptyString => if after_digit then Some acc else None
  | String c rest =>
      if Ascii.eqb c "_"%char
      then (if after_digit then parse_digits rest acc false else None)
      else match digit_of c with
           | Some d => parse_digits rest (10 * acc + d) true
           | None => None
           end
  end.

(** Python's [int(s)] on an ASCII string: surrounding white space, an
    optional sign, decimal digits.  [None] is [ValueError]. *)
Definition py_int (s : string) : option Z :=
  match rstrip (lstrip s) with
  | String "-"%char rest => option_map Z.opp (parse_digits rest 0 false)
  | String "+"%char rest => parse_digits rest 0 false
  | t => parse_digits t 0 false
  end.

(** ** Alignment records *)

(** What the code reads of a [pysam] record. *)
Record Alignment : Type := {
  query_name : string;
  reference_name : string;
  is_secondary : bool;
  is_supplementary : bool;
  tag_AS : option Z;          (* [get_tag("AS")]; [None] raises KeyError *)
  cigartuples : Cigar
}.

(** [LemurRunEnv.GENES] *)
Definition GENES : list string :=
  ["RpsE"; "RpsG"; "RpoA"; "RplK"; "RpsQ"; "RplA"; "TsaD"; "RpsK"; "LeuS";
   "RpsS"; "RpsM"; "Ffh"; "RplO"; "SecY"; "ArgS"; "CysS"; "PheS"; "RplB";
   "RpsB"; "RplP"; "RplV"; "RpsO"; "Gtp1"; "RpoB"; "RplD"; "RpsL"; "RplC";
   "RpsI"; "RpsD"; "RplM"; "SerS"; "RplR"; "ValS"; "FtsY"; "RplF"; "RpsH";
   "RplN"; "HisS"; "RpsC"; "RplE"]%string.

Definition primary (aln : Alignment) : bool :=
  negb (is_secondary aln) && negb (is_supplementary aln).

(** [extract_cigars_all]: the corpus the global models are built from. *)
Definition extract_cigars_all (sam : list Alignment) : list Cigar :=
  map cigartuples (filter primary sam).

(** [reference_name.split(":")[1].split("/")[-1]] *)
Definition gene_of_reference (ref : string) : result string :=
  field <- of_option IndexError (nth_error (split_on ":"%char ref) 1) ;;
  Ok (last (split_on "/"%char field) EmptyString).

(** [gene_cigars[gene].append(c)]; a gene outside the keys is KeyError. *)
Fixpoint bucket_append (d : list (string * list Cigar)) (gene : string)
  (c : Cigar) : result (list (string * list Cigar)) :=
  match d with
  | [] => Raise KeyError
  | (g, cs) :: rest =>
      if String.eqb g gene then Ok ((g, cs ++ [c]) :: rest)
      else rest' <- bucket_append rest gene c ;; Ok ((g, cs) :: rest')
  end.

Definition extract_cigars_per_gene (sam : list Alignment)
  : result (list (string * list Cigar)) :=
  fold_left
    (fun acc read =>
       d <- acc ;;
       if primary read then
         gene <- gene_of_reference (reference_name read) ;;
         bucket_append d gene (cigartuples read)
       else Ok d)
    sam (Ok (map (fun g => (g, [])) GENES)).

(** ** build_edit_cost and build_alignment_model *)

Definition ops_w_cost : list Z := [1; 2; 8; 4; 5].

(** The initial [op_costs], in insertion order. *)
Definition op_costs_init : list (Z * Q) :=
  [(0, 0%Q); (1, 0%Q); (2, 0%Q); (7, 0%Q); (8, 0%Q); (4, 0%Q); (5, 0%Q)].

(** [d[k] = f(d[k])] for a key of the dictionary. *)
Fixpoint dict_update {V : Type} (d : list (Z * V)) (k : Z) (f : V -> V)
  : list (Z * V) :=
  match d with
  | [] => []
  | (k', v) :: rest =>
      if k =? k' then (k', f v) :: rest else (k', v) :: dict_update rest k f
  end.

(** Body of the accumulation loop; the state is [op_costs] and [total]. *)
Definition edit_run (st : list (Z * Q) * Z) (t : Run) : list (Z * Q) * Z :=
  let '(op_costs, total) := st in
  let '(OP, L) := t in
  if mem_Z OP ops_w_cost
  then (dict_update op_costs OP (fun c => (c + inject_Z L)%Q), total + L)
  else st.

Definition edit_accumulate (cigars : list Cigar) : list (Z * Q) * Z :=
  fold_left (fun st cigar => fold_left edit_run cigar st) cigars
    (op_costs_init, 0).

(** [build_edit_cost]: with [by_gene] the body is [pass] and the
    function returns [None]; [x / total] with [total == 0] raises. *)
Definition build_edit_cost (by_gene : bool) (cigars : list Cigar)
  : result (option (list (Z * Q))) :=
  if by_gene then Ok None
  else
    let '(op_costs, total) := edit_accumulate cigars in
    if total =? 0 then Raise ZeroDivisionError
    else Ok (Some (map (fun kv : Z * Q =>
                          if mem_Z (fst kv) ops_w_cost
                          then (fst kv, (snd kv / inject_Z total)%Q)
                          else (fst kv, 1%Q))
                       op_costs)).

(** The command-line options the modelled code reads. *)
Record Args : Type := {
  minimap2_AS : bool;
  aln_score : option string;
  aln_score_gene : bool;
  gid_name : bool;
  nof : bool;
  rank : string;
  sam_input : option string;
  keep_alignments : bool
}.

(** The literal assigned to [self.fixed_cigar]. *)
Definition fixed_cigar_table : list (Z * Q) :=
  [(0, 1%Q); (1, 5 # 1000); (2, 5 # 1000); (7, 1%Q); (8, 1 # 100);
   (4, 5 # 100); (5, 1 # 100)].

(** What [build_alignment_model] leaves on [self]. *)
Inductive AlignmentModel : Type :=
| NoModel
| TransitionMat (transition_mat : Z -> Z -> option Q)
| GeneTransitionMats (mats : list (string * (Z -> Z -> option Q)))
| EditCigar (edit_cigar : option (list (Z * Q)))
| FixedCigar (fixed_cigar : list (Z * Q)).

Definition build_transition_mats (by_gene : bool) (sam : list Alignment)
  : result AlignmentModel :=
  if by_gene then
    gene_cigars <- extract_cigars_per_gene sam ;;
    Ok (GeneTransitionMats
          (combine GENES (map (fun gc => build_transition_mat (snd gc))
                              gene_cigars)))
  else Ok (TransitionMat (build_transition_mat (extract_cigars_all sam))).

(** [self.args.aln_score == s]; the option is [None] when not given. *)
Definition opt_str_eq (o : option string) (s : string) : bool :=
  match o with
  | Some x => String.eqb x s
  | None => false
  end.

Definition build_alignment_model (args : Args) (sam : list Alignment)
  : result AlignmentModel :=
  if minimap2_AS args then Ok NoModel
  else if opt_str_eq (aln_score args) "markov"
  then build_transition_mats (aln_score_gene args) sam
  else if opt_str_eq (aln_score args) "edit"
  then m <- build_edit_cost (aln_score_gene args) (extract_cigars_all sam) ;;
       Ok (EditCigar m)
  else Ok (FixedCigar fixed_cigar_table).

(** *** The learned per-operation model in the words of the specification *)

(** Total run length of operation [op] over the corpus. *)
Definition op_total (op : Z) (cigars : list Cigar) : Z :=
  Zsum (map (fun c => Zsum (map (fun r : Run => if fst r =? op then snd r else 0) c))
            cigars).

(** Grand total of the costed lengths. *)
Definition costed_total (cigars : list Cigar) : Z :=
  Zsum (map (fun op => op_total op cigars) ops_w_cost).

(** Costed kinds get their share of the grand total, the others 1. *)
Definition spec_op_costs (cigars : list Cigar) : list (Z * Q) :=
  map (fun k => (k, if mem_Z k ops_w_cost
                    then (inject_Z (op_total k cigars)
                          / inject_Z (costed_total cigars))%Q
                    else 1%Q))
      (map fst op_costs_init).

(** Costed length of one run, as the loop adds it to key [k]. *)
Definition run_cost (k : Z) (r : Run) : Z :=
  if mem_Z (fst r) ops_w_cost && (k =? fst r) then snd r else 0.

(** ** build_P_rgs_df: the record loop *)

(** [__get_aln_len]: [I + E + X] of [get_cigar_stats()[0]], the number
    of bases under the operations 1, 7 and 8 of the record's CIGAR. *)
Definition get_aln_len (aln : Alignment) : Z :=
  Zsum (map (fun r : Run => if mem_Z (fst r) [1; 7; 8] then snd r else 0)
            (cigartuples aln)).

(** One row of [P_rgs_data] as the loop appends it: [log_P] is filled
    here only with [--minimap2-AS], [cigar] only without it. *)
Record PRow : Type := {
  p_Read_ID : string;
  p_Target_ID : Z;
  p_log_P : option R;
  p_cigar : option Cigar;
  p_Gene : string;
  p_Reference : string;
  p_aln_len : Z
}.

(** [np.log(aln_score / (2 * aln_len))]; the quotient is Python's and
    raises on a zero length. *)
Definition minimap2_log_P (aln_score aln_len : Z) : result R :=
  if 2 * aln_len =? 0 then Raise ZeroDivisionError
  else Ok (ln (IZR aln_score / IZR (2 * aln_len)))%R.

(** Body of the loop over [samfile.fetch()]: the row appended for
    [aln], if any.  With [--gid-name] the branch taken never assigns
    [gene], so appending it raises. *)
Definition P_rgs_row (args : Args) (aln : Alignment) : result (option PRow) :=
  aln_score <- of_option KeyError (tag_AS aln) ;;
  if 0 <? aln_score then
    if gid_name args then
      if minimap2_AS args then
        _ <- minimap2_log_P aln_score (get_aln_len aln) ;;
        Raise UnboundLocalError
      else Raise UnboundLocalError
    else
      species_tid <-
        of_option (ValueError "invalid literal for int() with base 10")
          (py_int (hd EmptyString (split_on ":"%char (reference_name aln)))) ;;
      gene <- gene_of_reference (reference_name aln) ;;
      log_P <- (if minimap2_AS args
                then x <- minimap2_log_P aln_score (get_aln_len aln) ;;
                     Ok (Some x)
                else Ok None) ;;
      Ok (Some {| p_Read_ID := query_name aln;
                  p_Target_ID := species_tid;
                  p_log_P := log_P;
                  p_cigar := if minimap2_AS args then None
                             else Some (cigartuples aln);
                  p_Gene := gene;
                  p_Reference := reference_name aln;
                  p_aln_len := get_aln_len aln |})
  else Ok None.

(** The loop: rows in record order; the first exception ends it. *)
Fixpoint P_rgs_data (args : Args) (sam : list Alignment)
  : result (list PRow) :=
  match sam with
  | [] => Ok []
  | aln :: rest =>
      row <- P_rgs_row args aln ;;
      rows <- P_rgs_data args rest ;;
      Ok (match row with
          | Some r => r :: rows
          | None => rows
          end)
  end.

(** The record test in the words of the specification. *)
Definition spec_retained (aln : Alignment) : bool :=
  negb (is_secondary aln) && negb (is_supplementary aln)
  && match tag_AS aln with
     | Some s => 0 <? s
     | None => false
     end.

(** The record test of the loop. *)
Definition positive_score (aln : Alignment) : bool :=
  match tag_AS aln with
  | Some s => 0 <? s
  | None => false
  end.

(** ** The likelihood table and the plausibility filter *)

(** One row of [self.P_rgs_df.reset_index()], with the columns the
    estimator reads. *)
Record LRow : Type := {
  Read_ID : string;
  Target_ID : Z;
  log_P : R;
  Gene : string
}.

(** One row of [self.gene_stats_df], with its derived columns. *)
Record GeneStat : Type := {
  gs_id : string;
  gs_type : string;
  gs_Target_ID : Z
}.

(** The distinct elements of [l]: the members of [set(l)], the keys of
    a [groupby].  pandas sorts group keys; no property below depends on
    their order. *)
Fixpoint distinct {A : Type} (eqb : A -> A -> bool) (l : list A) : list A :=
  match l with
  | [] => []
  | x :: rest =>
      if existsb (eqb x) rest then distinct eqb rest
      else x :: distinct eqb rest
  end.

(** [len(set(l))] *)
Definition count_distinct (l : list string) : Z :=
  Z.of_nat (List.length (distinct String.eqb l)).

(** [__P_rgs_df[__P_rgs_df["Target_ID"] == tid]] *)
Definition tid_df (rows : list LRow) (tid : Z) : list LRow :=
  filter (fun r => Target_ID r =? tid) rows.

Definition N_genes_hit (rows : list LRow) (tid : Z) : Z :=
  count_distinct (map Gene (tid_df rows tid)).

Definition N_genes (gene_stats : list GeneStat) (tid : Z) : Z :=
  count_distinct
    (map gs_type (filter (fun g => gs_Target_ID g =? tid) gene_stats)).

Definition N_reads (rows : list LRow) (tid : Z) : Z :=
  count_distinct (map Read_ID (tid_df rows tid)).

(** [get_expected_gene_hits]; [1 / N_genes] on Python integers raises
    for [N_genes == 0]. *)
Definition get_expected_gene_hits (N_genes N_reads : Z) : result (Q * Q) :=
  if N_genes =? 0 then Raise ZeroDivisionError
  else
    let N := inject_Z N_genes in
    let E := (N * (1 - (1 - 1 / N) ^ N_reads))%Q in
    let V := (N * (1 - 1 / N) ^ N_reads
              + N * N * (1 - 1 / N) * (1 - (2 # 1) / N) ^ N_reads
              - N * N * (1 - 1 / N) ^ (2 * N_reads))%Q in
    Ok (E, V).

Definition Qlt_bool (x y : Q) : bool := negb (Qle_bool y x).

(** The decision appended to [filter_pass] for [tid]. *)
Definition filter_passes (rows : list LRow) (gene_stats : list GeneStat)
  (tid : Z) : result bool :=
  let hit := N_genes_hit rows tid in
  let n := N_reads rows tid in
  if 10 <? n then
    EV <- get_expected_gene_hits (N_genes gene_stats tid) n ;;
    let '(E_N_genes_hit, variance) := EV in
    Ok ((Qlt_bool (7 # 10) (inject_Z hit / E_N_genes_hit)
         || Qle_bool (E_N_genes_hit - inject_Z hit) ((3 # 1) * variance))
        && (1 <? hit))
  else if n =? 0 then Ok false else Ok true.

Fixpoint map_result {A B : Type} (f : A -> result B) (l : list A)
  : result (list B) :=
  match l with
  | [] => Ok []
  | x :: rest =>
      y <- f x ;;
      ys <- map_result f rest ;;
      Ok (y :: ys)
  end.

(** [F.loc[mask]] with a boolean list. *)
Definition loc_mask {V : Type} (F : list (Z * V)) (mask : list bool)
  : list (Z * V) :=
  map fst (filter snd (combine F mask)).

(** The filter block of [EM_complete] (run unless [--nof]); the series
    [F] is given by its items. *)
Definition plausibility_filter {V : Type} (rows : list LRow)
  (gene_stats : list GeneStat) (F : list (Z * V)) : result (list (Z * V)) :=
  filter_pass <- map_result (filter_passes rows gene_stats) (map fst F) ;;
  Ok (loc_mask F filter_pass).

(** *** The retention rule in the words of the specification *)

Definition spec_E (N_genes N_reads : Z) : Q :=
  (inject_Z N_genes * (1 - (1 - 1 / inject_Z N_genes) ^ N_reads))%Q.

Definition spec_V (N_genes N_reads : Z) : Q :=
  let N := inject_Z N_genes in
  (N * (1 - 1 / N) ^ N_reads
   + N * N * (1 - 1 / N) * (1 - (2 # 1) / N) ^ N_reads
   - N * N * (1 - 1 / N) ^ (2 * N_reads))%Q.

Definition spec_retain (rows : list LRow) (gene_stats : list GeneStat)
  (tid : Z) : Prop :=
  let hit := N_genes_hit rows tid in
  let n := N_reads rows tid in
  let E := spec_E (N_genes gene_stats tid) n in
  let V := spec_V (N_genes gene_stats tid) n in
  (10 < n ->
   ((7 # 10 < inject_Z hit / E)%Q \/ (E - inject_Z hit <= (3 # 1) * V)%Q)
   /\ 1 < hit)
  /\ (n <= 10 -> 1 <= n).

(** ** logSumExp and EM_step *)

Local Open Scope R_scope.

Definition Rsum (l : list R) : R := fold_right Rplus 0 l.

(** [np.max] of a non-empty array. *)
Definition np_max (ns : list R) : R :=
  match ns with
  | [] => 0
  | x :: xs => fold_left Rmax xs x
  end.

(** [logSumExp]; every real is finite, so [__max] is never replaced. *)
Definition logSumExp (ns : list R) : R :=
  let __max := np_max ns in
  let sumOfExp := Rsum (map (fun n => exp (n - __max)) ns) in
  __max + ln sumOfExp.

(** The series [F], by its items. *)
Definition FVec : Type := list (Z * R).

(** [init_F]: uniform over the index of the taxonomy. *)
Definition init_F (tax_ids : list Z) : result FVec :=
  match tax_ids with
  | [] => Raise ZeroDivisionError
  | _ => Ok (map (fun t => (t, 1 / INR (List.length tax_ids))) tax_ids)
  end.

(** The inner merge of the table with [F] on [Target_ID]: each row
    with the [F] of its target. *)
Definition merge_F (rows : list LRow) (F : FVec) : list (LRow * R) :=
  flat_map (fun r => map (fun e : Z * R => (r, snd e))
                         (filter (fun e : Z * R => (fst e =? Target_ID r)%Z) F))
           rows.

(** The column [P(r|t)*F(t)]: [log_P + np.log(F)]. *)
Definition joint (x : LRow * R) : R := log_P (fst x) + ln (snd x).

(** [P_tgr_sum]: one [logSumExp] per read of the merged table. *)
Definition group_sums (m : list (LRow * R)) : list (string * R) :=
  map (fun rd =>
         (rd, logSumExp
                (map joint
                     (filter (fun x => String.eqb (Read_ID (fst x)) rd) m))))
      (distinct String.eqb (map (fun x => Read_ID (fst x)) m)).

Fixpoint str_get (d : list (string * R)) (k : string) : option R :=
  match d with
  | [] => None
  | (k', v) :: rest => if String.eqb k k' then Some v else str_get rest k
  end.

(** One row of [P_tgr] after the left merge with [P_tgr_sum]. *)
Record TRow : Type := {
  t_Read_ID : string;
  t_Target_ID : Z;
  t_joint : R;        (* P(r|t)*F(t) *)
  t_joint_sum : R;    (* P(r|t)*F(t)_sum *)
  t_post : R          (* P(t|r) *)
}.

(** The left merge on [Read_ID]; every read of the table has its sum
    ([group_sums_get]), the default is never used. *)
Definition posterior_rows (m : list (LRow * R)) (sums : list (string * R))
  : list TRow :=
  map (fun x =>
         let s := match str_get sums (Read_ID (fst x)) with
                  | Some z => z
                  | None => 0
                  end in
         {| t_Read_ID := Read_ID (fst x);
            t_Target_ID := Target_ID (fst x);
            t_joint := joint x;
            t_joint_sum := s;
            t_post := joint x - s |})
      m.

(** The group-by on [Target_ID] with
    [np.exp(logSumExp(x) - np.log(n_reads))]. *)
Definition maximize (P : list TRow) (n_reads : nat) : FVec :=
  map (fun t =>
         (t, exp (logSumExp
                    (map t_post
                         (filter (fun x => (t_Target_ID x =? t)%Z) P))
                  - ln (INR n_reads))))
      (distinct Z.eqb (map t_Target_ID P)).

(** [F.loc[F != 0]] *)
Definition drop_zero (F : FVec) : FVec :=
  filter (fun e : Z * R => if Req_dec_T (snd e) 0 then false else true) F.

(** What [EM_step] leaves on [self]. *)
Record EMState : Type := {
  P_tgr : list TRow;
  P_tgr_sum : list (string * R);
  F_new : FVec
}.

Definition EM_step (rows : list LRow) (F : FVec) : EMState :=
  let m := merge_F rows F in
  let sums := group_sums m in
  let P := posterior_rows m sums in
  {| P_tgr := P;
     P_tgr_sum := sums;
     F_new := drop_zero (maximize P (List.length sums)) |}.

(** [compute_loglikelihood]: the sum of the column
    [P(r|t)*F(t)_sum] of [P_tgr]. *)
Definition compute_loglikelihood (st : EMState) : R :=
  Rsum (map t_joint_sum (P_tgr st)).

(** The total data log-likelihood in the words of the specification:
    the sum over reads of their normalizing constants. *)
Definition loglik_over_reads (st : EMState) : R :=
  Rsum (map snd (P_tgr_sum st)).

(** ** EM_complete *)

(** [lli] starts at [-np.inf]. *)
Inductive xfloat : Type :=
| NegInf
| Fin (x : R)
| PosInf.

(** [new_lli - lli] for a finite [new_lli]. *)
Definition lli_delta (new_lli : R) (lli : xfloat) : xfloat :=
  match lli with
  | NegInf => PosInf
  | Fin l => Fin (new_lli - l)
  | PosInf => NegInf
  end.

(** [delta < threshold] *)
Definition xlt (d : xfloat) (threshold : R) : bool :=
  match d with
  | NegInf => true
  | Fin x => if Rlt_dec x threshold then true else false
  | PosInf => false
  end.

(** [self.lli_threshold] *)
Definition lli_threshold : R := 1 / 100.

Record EMResult : Type := {
  iterations : nat;       (* the value of [i] at the return *)
  F_last : FVec;          (* [self.F] when the test succeeded *)
  final_F : FVec          (* [self.final_F] after [EM_step(final=True)] *)
}.

(** The [while True] loop; [fuel] bounds the number of iterations. *)
Fixpoint EM_loop (fuel : nat) (rows : list LRow) (low_abundance_threshold : R)
  (F : FVec) (lli : xfloat) (i : nat) : option EMResult :=
  match fuel with
  | O => None
  | S fuel' =>
      let st := EM_step rows F in
      let new_lli := compute_loglikelihood st in
      if xlt (lli_delta new_lli lli) lli_threshold then
        let kept :=
          filter (fun e : Z * R =>
                    if Rle_dec low_abundance_threshold (snd e)
                    then true else false)
                 (F_new st) in
        Some {| iterations := i;
                F_last := F_new st;
                final_F := F_new (EM_step rows kept) |}
      else EM_loop fuel' rows low_abundance_threshold (F_new st)
             (Fin new_lli) (S i)
  end.

(** [EM_complete] up to the return of the loop; [None] when the loop
    has not returned within [fuel] iterations. *)
Definition EM_complete (fuel : nat) (args : Args) (rows : list LRow)
  (gene_stats : list GeneStat) (F : FVec) : result (option EMResult) :=
  let n_reads := List.length (distinct String.eqb (map Read_ID rows)) in
  match n_reads with
  | O => Raise ZeroDivisionError
  | _ =>
      F1 <- (if nof args then Ok F
             else plausibility_filter rows gene_stats F) ;;
      Ok (EM_loop fuel rows (1 / INR n_reads) F1 NegInf 1)
  end.

(** *** The iterates of the loop *)

(** [self.F] after [k] calls of [EM_step]. *)
Fixpoint F_iter (rows : list LRow) (F : FVec) (k : nat) : FVec :=
  match k with
  | O => F
  | S k' => F_new (EM_step rows (F_iter rows F k'))
  end.

(** [new_lli] of iteration [k], for [k >= 1]. *)
Definition lli_iter (rows : list LRow) (F : FVec) (k : nat) : R :=
  compute_loglikelihood (EM_step rows (F_iter rows F (k - 1))).

(** The convergence test of iteration [k]: never met at the first
    iteration, whose baseline is [-inf]. *)
Definition converged_at (rows : list LRow) (F : FVec) (k : nat) : Prop :=
  (2 <= k)%nat /\ lli_iter rows F k - lli_iter rows F (k - 1) < lli_threshold.

Local Close Scope R_scope.

(** *** A table on which the two log-likelihoods part *)

(** One read with two candidate targets, [log_P] 0 and [log(5/6)]. *)
Definition row_t1 : LRow :=
  {| Read_ID := "r1"; Target_ID := 1; log_P := 0%R; Gene := "RpsE" |}.

Definition row_t2 : LRow :=
  {| Read_ID := "r1"; Target_ID := 2; log_P := ln (5 / 6)%R; Gene := "RpsE" |}.

Definition two_target_rows : list LRow := [row_t1; row_t2].

(** [init_F] over a taxonomy of these two targets. *)
Definition half_half : FVec := [(1, (1 / 2)%R); (2, (1 / 2)%R)].

(** ** collapse_rank and main *)

(** [LemurRunEnv.TAXONOMY_RANKS] *)
Definition TAXONOMY_RANKS : list string :=
  ["species"; "genus"; "family"; "order"; "class"; "phylum"; "clade";
   "superkingdom"]%string.

(** [self.rank not in self.TAXONOMY_RANKS] *)
Definition rank_known (rank : string) : bool :=
  existsb (String.eqb rank) TAXONOMY_RANKS.

(** The exception of [collapse_rank]; the message carries the list of
    ranks, not the rank that was given. *)
Definition rank_error : exn :=
  ValueError
    "Specified rank must be in list: ['species', 'genus', 'family', 'order', 'class', 'phylum', 'clade', 'superkingdom']".

(** [parse_args] for [--rank]: [type=str], no [choices]; every string
    is accepted. *)
Definition parse_rank (given : option string) : string :=
  match given with
  | Some s => s
  | None => "species"%string
  end.

(** The stages of a run, as they show from outside. *)
Inductive event : Type :=
| Minimap2                (* run_minimap2 *)
| LoadTaxonomy            (* init_taxonomy *)
| InitF                   (* init_F *)
| BuildAlignmentModel     (* build_alignment_model *)
| BuildLikelihoodTable    (* build_P_rgs_df: every record is scored *)
| EMStart                 (* EM_complete: read count, threshold *)
| PlausibilityFilter      (* EM_complete: the filter block *)
| EMStep (i : nat)        (* the i-th [EM_step] of the loop *)
| FinalEMStep             (* [EM_step(final=True)] *)
| WriteReport             (* freq_to_lineage_df *)
| ReadReport              (* collapse_rank: [pd.read_csv] *)
| WriteRankReport         (* collapse_rank: [to_csv] *)
| RemoveSam.              (* [os.remove] *)

Inductive outcome : Type :=
| Exit (code : Z)
| Uncaught (e : exn)
| Diverges.

(** What the surroundings decide in a run: the exception a stage
    raises, if any; minimap2's return code; how many iterations the
    loop makes beyond the two it always makes ([EM_loop_from]), if it
    ever meets its convergence test. *)
Record World : Type := {
  failure : event -> option exn;
  minimap2_rc : Z;
  em_extra_iterations : option nat
}.

(** A piece of the run: from the trace so far to the trace after it,
    and how the run ended if it ended there. *)
Definition Prog : Type := list event -> list event * option outcome.

Definition stage (w : World) (ev : event) : Prog :=
  fun tr =>
    (tr ++ [ev],
     match failure w ev with
     | Some e => Some (Uncaught e)
     | None => None
     end).

Definition andthen (p q : Prog) : Prog :=
  fun tr =>
    match p tr with
    | (tr', None) => q tr'
    | ended => ended
    end.

Definition skip : Prog := fun tr => (tr, None).

Definition finish (o : outcome) : Prog := fun tr => (tr, Some o).

Fixpoint stages (ps : list Prog) : Prog :=
  match ps with
  | [] => skip
  | p :: rest => andthen p (stages rest)
  end.

(** [run_minimap2]: [sys.exit(rc)] on a non-zero return code. *)
Definition run_minimap2 (w : World) : Prog :=
  andthen (stage w Minimap2)
    (if minimap2_rc w =? 0 then skip else finish (Exit (minimap2_rc w))).

(** [collapse_rank]: the report is read, then the rank is tested. *)
Definition collapse_rank (w : World) (rank : string) : Prog :=
  andthen (stage w ReadReport)
    (if rank_known rank then stage w WriteRankReport
     else finish (Uncaught rank_error)).

(** The [while True] loop of [EM_complete], seen from outside. *)
Definition EM_iterations (w : World) : Prog :=
  match em_extra_iterations w with
  | Some k => stages (map (fun i => stage w (EMStep i)) (seq 1 (2 + k)))
  | None => finish Diverges
  end.

Definition EM_complete_run (w : World) (args : Args) : Prog :=
  stages [stage w EMStart;
          (if nof args then skip else stage w PlausibilityFilter);
          EM_iterations w;
          stage w FinalEMStep;
          stage w WriteReport;
          collapse_rank w (rank args)].

(** [main] *)
Definition main (args : Args) (w : World) : Prog :=
  stages [(match sam_input args with
           | Some (String _ _) => skip
           | _ => run_minimap2 w
           end);
          stage w LoadTaxonomy;
          stage w InitF;
          stage w BuildAlignmentModel;
          stage w BuildLikelihoodTable;
          EM_complete_run w args;
          stage w WriteReport;
          collapse_rank w (rank args);
          (if keep_alignments args then skip else stage w RemoveSam);
          finish (Exit 0)].

(** ** Sample data *)

(** A corpus of two alignments; the first is soft-clipped at both ends. *)
Definition sample_corpus : list Cigar :=
  [ [(4, 5); (7, 10); (8, 1); (7, 20); (4, 3)];
    [(7, 3); (1, 2); (7, 4)] ].

(** A model that has seen only run continuations. *)
Definition diagonal_T : Z -> Z -> R :=
  fun a b => if a =? b then (9 / 10)%R else 0%R.

(** Options of a run on an existing SAM file in the default scoring
    mode ([--aln-score] not given). *)
Definition plain_args : Args :=
  {| minimap2_AS := false;
     aln_score := None;
     aln_score_gene := false;
     gid_name := false;
     nof := false;
     rank := "species";
     sam_input := Some "reads.sam"%string;
     keep_alignments := true |}.

Definition edit_args : Args :=
  {| minimap2_AS := false;
     aln_score := Some "edit"%string;
     aln_score_gene := false;
     gid_name := false;
     nof := false;
     rank := "species";
     sam_input := Some "reads.sam"%string;
     keep_alignments := true |}.

Definition strain_args : Args :=
  {| minimap2_AS := false;
     aln_score := None;
     aln_score_gene := false;
     gid_name := false;
     nof := false;
     rank := parse_rank (Some "strain"%string);
     sam_input := Some "reads.sam"%string;
     keep_alignments := true |}.

(** A primary record with insertions and a deletion. *)
Definition primary_hit : Alignment :=
  {| query_name := "read1";
     reference_name := "562:markers/RpoB";
     is_secondary := false;
     is_supplementary := false;
     tag_AS := Some 180;
     cigartuples := [(7, 10); (1, 3); (7, 5); (2, 1)] |}.

(** A secondary record of the same read on another taxon. *)
Definition secondary_hit : Alignment :=
  {| query_name := "read1";
     reference_name := "573:markers/RpoB";
     is_secondary := true;
     is_supplementary := false;
     tag_AS := Some 60;
     cigartuples := [(7, 100)] |}.

Definition table_row (read : string) (tid : Z) (gene : string) : LRow :=
  {| Read_ID := read; Target_ID := tid; log_P := 0%R; Gene := gene |}.

Definition read_names (n : nat) : list string :=
  firstn n ["a"; "b"; "c"; "d"; "e"; "f"; "g"; "h"; "i"; "j"; "k"; "l"]%string.

(** Taxon 42: 5 reads, all on RpsE.  Taxon 8: 11 reads, all on RpsE.
    Taxon 7: 12 reads over RpsE, RpsG, RpoA.  Taxon 9: no read. *)
Definition sample_rows : list LRow :=
  map (fun r => table_row r 42 "RpsE") (read_names 5)
  ++ map (fun r => table_row r 8 "RpsE") (read_names 11)
  ++ map (fun r => table_row r 7 "RpsE") (firstn 4 (read_names 12))
  ++ map (fun r => table_row r 7 "RpsG") (firstn 4 (skipn 4 (read_names 12)))
  ++ map (fun r => table_row r 7 "RpoA") (skipn 8 (read_names 12)).

(** Ten marker genes on record for the taxa 42 and 8, three for 7. *)
Definition sample_gene_stats : list GeneStat :=
  map (fun g => {| gs_id := g; gs_type := g; gs_Target_ID := 42 |})
      (firstn 10 GENES)
  ++ map (fun g => {| gs_id := g; gs_type := g; gs_Target_ID := 8 |})
         (firstn 10 GENES)
  ++ map (fun g => {| gs_id := g; gs_type := g; gs_Target_ID := 7 |})
         (firstn 3 GENES).

Definition sample_F : FVec :=
  [(42, (1 / 4)%R); (8, (1 / 4)%R); (7, (1 / 4)%R); (9, (1 / 4)%R)].

(** A run in which no stage fails and the loop stops at its second
    iteration. *)
Definition quiet_world : World :=
  {| failure := fun _ => None;
     minimap2_rc := 0;
     em_extra_iterations := Some 0%nat |}.

(** ** Further sample data *)

(** A table with a single read and a single candidate target. *)
Definition single_target_rows : list LRow := [table_row "a" 42 "RpsE"].

Definition single_target_F : FVec := [(42, 1%R)].

(** ** score_cigar_fixed *)

(** [score_cigar_fixed]: every run is charged, boundary soft clips
    included; [fixed_op_cost[OP]] raises KeyError for an operation
    that is not a key; Python's [sum] adds from the left, from 0.
    [np.log] is the real logarithm for positive costs; a cost of 0
    gives an infinity in the source and is outside this model. *)
Definition score_cigar_fixed (cigar : Cigar) (fixed_op_cost : list (Z * R))
  : result R :=
  terms <- map_result
             (fun OP_L : Run =>
                c <- of_option KeyError (dict_get fixed_op_cost (fst OP_L)) ;;
                Ok (ln c * IZR (snd OP_L))%R)
             cigar ;;
  Ok (fold_left Rplus terms 0%R).

(** A per-operation model built in exact arithmetic, as the scorer
    reads it. *)
Definition costs_as_real (d : list (Z * Q)) : list (Z * R) :=
  map (fun kv : Z * Q => (fst kv, Q2R (snd kv))) d.

(** A transition frame built in exact arithmetic, as the scorer reads
    it with [T.at]; the frame has no infinite cell when the run
    lengths are at least 1 ([transition_cells_are_probabilities]). *)
Definition frame_as_real (M : Z -> Z -> option Q) : Z -> Z -> R :=
  fun a b =>
    match M a b with
    | Some q => Q2R q
    | None => 0%R
    end.

(** A CIGAR with a soft clip added at both ends. *)
Definition soft_clipped (a b : Z) (cigar : Cigar) : Cigar :=
  (SOFT_CLIP, a) :: cigar ++ [(SOFT_CLIP, b)].

(** ** collapse_rank: the columns it keeps *)

(** [TAXONOMY_RANKS[TAXONOMY_RANKS.index(rank):]] for a rank of the
    list. *)
Fixpoint ranks_from (rank : string) (ranks : list string) : list string :=
  match ranks with
  | [] => []
  | r :: rest => if String.eqb r rank then ranks else ranks_from rank rest
  end.

(** [l.remove(x)]: the first occurrence goes. *)
Fixpoint list_remove (x : string) (l : list string) : list string :=
  match l with
  | [] => []
  | y :: rest => if String.eqb x y then rest else y :: list_remove x rest
  end.

(** [x in df_emu.columns] *)
Definition in_columns (columns : list string) (x : string) : bool :=
  existsb (String.eqb x) columns.

(** The loop [for keep_rank in keep_ranks: if keep_rank not in
    df_emu.columns: keep_ranks.remove(keep_rank)].  The list is
    changed while it is iterated: the iterator holds a position [i],
    reads [keep_ranks[i]] and moves on, whatever was removed.  It
    makes at most [len(keep_ranks)] steps, which is what [fuel]
    counts. *)
Fixpoint prune_loop (fuel : nat) (columns keep_ranks : list string) (i : nat)
  : list string :=
  match fuel with
  | O => keep_ranks
  | S fuel' =>
      match nth_error keep_ranks i with
      | None => keep_ranks
      | Some keep_rank =>
          if in_columns columns keep_rank
          then prune_loop fuel' columns keep_ranks (S i)
          else prune_loop fuel' columns (list_remove keep_rank keep_ranks)
                 (S i)
      end
  end.

Definition prune_keep_ranks (columns keep_ranks : list string) : list string :=
  prune_loop (List.length keep_ranks) columns keep_ranks 0.

(** [collapse_rank] up to the column selection
    [df_emu[['F'] + keep_ranks]], which raises KeyError for a label
    that is not a column; the result is the list of kept ranks. *)
Definition collapse_rank_keep (rank : string) (columns : list string)
  : result (list string) :=
  if rank_known rank then
    let keep_ranks := prune_keep_ranks columns (ranks_from rank TAXONOMY_RANKS) in
    if forallb (in_columns columns) ("F"%string :: keep_ranks)
    then Ok keep_ranks
    else Raise KeyError
  else Raise rank_error.

(** What the loop does, read along the list: a rank that is a column
    stays; a rank that is not is removed, and the rank after it is
    passed over and stays. *)
Fixpoint prune_skip (columns l : list string) : list string :=
  match l with
  | [] => []
  | x :: rest =>
      if in_columns columns x then x :: prune_skip columns rest
      else match rest with
           | [] => []
           | y :: rest' => y :: prune_skip columns rest'
           end
  end.

(** No two neighbours of [l] are both absent from the columns. *)
Fixpoint no_absent_neighbours (columns l : list string) : bool :=
  match l with
  | [] => true
  | x :: rest =>
      match rest with
      | [] => true
      | y :: _ =>
          negb (negb (in_columns columns x) && negb (in_columns columns y))
          && no_absent_neighbours columns rest
      end
  end.

(** ** Per-gene corpora *)

(** [d[k]] for a dictionary keyed by strings. *)
Fixpoint gene_get {V : Type} (d : list (string * V)) (k : string) : option V :=
  match d with
  | [] => None
  | (k', v) :: rest => if String.eqb k' k then Some v else gene_get rest k
  end.

(** The record's reference names the marker gene [gene]. *)
Definition names_gene (gene : string) (aln : Alignment) : bool :=
  match gene_of_reference (reference_name aln) with
  | Ok g => String.eqb g gene
  | Raise _ => false
  end.

(** The CIGARs of the primary records of [gene], in record order. *)
Definition gene_corpus (gene : string) (sam : list Alignment) : list Cigar :=
  map cigartuples (filter (fun aln => primary aln && names_gene gene aln) sam).

(** A primary record of another marker gene. *)
Definition rpsE_hit : Alignment :=
  {| query_name := "read2";
     reference_name := "562:markers/RpsE";
     is_secondary := false;
     is_supplementary := false;
     tag_AS := Some 90;
     cigartuples := [(4, 2); (7, 40)] |}.

Definition three_records : list Alignment :=
  [primary_hit; secondary_hit; rpsE_hit].

(** The dictionary [extract_cigars_per_gene] returns for them. *)
Definition three_records_per_gene : list (string * list Cigar) :=
  match extract_cigars_per_gene three_records with
  | Ok d => d
  | Raise _ => []
  end.

(** ** Runs that end with exit(0) *)

(** [not run.args.sam_input] *)
Definition runs_minimap2 (args : Args) : bool :=
  match sam_input args with
  | Some (String _ _) => false
  | _ => true
  end.

(** The stages of a run in which nothing fails, for a loop that makes
    [2 + k] iterations. *)
Definition complete_trace (args : Args) (k : nat) : list event :=
  (if runs_minimap2 args then [Minimap2] else [])
  ++ [LoadTaxonomy; InitF; BuildAlignmentModel; BuildLikelihoodTable; EMStart]
  ++ (if nof args then [] else [PlausibilityFilter])
  ++ map EMStep (seq 1 (2 + k))
  ++ [FinalEMStep; WriteReport; ReadReport; WriteRankReport;
      WriteReport; ReadReport; WriteRankReport]
  ++ (if keep_alignments args then [] else [RemoveSam]).

(** ** Learned costs and further records *)

(** [op_costs[OP]] for a key of the dictionary. *)
Definition cost_of (costs : list (Z * Q)) (OP : Z) : Q :=
  match dict_get costs OP with
  | Some c => c
  | None => 0%Q
  end.

(** Options with [--gid-name]. *)
Definition gid_args : Args :=
  {| minimap2_AS := false;
     aln_score := None;
     aln_score_gene := false;
     gid_name := true;
     nof := false;
     rank := "species";
     sam_input := Some "reads.sam"%string;
     keep_alignments := true |}.

(** Options with [--minimap2-AS]. *)
Definition AS_args : Args :=
  {| minimap2_AS := true;
     aln_score := None;
     aln_score_gene := false;
     gid_name := false;
     nof := false;
     rank := "species";
     sam_input := Some "reads.sam"%string;
     keep_alignments := true |}.

(** A record aligned without [--eqx]: matches and mismatches are both
    under the operation 0. *)
Definition plain_match_hit : Alignment :=
  {| query_name := "read3";
     reference_name := "562:markers/RpoB";
     is_secondary := false;
     is_supplementary := false;
     tag_AS := Some 150;
     cigartuples := [(4, 3); (0, 80); (2, 1); (0, 20)] |}.

(** ** The maximization with the exponential as a parameter *)

(** The group-by of [EM_step] on [Target_ID] with [np.exp] as a
    parameter.  On floats [np.exp] returns 0.0 for an argument below its
    underflow bound, which the exponential of [R] never does; [maximize]
    is [maximize_with exp]. *)
Definition maximize_with (np_exp : R -> R) (P : list TRow) (n_reads : nat)
  : FVec :=
  map (fun t =>
         (t, np_exp (logSumExp
                       (map t_post
                            (filter (fun x => (t_Target_ID x =? t)%Z) P))
                     - ln (INR n_reads))%R))
      (distinct Z.eqb (map t_Target_ID P)).

(** [self.F] after [self.F = self.F.loc[self.F != 0]]. *)
Definition next_F (np_exp : R -> R) (P : list TRow) (n_reads : nat) : FVec :=
  drop_zero (maximize_with np_exp P n_reads).

(** A table whose only taxon has 11 reads, all on one marker gene out
    of the ten on record for it. *)
Definition one_gene_rows : list LRow :=
  map (fun r => table_row r 8 "RpsE") (read_names 11).

Definition one_gene_stats : list GeneStat :=
  map (fun g => {| gs_id := g; gs_type := g; gs_Target_ID := 8 |})
      (firstn 10 GENES).

(** * Properties *)

(** ** Counting of the Markov model *)

Arguments mem_Z : simpl never.
Arguments boundary_clip : simpl never.

Ltac zeqb_cases :=
  repeat match goal with
         | |- context [?x =? ?y] => destruct (Z.eqb_spec x y); subst
         end;
  cbn [andb orb negb fst snd]; try lia.

Lemma count_fold_enum (N : nat) (a b : Z) :
  forall (l : list Run) (k : nat) (T : Mat) (prev : option Z),
    let items := combine (seq k (List.length l)) l in
    let rs := map snd
                (filter (fun it : nat * Run =>
                           negb (boundary_clip N (fst it) (fst (snd it)))
                           && mem_Z (fst (snd it)) CIGAR_OPS_INT) items) in
    fst (fold_left (count_run N) items (T, prev)) a b
    = T a b + (if a =? b then self_count a rs else 0) + pair_count a b prev rs.
Proof.
  induction l as [| [OP L] l IH]; intros k T prev; simpl.
  - destruct (a =? b); unfold self_count; simpl; lia.
  - destruct (negb (boundary_clip N k OP)) eqn:Hb; simpl;
      [destruct (mem_Z OP CIGAR_OPS_INT) eqn:Hm; simpl |].
    + rewrite (IH (S k)). unfold self_count, mat_add, Zsum.
      cbn [map fold_right pair_count fst snd].
      destruct prev as [p |]; zeqb_cases.
    + apply (IH (S k)).
    + apply (IH (S k)).
Qed.

Lemma count_cigar_spec (T : Mat) (cigar : Cigar) (a b : Z) :
  count_cigar T cigar a b
  = T a b + (if a =? b then self_count a (retained_runs cigar) else 0)
    + pair_count a b None (retained_runs cigar).
Proof.
  unfold count_cigar, retained_runs, enumerate.
  apply (count_fold_enum (List.length cigar) a b cigar 0%nat T None).
Qed.

Lemma count_cigars_from (cigars : list Cigar) :
  forall (T : Mat) (a b : Z),
    fold_left count_cigar cigars T a b = T a b + spec_count cigars a b.
Proof.
  induction cigars as [| c cs IH]; intros T a b; unfold spec_count; simpl.
  - lia.
  - rewrite IH, count_cigar_spec. unfold spec_count. lia.
Qed.

Lemma count_cigars_spec (cigars : list Cigar) (a b : Z) :
  count_cigars cigars a b = spec_count cigars a b.
Proof. unfold count_cigars. rewrite count_cigars_from. reflexivity. Qed.

Lemma retained_runs_incl (cigar : Cigar) (r : Run) :
  In r (retained_runs cigar) -> In r cigar.
Proof.
  unfold retained_runs, enumerate. intros H.
  apply in_map_iff in H. destruct H as [[i r'] [<- H]].
  apply filter_In in H. destruct H as [H _].
  apply in_combine_r in H. exact H.
Qed.

Lemma self_count_nonneg (a : Z) (rs : list Run) :
  Forall (fun r : Run => 1 <= snd r) rs -> 0 <= self_count a rs.
Proof.
  unfold self_count. induction 1 as [| r rs Hr _ IH]; simpl; [lia |].
  destruct (fst r =? a); lia.
Qed.

Lemma pair_count_nonneg (a b : Z) (rs : list Run) :
  forall prev, 0 <= pair_count a b prev rs.
Proof.
  induction rs as [| [op L] rs IH]; intros prev; simpl; [lia |].
  specialize (IH (Some op)).
  destruct prev as [p |]; [destruct ((p =? a) && (op =? b)) |]; lia.
Qed.

Lemma spec_count_nonneg (cigars : list Cigar) (a b : Z) :
  Forall (Forall (fun r : Run => 1 <= snd r)) cigars ->
  0 <= spec_count cigars a b.
Proof.
  unfold spec_count. induction 1 as [| c cs Hc _ IH]; simpl; [lia |].
  assert (Hs : 0 <= self_count a (retained_runs c)).
  { apply self_count_nonneg. rewrite Forall_forall in *.
    intros r Hr. apply Hc, retained_runs_incl, Hr. }
  pose proof (pair_count_nonneg a b (retained_runs c) None).
  destruct (a =? b); lia.
Qed.

Lemma Qsum_scaled (s : Z) (l : list Z) :
  (Qsum (map (fun x => inject_Z x / inject_Z s) l)
   == inject_Z (Zsum l) / inject_Z s)%Q.
Proof.
  induction l as [| x l IH]; simpl.
  - unfold Qdiv. rewrite Qmult_0_l. reflexivity.
  - rewrite IH, inject_Z_plus. unfold Qdiv. ring.
Qed.






(** ** The Markov scorer *)

Section MarkovScorer.

Local Open Scope R_scope.

Variable T : Z -> Z -> R.

Lemma scored_ops_have_fixed_cost (OP : Z) :
  mem_Z OP SCORED_OPS = true ->
  exists c, dict_get FIXED_COSTS OP = Some c /\ 0 < c.
Proof.
  unfold mem_Z, SCORED_OPS. cbn [existsb]. intros H.
  repeat (apply orb_prop in H; destruct H as [H | H];
          [apply Z.eqb_eq in H; subst OP; eexists; split;
           [reflexivity | lra] |]).
  discriminate.
Qed.

(** A Match run leaves the loop state alone, wherever it stands. *)
Lemma score_run_match (N i : nat) (L : Z) (st : option Z * R) :
  score_run T N st (i, (0%Z, L)) = st.
Proof.
  destruct st as [prev log_P]. unfold score_run.
  replace (mem_Z 0 SCORED_OPS) with false by reflexivity.
  destruct (negb (boundary_clip N i 0)); reflexivity.
Qed.

Lemma self_term_code (r : Run) :
  0 <= T (fst r) (fst r) ->
  (if Req_dec_T (T (fst r) (fst r)) 0
   then (IZR (snd r) - 1) * ln (fixed_cost (fst r))
   else (IZR (snd r) - 1) * ln (T (fst r) (fst r)))
  = self_term T r.
Proof.
  intros Hnn. unfold self_term.
  destruct (Req_dec_T (T (fst r) (fst r)) 0) as [Hz | Hz];
    destruct (Rlt_dec 0 (T (fst r) (fst r))) as [Hp | Hp];
    try reflexivity; lra.
Qed.

Lemma score_fold_enum (N : nat) (Hnn : forall a, 0 <= T a a) :
  forall (l : list Run) (k : nat) (prev : option Z) (acc : R),
    let items := combine (seq k (List.length l)) l in
    snd (fold_left (score_run T N) items (prev, acc))
    = acc + spec_markov T prev
              (map snd
                 (filter (fun it : nat * Run =>
                            negb (boundary_clip N (fst it) (fst (snd it)))
                            && mem_Z (fst (snd it)) SCORED_OPS) items)).
Proof.
  induction l as [| [OP L] l IH]; intros k prev acc;
    cbn [List.length seq combine fold_left filter fst snd].
  - simpl. ring.
  - unfold score_run at 2.
    destruct (negb (boundary_clip N k OP)) eqn:Hb;
      [destruct (mem_Z OP SCORED_OPS) eqn:Hm |];
      cbn [andb map snd spec_markov]; try apply (IH (S k)).
    rewrite (IH (S k)). cbn [fst snd].
    pose proof (self_term_code (OP, L) (Hnn OP)) as Hs.
    cbn [fst snd] in Hs. unfold pair_term. cbn [fst].
    destruct (Req_dec_T (T OP OP) 0);
      destruct prev as [p |]; try destruct (Req_dec_T (T p OP) 0);
      rewrite <- Hs; ring.
Qed.

End MarkovScorer.

(** C7.  For a model with non-negative entries, [score_cigar_markov]
    is the sum, over the scored runs, of the self-transition term
    ([(L-1) * log T[op,op]] when [T[op,op] > 0], otherwise
    [(L-1) * log] of the fixed default of [op]) and of the pairwise
    term ([log T[prev,op]] only with a previous scored operation and a
    non-zero learned value, nothing otherwise). *)
Theorem score_cigar_markov_spec (T : Z -> Z -> R) (cigar : Cigar)
  (Hnn : forall a b, (0 <= T a b)%R) :
  score_cigar_markov cigar T = spec_markov T None (scored_runs cigar).
Proof.
  unfold score_cigar_markov, score_loop, scored_runs, enumerate.
  rewrite (score_fold_enum T (List.length cigar) (fun a => Hnn a a)).
  apply Rplus_0_l.
Qed.

Lemma score_fold_match (T : Z -> Z -> R) (N : nat) :
  forall (l : list Run) (k : nat) (st : option Z * R),
    Forall (fun r : Run => fst r = 0) l ->
    fold_left (score_run T N) (combine (seq k (List.length l)) l) st = st.
Proof.
  induction l as [| [OP L] l IH]; intros k st Hall; [reflexivity |].
  inversion Hall as [| ? ? Hop Hrest]; subst. cbn [fst] in Hop. subst OP.
  cbn [List.length seq combine fold_left].
  rewrite score_run_match. apply IH, Hrest.
Qed.

(** C10.  A Match run leaves both [prev_OP] and [log_P] as they are,
    at every position and in every state; hence on a sequence of Match
    runs only, for every model, the loop ends in its initial state and
    [score_cigar_markov] returns exactly 0. *)
Theorem score_cigar_markov_match_only (T : Z -> Z -> R) (cigar : Cigar)
  (Hall : Forall (fun r : Run => fst r = 0) cigar) :
  (forall N i L st, score_run T N st (i, (0, L)) = st) /\
  score_loop cigar T = (None, 0%R) /\
  score_cigar_markov cigar T = 0%R.
Proof.
  assert (Hloop : score_loop cigar T = (None, 0%R)).
  { unfold score_loop, enumerate. apply score_fold_match, Hall. }
  split; [| split].
  - intros N i L st. apply score_run_match.
  - exact Hloop.
  - unfold score_cigar_markov. rewrite Hloop. reflexivity.
Qed.

(** ** The per-operation cost models *)

Lemma Zsum_cons (x : Z) (l : list Z) : Zsum (x :: l) = x + Zsum l.
Proof. reflexivity. Qed.

Lemma Qplus_inject_Z (a b : Z) : (inject_Z a + inject_Z b)%Q = inject_Z (a + b).
Proof. unfold Qplus, inject_Z. simpl. f_equal. ring. Qed.

Lemma dict_update_keyed (g : Z -> Z) (OP L : Z) :
  forall keys : list Z,
    NoDup keys ->
    dict_update (map (fun k => (k, inject_Z (g k))) keys) OP
      (fun c => (c + inject_Z L)%Q)
    = map (fun k => (k, inject_Z (if k =? OP then g k + L else g k))) keys.
Proof.
  induction keys as [| k keys IH]; intros Hnd; [reflexivity |].
  inversion Hnd as [| ? ? Hk Hnd']; subst. cbn [map dict_update].
  rewrite (Z.eqb_sym OP k). destruct (Z.eqb_spec k OP) as [-> | Hne].
  - rewrite Qplus_inject_Z. f_equal.
    apply map_ext_in. intros k' Hk'.
    destruct (Z.eqb_spec k' OP) as [-> | _]; [contradiction | reflexivity].
  - f_equal. apply IH, Hnd'.
Qed.

Lemma edit_fold_runs (keys : list Z) (Hnd : NoDup keys) :
  forall (c : Cigar) (g : Z -> Z) (total : Z),
    fold_left edit_run c (map (fun k => (k, inject_Z (g k))) keys, total)
    = (map (fun k => (k, inject_Z (g k + Zsum (map (run_cost k) c)))) keys,
       total + Zsum (map (fun r : Run =>
                            if mem_Z (fst r) ops_w_cost then snd r else 0) c)).
Proof.
  induction c as [| [OP L] c IH]; intros g total; cbn [fold_left].
  - cbn. f_equal; [| lia]. apply map_ext. intros k. do 2 f_equal. lia.
  - unfold edit_run at 2.
    destruct (mem_Z OP ops_w_cost) eqn:Hm.
    + rewrite (dict_update_keyed g OP L keys Hnd), IH.
      unfold Zsum. cbn [map fold_right fst snd]. rewrite Hm.
      f_equal; [| lia].
      apply map_ext. intros k. do 2 f_equal.
      unfold run_cost at 2. cbn [fst snd]. rewrite Hm. cbn [andb].
      destruct (k =? OP); lia.
    + rewrite IH. unfold Zsum. cbn [map fold_right fst snd]. rewrite Hm.
      f_equal. apply map_ext. intros k. do 2 f_equal.
      unfold run_cost at 2. cbn [fst snd]. rewrite Hm. cbn [andb]. lia.
Qed.

Lemma edit_fold_cigars (keys : list Z) (Hnd : NoDup keys) :
  forall (cigars : list Cigar) (g : Z -> Z) (total : Z),
    fold_left (fun st cigar => fold_left edit_run cigar st) cigars
      (map (fun k => (k, inject_Z (g k))) keys, total)
    = (map (fun k => (k, inject_Z
                           (g k + Zsum (map (fun c => Zsum (map (run_cost k) c))
                                            cigars)))) keys,
       total + Zsum (map (fun c => Zsum (map (fun r : Run =>
                            if mem_Z (fst r) ops_w_cost then snd r else 0) c))
                         cigars)).
Proof.
  induction cigars as [| c cigars IH]; intros g total; cbn [fold_left map].
  - cbn. f_equal; [| lia]. apply map_ext. intros k. do 2 f_equal. lia.
  - rewrite (edit_fold_runs keys Hnd), IH, !Zsum_cons. f_equal; [| lia].
    apply map_ext. intros k. rewrite Zsum_cons. do 2 f_equal. lia.
Qed.

Lemma run_cost_costed (k : Z) (cigars : list Cigar) :
  mem_Z k ops_w_cost = true ->
  Zsum (map (fun c => Zsum (map (run_cost k) c)) cigars) = op_total k cigars.
Proof.
  intros Hk. unfold op_total. f_equal. apply map_ext. intros c.
  f_equal. apply map_ext. intros [OP L]. unfold run_cost. cbn [fst snd].
  rewrite (Z.eqb_sym k OP).
  destruct (Z.eqb_spec OP k) as [-> | _];
    [rewrite Hk | rewrite andb_false_r]; reflexivity.
Qed.

Lemma Zsum_map_add {A : Type} (f g : A -> Z) (l : list A) :
  Zsum (map (fun x => f x + g x) l) = Zsum (map f l) + Zsum (map g l).
Proof. induction l as [| x l IH]; simpl; lia. Qed.

Lemma costed_total_runs (cigars : list Cigar) :
  Zsum (map (fun c => Zsum (map (fun r : Run =>
                 if mem_Z (fst r) ops_w_cost then snd r else 0) c)) cigars)
  = costed_total cigars.
Proof.
  unfold costed_total, op_total, ops_w_cost. cbn [map Zsum fold_right].
  fold Zsum. rewrite Z.add_0_r.
  rewrite <- !Zsum_map_add. f_equal. apply map_ext. intros c.
  rewrite <- !Zsum_map_add. f_equal. apply map_ext. intros [OP L].
  unfold mem_Z. cbn [existsb fst snd].
  repeat match goal with
         | |- context [?x =? ?y] => destruct (Z.eqb_spec x y); subst
         end; cbn [orb]; try lia; discriminate.
Qed.

Lemma edit_accumulate_spec (cigars : list Cigar) :
  edit_accumulate cigars
  = (map (fun k => (k, inject_Z (Zsum (map (fun c => Zsum (map (run_cost k) c))
                                           cigars))))
         (map fst op_costs_init),
     costed_total cigars).
Proof.
  unfold edit_accumulate.
  change op_costs_init
    with (map (fun k => (k, inject_Z ((fun _ => 0) k))) (map fst op_costs_init)).
  rewrite edit_fold_cigars.
  - rewrite costed_total_runs. reflexivity.
  - cbn. repeat constructor; cbn; intuition discriminate.
Qed.

Lemma build_edit_cost_spec (cigars : list Cigar) :
  build_edit_cost false cigars
  = if costed_total cigars =? 0 then Raise ZeroDivisionError
    else Ok (Some (spec_op_costs cigars)).
Proof.
  unfold build_edit_cost. rewrite edit_accumulate_spec.
  destruct (costed_total cigars =? 0); [reflexivity |].
  do 2 f_equal. unfold spec_op_costs. rewrite map_map.
  apply map_ext. intros k. cbn [fst snd].
  destruct (mem_Z k ops_w_cost) eqn:Hk; [| reflexivity].
  rewrite (run_cost_costed k cigars Hk). reflexivity.
Qed.

(** C8 (amended).  Without [--minimap2-AS]: in the [edit] mode without
    gene partitioning the model is learned from the corpus, each costed
    kind (1, 2, 8, 4, 5) getting its total run length divided by the
    grand total of costed lengths and the kinds 0 and 7 getting 1 (a
    zero grand total raises ZeroDivisionError); in the fixed-cost mode
    (neither [markov] nor [edit]) the model is the constant table. *)
Theorem build_alignment_model_costs (args : Args) (sam : list Alignment)
  (Hraw : minimap2_AS args = false) :
  (opt_str_eq (aln_score args) "edit" = true ->
   aln_score_gene args = false ->
   build_alignment_model args sam
   = if costed_total (extract_cigars_all sam) =? 0
     then Raise ZeroDivisionError
     else Ok (EditCigar (Some (spec_op_costs (extract_cigars_all sam)))))
  /\ (opt_str_eq (aln_score args) "markov" = false ->
      opt_str_eq (aln_score args) "edit" = false ->
      build_alignment_model args sam = Ok (FixedCigar fixed_cigar_table)).
Proof.
  unfold build_alignment_model. rewrite Hraw. split.
  - intros Hedit Hgene.
    assert (Hm : opt_str_eq (aln_score args) "markov" = false).
    { destruct (aln_score args) as [s |]; [| reflexivity].
      cbn in Hedit. apply String.eqb_eq in Hedit. subst s. reflexivity. }
    rewrite Hm, Hedit, Hgene, build_edit_cost_spec.
    destruct (costed_total (extract_cigars_all sam) =? 0); reflexivity.
  - intros Hm He. rewrite Hm, He. reflexivity.
Qed.

(** ** The record loop of the likelihood table *)

Lemma P_rgs_row_score (args : Args) (aln : Alignment) (row : PRow) :
  P_rgs_row args aln = Ok (Some row) -> positive_score aln = true.
Proof.
  unfold P_rgs_row, positive_score.
  destruct (tag_AS aln) as [s |]; cbn [of_option bind]; [| discriminate].
  destruct (0 <? s); [reflexivity | discriminate].
Qed.

Lemma P_rgs_row_no_score (args : Args) (aln : Alignment) :
  P_rgs_row args aln = Ok None ->
  positive_score aln = false /\ tag_AS aln <> None.
Proof.
  unfold P_rgs_row, positive_score.
  destruct (tag_AS aln) as [s |]; cbn [of_option bind]; [| discriminate].
  destruct (0 <? s); [| intros _; split; [reflexivity | discriminate]].
  destruct (gid_name args).
  - destruct (minimap2_AS args); [| discriminate].
    destruct (minimap2_log_P s (get_aln_len aln)); discriminate.
  - destruct (of_option _ (py_int _)); cbn [bind]; [| discriminate].
    destruct (gene_of_reference (reference_name aln)); cbn [bind];
      [| discriminate].
    destruct (minimap2_AS args); cbn [bind]; [| discriminate].
    destruct (minimap2_log_P s (get_aln_len aln)); discriminate.
Qed.

(** C5 (amended).  The record loop of [build_P_rgs_df] returns rows
    exactly when every record carries a score and every record with a
    score above 0 yields a row, and then the rows are those of the
    records with a score above 0, one each, in order; a record with a
    score of 0 or less contributes none.  The secondary and
    supplementary flags are not read: rewriting them leaves the result
    unchanged. *)
Theorem P_rgs_data_rows (args : Args) (sam : list Alignment) :
  (forall rows,
      P_rgs_data args sam = Ok rows <->
      Forall (fun aln => tag_AS aln <> None) sam
      /\ Forall2 (fun aln row => P_rgs_row args aln = Ok (Some row))
           (filter positive_score sam) rows)
  /\ (forall flags : Alignment -> bool * bool,
         P_rgs_data args
           (map (fun aln =>
                   {| query_name := query_name aln;
                      reference_name := reference_name aln;
                      is_secondary := fst (flags aln);
                      is_supplementary := snd (flags aln);
                      tag_AS := tag_AS aln;
                      cigartuples := cigartuples aln |}) sam)
         = P_rgs_data args sam).
Proof.
  split.
  - induction sam as [| aln sam IH]; intros rows; cbn [P_rgs_data filter].
    + split.
      * intros H. injection H as <-. split; constructor.
      * intros [_ H]. inversion H. reflexivity.
    + destruct (P_rgs_row args aln) as [[row |] | e] eqn:Hrow; cbn [bind].
      * rewrite (P_rgs_row_score args aln row Hrow).
        assert (Has : tag_AS aln <> None).
        { pose proof (P_rgs_row_score args aln row Hrow) as Hp.
          unfold positive_score in Hp. destruct (tag_AS aln); discriminate. }
        destruct (P_rgs_data args sam) as [rows' | e] eqn:Hrest; cbn [bind].
        -- split.
           ++ intros H. injection H as <-.
              destruct (proj1 (IH rows') eq_refl) as [Ha Hf].
              split; constructor; assumption.
           ++ intros [Ha Hf]. inversion Hf as [| ? r ? rs Hr Hrs]; subst.
              inversion Ha as [| ? ? _ Ha']; subst.
              rewrite Hrow in Hr. injection Hr as <-.
              pose proof (proj2 (IH rs) (conj Ha' Hrs)) as H.
              injection H as ->. reflexivity.
        -- split; [discriminate |].
           intros [Ha Hf]. inversion Hf as [| ? r ? rs Hr Hrs]; subst.
           inversion Ha as [| ? ? _ Ha']; subst.
           pose proof (proj2 (IH rs) (conj Ha' Hrs)) as H. discriminate.
      * destruct (P_rgs_row_no_score args aln Hrow) as [Hp Has]. rewrite Hp.
        destruct (P_rgs_data args sam) as [rows' | e] eqn:Hrest; cbn [bind].
        -- split.
           ++ intros H. injection H as <-.
              destruct (proj1 (IH rows') eq_refl) as [Ha Hf].
              split; [constructor |]; assumption.
           ++ intros [Ha Hf]. inversion Ha as [| ? ? _ Ha']; subst.
              pose proof (proj2 (IH rows) (conj Ha' Hf)) as H.
              injection H as ->. reflexivity.
        -- split; [discriminate |].
           intros [Ha Hf]. inversion Ha as [| ? ? _ Ha']; subst.
           pose proof (proj2 (IH rows) (conj Ha' Hf)) as H. discriminate.
      * split; [discriminate |]. intros [Ha Hf].
        inversion Ha as [| ? ? Has Ha']; subst.
        destruct (positive_score aln) eqn:Hp.
        -- inversion Hf as [| ? r ? rs Hr Hrs]; subst. congruence.
        -- revert Hrow Hp. unfold P_rgs_row, positive_score.
           destruct (tag_AS aln) as [s |]; [| contradiction].
           cbn [of_option bind]. intros Hrow Hp. rewrite Hp in Hrow.
           discriminate.
  - intros flags. induction sam as [| aln sam IH]; [reflexivity |].
    cbn [map P_rgs_data]. rewrite IH. reflexivity.
Qed.

(** ** The plausibility filter *)

Lemma map_result_Forall2 {A B : Type} (f : A -> result B) :
  forall (l : list A) (ys : list B),
    map_result f l = Ok ys -> Forall2 (fun x y => f x = Ok y) l ys.
Proof.
  induction l as [| x l IH]; intros ys; cbn [map_result].
  - intros H. injection H as <-. constructor.
  - destruct (f x) as [y | e] eqn:Hx; cbn [bind]; [| discriminate].
    destruct (map_result f l) as [ys' | e]; cbn [bind]; [| discriminate].
    intros H. injection H as <-. constructor; [exact Hx | apply IH; reflexivity].
Qed.


Lemma loc_mask_In {V : Type} (d : Z -> result bool) (tid : Z) :
  forall (F : list (Z * V)) (mask : list bool),
    Forall2 (fun k b => d k = Ok b) (map fst F) mask ->
    (In tid (map fst (loc_mask F mask))
     <-> In tid (map fst F) /\ d tid = Ok true).
Proof.
  unfold loc_mask.
  induction F as [| [k v] F IH]; intros mask H; inversion H as [| ? b ? m Hk Hm];
    subst; cbn [combine filter map fst snd].
  - split; [intros [] | intros [[] _]].
  - specialize (IH m Hm). destruct b; cbn [map fst In].
    + rewrite IH. split.
      * intros [<- | [Hin Hd]]; [split; [left; reflexivity | exact Hk] |].
        split; [right; exact Hin | exact Hd].
      * intros [[<- | Hin] Hd]; [left; reflexivity | right; split; assumption].
    + rewrite IH. split.
      * intros [Hin Hd]. split; [right; exact Hin | exact Hd].
      * intros [[<- | Hin] Hd]; [congruence | split; assumption].
Qed.


Lemma count_distinct_nonneg (l : list string) : 0 <= count_distinct l.
Proof. unfold count_distinct. lia. Qed.

Lemma Qlt_bool_iff (x y : Q) : Qlt_bool x y = true <-> (x < y)%Q.
Proof.
  unfold Qlt_bool. rewrite negb_true_iff. split.
  - intros H. apply Qnot_le_lt. intros Hle.
    apply Qle_bool_iff in Hle. congruence.
  - intros H. destruct (Qle_bool y x) eqn:Hb; [| reflexivity].
    apply Qle_bool_iff in Hb. exfalso. exact (Qlt_not_le _ _ H Hb).
Qed.

Lemma filter_passes_rule (rows : list LRow) (gene_stats : list GeneStat)
  (tid : Z) (b : bool) :
  filter_passes rows gene_stats tid = Ok b ->
  (b = true <-> spec_retain rows gene_stats tid).
Proof.
  unfold filter_passes, spec_retain, get_expected_gene_hits.
  pose proof (count_distinct_nonneg (map Read_ID (tid_df rows tid))) as Hn.
  fold (N_reads rows tid) in Hn.
  destruct (Z.ltb_spec 10 (N_reads rows tid)) as [Hbig | Hsmall].
  - destruct (N_genes gene_stats tid =? 0); cbn [bind]; [discriminate |].
    intros H. injection H as <-. fold (spec_E (N_genes gene_stats tid) (N_reads rows tid)).
    fold (spec_V (N_genes gene_stats tid) (N_reads rows tid)).
    rewrite andb_true_iff, orb_true_iff, Qlt_bool_iff, Qle_bool_iff, Z.ltb_lt.
    split.
    + intros H. split; [intros _; exact H | lia].
    + intros [H _]. apply H, Hbig.
  - destruct (Z.eqb_spec (N_reads rows tid) 0) as [Hz | Hz];
      intros H; injection H as <-.
    + split; [discriminate | intros [_ H]; lia].
    + split; [| reflexivity]. intros _. split; lia.
Qed.



(** C4 (amended).  A taxon of [F] whose supporting reads all map to one
    marker gene is kept by the filter when it has between 1 and 10
    supporting reads (so with exactly 5), and is removed when it has
    more than 10. *)
Theorem filter_single_gene_taxon {V : Type} (rows : list LRow)
  (gene_stats : list GeneStat) (F F' : list (Z * V)) (tid : Z)
  (Hrun : plausibility_filter rows gene_stats F = Ok F')
  (Hin : In tid (map fst F))
  (Hone : N_genes_hit rows tid = 1) :
  (1 <= N_reads rows tid <= 10 -> In tid (map fst F'))
  /\ (10 < N_reads rows tid -> ~ In tid (map fst F')).
Proof.
  revert Hrun. unfold plausibility_filter.
  destruct (map_result (filter_passes rows gene_stats) (map fst F))
    as [mask | e] eqn:Hmask; cbn [bind]; [| discriminate].
  intros H. injection H as <-.
  rewrite (loc_mask_In (filter_passes rows gene_stats) tid F mask
             (map_result_Forall2 _ _ _ Hmask)).
  split.
  - intros Hn. split; [exact Hin |]. unfold filter_passes.
    destruct (Z.ltb_spec 10 (N_reads rows tid)); [lia |].
    destruct (Z.eqb_spec (N_reads rows tid) 0); [lia | reflexivity].
  - intros Hn [_ Hd]. apply filter_passes_rule in Hd.
    destruct (proj1 Hd eq_refl) as [Hbig _].
    destruct (Hbig Hn) as [_ Hhit]. lia.
Qed.

(** ** Sums over groups *)

Lemma Rsum_cons (x : R) (l : list R) : Rsum (x :: l) = (x + Rsum l)%R.
Proof. reflexivity. Qed.

Section GroupBy.

Local Open Scope R_scope.

Context {A X : Type} (eqb : A -> A -> bool).
Hypothesis eqb_eq : forall a b, eqb a b = true <-> a = b.

Lemma existsb_eqb_In (a : A) (l : list A) :
  existsb (eqb a) l = true <-> In a l.
Proof.
  rewrite existsb_exists. split.
  - intros [b [Hb Hab]]. apply eqb_eq in Hab. subst. exact Hb.
  - intros H. exists a. split; [exact H | apply eqb_eq; reflexivity].
Qed.

Lemma distinct_In (a : A) (l : list A) : In a (distinct eqb l) <-> In a l.
Proof.
  induction l as [| x l IH]; [reflexivity |]. cbn [distinct].
  destruct (existsb (eqb x) l) eqn:Hx.
  - rewrite IH. apply existsb_eqb_In in Hx. split; [right; assumption |].
    intros [<- | H]; assumption.
  - cbn [In]. rewrite IH. reflexivity.
Qed.

Lemma distinct_NoDup (l : list A) : NoDup (distinct eqb l).
Proof.
  induction l as [| x l IH]; [constructor |]. cbn [distinct].
  destruct (existsb (eqb x) l) eqn:Hx; [exact IH |].
  constructor; [| exact IH]. rewrite distinct_In. intros Hin.
  apply existsb_eqb_In in Hin. congruence.
Qed.

Variable key : X -> A.
Variable f : X -> R.

(** Members of [l] whose key is [k]: one group of the group-by. *)
Let group (k : A) (l : list X) : list X :=
  filter (fun x => eqb (key x) k) l.

Lemma Rsum_groups_upto (l : list X) :
  forall ks : list A,
    NoDup ks ->
    Rsum (map (fun k => Rsum (map f (group k l))) ks)
    = Rsum (map f (filter (fun x => existsb (eqb (key x)) ks) l)).
Proof.
  induction ks as [| k ks IH]; intros Hnd; cbn [map existsb].
  - induction l as [| x l IHl]; [reflexivity | exact IHl].
  - inversion Hnd as [| ? ? Hk Hnd']; subst. rewrite Rsum_cons, (IH Hnd').
    unfold group. clear IH. induction l as [| x l IHl]; cbn [filter map].
    + cbn. ring.
    + destruct (eqb (key x) k) eqn:Hxk; cbn [orb].
      * assert (Hno : existsb (eqb (key x)) ks = false).
        { destruct (existsb (eqb (key x)) ks) eqn:He; [| reflexivity].
          apply existsb_eqb_In in He. apply eqb_eq in Hxk. subst k.
          contradiction. }
        rewrite Hno. cbn [map]. rewrite !Rsum_cons, <- IHl. ring.
      * destruct (existsb (eqb (key x)) ks); cbn [map];
          rewrite ?Rsum_cons, <- IHl; ring.
Qed.

(** Summing group by group is summing the whole list. *)
Lemma Rsum_by_group (l : list X) :
  Rsum (map (fun k => Rsum (map f (group k l))) (distinct eqb (map key l)))
  = Rsum (map f l).
Proof.
  rewrite Rsum_groups_upto by apply distinct_NoDup.
  f_equal. f_equal. apply forallb_filter_id. apply forallb_forall.
  intros x Hx. apply existsb_eqb_In, distinct_In, in_map, Hx.
Qed.

Lemma group_nonempty (l : list X) (k : A) :
  In k (distinct eqb (map key l)) -> group k l <> [].
Proof.
  intros Hk. apply distinct_In, in_map_iff in Hk.
  destruct Hk as [x [Hx Hin]]. intros He.
  assert (Hg : In x (group k l)).
  { apply filter_In. split; [exact Hin | apply eqb_eq, Hx]. }
  rewrite He in Hg. exact Hg.
Qed.

End GroupBy.

(** ** logSumExp *)

Section LogSumExp.

Local Open Scope R_scope.

Lemma Rsum_scale {X : Type} (c : R) (g : X -> R) (l : list X) :
  Rsum (map (fun x => c * g x) l) = c * Rsum (map g l).
Proof.
  induction l as [| x l IH]; cbn [map]; [cbn; ring |].
  rewrite !Rsum_cons, IH. ring.
Qed.

Lemma Rsum_const {X : Type} (l : list X) :
  Rsum (map (fun _ => 1) l) = INR (List.length l).
Proof.
  induction l as [| x l IH]; [reflexivity |].
  cbn [map List.length]. rewrite Rsum_cons, IH, S_INR. ring.
Qed.

Lemma Rsum_exp_pos {X : Type} (g : X -> R) (l : list X) :
  l <> [] -> 0 < Rsum (map (fun x => exp (g x)) l).
Proof.
  destruct l as [| x l]; [congruence | intros _].
  cbn [map]. rewrite Rsum_cons.
  assert (H : 0 <= Rsum (map (fun x => exp (g x)) l)).
  { induction l as [| y l IH]; [cbn; lra |].
    cbn [map]. rewrite Rsum_cons. pose proof (exp_pos (g y)). lra. }
  pose proof (exp_pos (g x)). lra.
Qed.

(** The shift by the maximum cancels: [logSumExp] is the logarithm
    of the sum of the exponentials. *)
Lemma logSumExp_ln (ns : list R) :
  ns <> [] -> logSumExp ns = ln (Rsum (map exp ns)).
Proof.
  intros Hne. unfold logSumExp. set (m := np_max ns).
  assert (Hs : Rsum (map (fun n => exp (n - m)) ns)
               = exp (- m) * Rsum (map exp ns)).
  { rewrite <- Rsum_scale. f_equal. apply map_ext. intros n.
    rewrite <- exp_plus. f_equal. ring. }
  rewrite Hs, ln_mult, ln_exp; [ring | apply exp_pos |].
  apply (Rsum_exp_pos (fun n => n) ns Hne).
Qed.

Lemma exp_logSumExp (ns : list R) :
  ns <> [] -> exp (logSumExp ns) = Rsum (map exp ns).
Proof.
  intros Hne. rewrite logSumExp_ln by exact Hne.
  apply exp_ln, (Rsum_exp_pos (fun n => n) ns Hne).
Qed.

End LogSumExp.

(** ** One EM step *)

Section EMStep.

Local Open Scope R_scope.

Lemma filter_map_comm {X Y : Type} (p : Y -> bool) (g : X -> Y) (l : list X) :
  filter p (map g l) = map g (filter (fun x => p (g x)) l).
Proof.
  induction l as [| x l IH]; [reflexivity |]. cbn [map filter].
  destruct (p (g x)); cbn [map]; rewrite IH; reflexivity.
Qed.

Lemma str_get_keyed (g : string -> R) (k : string) :
  forall keys : list string,
    In k keys -> str_get (map (fun k' => (k', g k')) keys) k = Some (g k).
Proof.
  induction keys as [| k' keys IH]; intros Hin; [destruct Hin |].
  cbn [map str_get]. destruct (String.eqb_spec k k') as [-> | Hne];
    [reflexivity |].
  destruct Hin as [-> | Hin]; [contradiction | apply IH, Hin].
Qed.

(** The merged table of the step and the normalizing constant of a
    read in it. *)
Variable m : list (LRow * R).

Let read (x : LRow * R) : string := Read_ID (fst x).
Let target (x : LRow * R) : Z := Target_ID (fst x).
Let norm (rd : string) : R :=
  logSumExp (map joint (filter (fun y => String.eqb (read y) rd) m)).
Let P : list TRow := posterior_rows m (group_sums m).
Let n_reads : nat := List.length (group_sums m).

Lemma group_sums_get (x : LRow * R) :
  In x m -> str_get (group_sums m) (read x) = Some (norm (read x)).
Proof.
  intros Hx. unfold group_sums.
  apply (str_get_keyed norm (read x)).
  apply (distinct_In String.eqb String.eqb_eq).
  apply (in_map read), Hx.
Qed.

Lemma posterior_rows_eq :
  P = map (fun x => {| t_Read_ID := read x;
                       t_Target_ID := target x;
                       t_joint := joint x;
                       t_joint_sum := norm (read x);
                       t_post := joint x - norm (read x) |}) m.
Proof.
  unfold P, posterior_rows. apply map_ext_in. intros x Hx.
  fold (read x). rewrite (group_sums_get x Hx). reflexivity.
Qed.

Lemma n_reads_eq : n_reads = List.length (distinct String.eqb (map read m)).
Proof. unfold n_reads, group_sums. apply length_map. Qed.

Lemma exp_norm (rd : string) :
  In rd (distinct String.eqb (map read m)) ->
  exp (norm rd)
  = Rsum (map (fun y => exp (joint y))
              (filter (fun y => String.eqb (read y) rd) m)).
Proof.
  intros Hrd. unfold norm. rewrite exp_logSumExp, map_map; [reflexivity |].
  intros He. apply map_eq_nil in He.
  exact (group_nonempty String.eqb String.eqb_eq read m rd Hrd He).
Qed.

(** The posteriors of one read sum to 1. *)
Lemma posteriors_of_read (rd : string) :
  In rd (distinct String.eqb (map read m)) ->
  Rsum (map (fun x => exp (joint x - norm (read x)))
            (filter (fun x => String.eqb (read x) rd) m)) = 1.
Proof.
  intros Hrd.
  rewrite (map_ext_in _ (fun x => exp (- norm rd) * exp (joint x))).
  - rewrite Rsum_scale, <- (exp_norm rd Hrd), <- exp_plus.
    replace (- norm rd + norm rd) with 0 by ring. apply exp_0.
  - intros x Hx. apply filter_In in Hx. destruct Hx as [_ Hx].
    apply String.eqb_eq in Hx. rewrite Hx, <- exp_plus. f_equal. ring.
Qed.

(** All posteriors together sum to the number of reads. *)
Lemma posteriors_total :
  Rsum (map (fun x => exp (t_post x)) P) = INR n_reads.
Proof.
  rewrite posterior_rows_eq, map_map. cbn [t_post].
  rewrite <- (Rsum_by_group String.eqb String.eqb_eq read
                (fun x => exp (joint x - norm (read x))) m).
  rewrite (map_ext_in _ (fun _ => 1)).
  - rewrite Rsum_const, n_reads_eq. reflexivity.
  - intros rd Hrd. apply posteriors_of_read, Hrd.
Qed.

(** The mass the maximization gives a target of the merged table. *)
Lemma maximize_value (t : Z) :
  In t (distinct Z.eqb (map t_Target_ID P)) ->
  exp (logSumExp (map t_post (filter (fun x => (t_Target_ID x =? t)%Z) P))
       - ln (INR n_reads))
  = Rsum (map (fun x => exp (t_post x))
              (filter (fun x => (t_Target_ID x =? t)%Z) P)) / INR n_reads
    /\ 0 < Rsum (map (fun x => exp (t_post x))
                     (filter (fun x => (t_Target_ID x =? t)%Z) P))
    /\ 0 < INR n_reads.
Proof.
  intros Ht.
  assert (Hg : filter (fun x => (t_Target_ID x =? t)%Z) P <> []).
  { apply (group_nonempty Z.eqb Z.eqb_eq t_Target_ID P t Ht). }
  assert (Hn : 0 < INR n_reads).
  { apply lt_0_INR. rewrite n_reads_eq.
    destruct (filter (fun x => (t_Target_ID x =? t)%Z) P) as [| x l] eqn:Hf;
      [congruence |].
    assert (Hx : In x P).
    { assert (H : In x (x :: l)) by (left; reflexivity).
      rewrite <- Hf in H. apply filter_In in H. apply H. }
    rewrite posterior_rows_eq in Hx. apply in_map_iff in Hx.
    destruct Hx as [y [_ Hy]].
    assert (Hr : In (read y) (distinct String.eqb (map read m))).
    { apply (distinct_In String.eqb String.eqb_eq), (in_map read), Hy. }
    destruct (distinct String.eqb (map read m)); [destruct Hr | cbn; lia]. }
  assert (Hs : 0 < Rsum (map (fun x => exp (t_post x))
                             (filter (fun x => (t_Target_ID x =? t)%Z) P))).
  { apply (Rsum_exp_pos t_post), Hg. }
  split; [| split; assumption].
  unfold Rminus. rewrite exp_plus, exp_Ropp, exp_ln by exact Hn.
  rewrite exp_logSumExp, map_map; [reflexivity |].
  intros He. apply map_eq_nil in He. exact (Hg He).
Qed.

Lemma maximize_pos :
  Forall (fun e : Z * R => 0 < snd e) (maximize P n_reads).
Proof.
  apply Forall_forall. intros e He. unfold maximize in He.
  apply in_map_iff in He. destruct He as [t [<- Ht]]. cbn [snd].
  destruct (maximize_value t Ht) as [-> [Hs Hn]].
  apply Rdiv_lt_0_compat; assumption.
Qed.

(** The maximization output is a distribution when the merged table
    is not empty. *)
Lemma maximize_sum : m <> [] -> Rsum (map snd (maximize P n_reads)) = 1.
Proof.
  intros Hne. unfold maximize. rewrite map_map. cbn [snd].
  rewrite (map_ext_in _
             (fun t => / INR n_reads
                       * Rsum (map (fun x => exp (t_post x))
                                   (filter (fun x => (t_Target_ID x =? t)%Z) P)))).
  - rewrite Rsum_scale.
    rewrite (Rsum_by_group Z.eqb Z.eqb_eq t_Target_ID
               (fun x => exp (t_post x)) P).
    rewrite posteriors_total. apply Rinv_l.
    apply not_0_INR. rewrite n_reads_eq.
    destruct m as [| x m'] eqn:Hm; [congruence |].
    assert (Hr : In (read x) (distinct String.eqb (map read (x :: m')))).
    { apply (distinct_In String.eqb String.eqb_eq), (in_map read).
      left. reflexivity. }
    destruct (distinct String.eqb (map read (x :: m'))); [destruct Hr |].
    cbn. lia.
  - intros t Ht. destruct (maximize_value t Ht) as [-> _].
    unfold Rdiv. ring.
Qed.

End EMStep.

Lemma drop_zero_sum (F : FVec) :
  Rsum (map snd (drop_zero F)) = Rsum (map snd F).
Proof.
  induction F as [| [t v] F IH]; [reflexivity |].
  cbn [drop_zero filter map snd]. fold (drop_zero F).
  destruct (Req_dec_T v 0) as [-> | Hv]; cbn [map snd];
    rewrite ?Rsum_cons, IH; ring.
Qed.

Lemma drop_zero_nonzero (F : FVec) :
  Forall (fun e : Z * R => snd e <> 0%R) (drop_zero F).
Proof.
  apply Forall_forall. intros e He. apply filter_In in He.
  destruct He as [_ He]. destruct (Req_dec_T (snd e) 0); [discriminate | assumption].
Qed.

Lemma drop_zero_In (F : FVec) (e : Z * R) :
  In e (drop_zero F) <-> In e F /\ snd e <> 0%R.
Proof.
  unfold drop_zero. rewrite filter_In.
  destruct (Req_dec_T (snd e) 0); intuition congruence.
Qed.

Lemma drop_zero_pos (F : FVec) :
  Forall (fun e : Z * R => (0 < snd e)%R) F -> drop_zero F = F.
Proof.
  intros H. apply forallb_filter_id, forallb_forall. intros e He.
  rewrite Forall_forall in H. specialize (H e He).
  destruct (Req_dec_T (snd e) 0); [lra | reflexivity].
Qed.

Lemma merge_F_In (rows : list LRow) (F : FVec) (r : LRow) (v : R) :
  In (r, v) (merge_F rows F) <-> In r rows /\ In (Target_ID r, v) F.
Proof.
  unfold merge_F. rewrite in_flat_map. split.
  - intros [r' [Hr H]]. apply in_map_iff in H. destruct H as [[t w] [Heq H]].
    apply filter_In in H. destruct H as [H Ht]. cbn [fst snd] in *.
    injection Heq as -> ->. apply Z.eqb_eq in Ht. subst t. split; assumption.
  - intros [Hr H]. exists r. split; [exact Hr |].
    apply in_map_iff. exists (Target_ID r, v). split; [reflexivity |].
    apply filter_In. split; [exact H | apply Z.eqb_refl].
Qed.

Lemma EM_step_F_new (rows : list LRow) (F : FVec) :
  F_new (EM_step rows F)
  = maximize (P_tgr (EM_step rows F)) (List.length (P_tgr_sum (EM_step rows F))).
Proof. cbn [EM_step F_new P_tgr P_tgr_sum]. apply drop_zero_pos, maximize_pos. Qed.

Lemma EM_step_pos (rows : list LRow) (F : FVec) :
  Forall (fun e : Z * R => (0 < snd e)%R) (F_new (EM_step rows F)).
Proof. rewrite EM_step_F_new. apply maximize_pos. Qed.

Lemma EM_step_sum (rows : list LRow) (F : FVec) :
  merge_F rows F <> [] -> Rsum (map snd (F_new (EM_step rows F))) = 1%R.
Proof.
  intros Hne. cbn [EM_step F_new]. rewrite drop_zero_sum.
  apply maximize_sum, Hne.
Qed.

(** The support after a step still meets the table. *)
Lemma EM_step_support (rows : list LRow) (F : FVec) :
  merge_F rows F <> [] -> merge_F rows (F_new (EM_step rows F)) <> [].
Proof.
  intros Hne. destruct (merge_F rows F) as [| [r v] m'] eqn:Hm; [congruence |].
  assert (Hin : In (r, v) (merge_F rows F)) by (rewrite Hm; left; reflexivity).
  pose proof (proj1 (merge_F_In rows F r v) Hin) as [Hr _].
  assert (Ht : In (Target_ID r)
                  (distinct Z.eqb (map t_Target_ID (P_tgr (EM_step rows F))))).
  { apply (distinct_In Z.eqb Z.eqb_eq). cbn [EM_step P_tgr].
    unfold posterior_rows. rewrite map_map. cbn [t_Target_ID].
    apply (in_map (fun x : LRow * R => Target_ID (fst x)) _ (r, v)), Hin. }
  rewrite EM_step_F_new. unfold maximize.
  set (g := fun t : Z => (t, exp _)).
  assert (Hg : In (g (Target_ID r))
                  (map g (distinct Z.eqb
                            (map t_Target_ID (P_tgr (EM_step rows F))))))
    by (apply in_map, Ht).
  intros He.
  assert (Hx : In (r, snd (g (Target_ID r)))
                  (merge_F rows
                     (map g (distinct Z.eqb
                               (map t_Target_ID (P_tgr (EM_step rows F))))))).
  { apply merge_F_In. split; [exact Hr | exact Hg]. }
  rewrite He in Hx. exact Hx.
Qed.

Lemma F_iter_support (rows : list LRow) (F : FVec) :
  merge_F rows F <> [] -> forall k, merge_F rows (F_iter rows F k) <> [].
Proof.
  intros Hne. induction k as [| k IH]; [exact Hne |].
  cbn [F_iter]. apply EM_step_support, IH.
Qed.

Lemma merge_F_no_F (rows : list LRow) : merge_F rows [] = [].
Proof.
  unfold merge_F. induction rows as [| r rows IH]; [reflexivity | exact IH].
Qed.

Lemma EM_step_no_support (rows : list LRow) (F : FVec) :
  merge_F rows F = [] ->
  EM_step rows F = {| P_tgr := []; P_tgr_sum := []; F_new := [] |}.
Proof. intros H. unfold EM_step. rewrite H. reflexivity. Qed.

Lemma F_iter_no_support (rows : list LRow) (F : FVec) :
  merge_F rows F = [] -> forall k, (1 <= k)%nat -> F_iter rows F k = [].
Proof.
  intros H k Hk. induction k as [| k IH]; [lia |]. cbn [F_iter].
  destruct k as [| k].
  - cbn [F_iter]. rewrite (EM_step_no_support rows F H). reflexivity.
  - rewrite IH by lia.
    rewrite (EM_step_no_support rows [] (merge_F_no_F rows)). reflexivity.
Qed.

Lemma next_F_In (np_exp : R -> R) (P : list TRow) (n : nat) (e : Z * R) :
  In e (next_F np_exp P n)
  <-> In e (maximize_with np_exp P n) /\ snd e <> 0%R.
Proof. apply drop_zero_In. Qed.

(** C1 (amended).  For a positive [F]: when some row of the likelihood
    table has its target in [F], the [F] produced by [EM_step] sums to
    1, and so it does after every iteration; when no row has, the step
    produces the empty [F].  Each entry of the maximization output is
    [exp(logSumExp(posteriors of the target) - log(n_reads))], and the
    [F] kept for the next iteration consists of the entries of that
    output whose mass is not 0, whatever [np.exp] returns. *)
Theorem EM_step_distribution (rows : list LRow) (F : FVec)
  (Hpos : Forall (fun e : Z * R => (0 < snd e)%R) F) :
  let st := EM_step rows F in
  let n := List.length (P_tgr_sum st) in
  (merge_F rows F <> [] -> Rsum (map snd (F_new st)) = 1%R)
  /\ (merge_F rows F = [] -> F_new st = [])
  /\ F_new st = next_F exp (P_tgr st) n
  /\ (forall (np_exp : R -> R) (e : Z * R),
         In e (next_F np_exp (P_tgr st) n)
         <-> In e (maximize_with np_exp (P_tgr st) n) /\ snd e <> 0%R)
  /\ (forall e, In e (maximize (P_tgr st) n) ->
        snd e = exp (logSumExp
                       (map t_post
                            (filter (fun x => t_Target_ID x =? fst e) (P_tgr st)))
                     - ln (INR n)))
  /\ (forall k, (1 <= k)%nat ->
        (merge_F rows F <> [] -> Rsum (map snd (F_iter rows F k)) = 1%R)
        /\ (merge_F rows F = [] -> F_iter rows F k = [])).
Proof.
  intros st n. split; [| split; [| split; [| split; [| split]]]].
  - apply EM_step_sum.
  - intros H. unfold st. rewrite (EM_step_no_support rows F H). reflexivity.
  - reflexivity.
  - intros np_exp e. apply next_F_In.
  - intros e He. unfold maximize in He. apply in_map_iff in He.
    destruct He as [t [<- _]]. reflexivity.
  - intros k Hk. split.
    + intros Hsupp. destruct k as [| k]; [lia |]. cbn [F_iter].
      apply EM_step_sum, F_iter_support, Hsupp.
    + intros H. apply F_iter_no_support; assumption.
Qed.

(** ** The EM loop *)

Lemma xlt_first (new_lli : R) :
  xlt (lli_delta new_lli NegInf) lli_threshold = false.
Proof. reflexivity. Qed.

Lemma xlt_later (new_lli lli : R) :
  xlt (lli_delta new_lli (Fin lli)) lli_threshold = true
  <-> (new_lli - lli < lli_threshold)%R.
Proof.
  cbn [lli_delta xlt]. destruct (Rlt_dec (new_lli - lli) lli_threshold);
    split; intros H; try reflexivity; try assumption; try discriminate.
  contradiction.
Qed.

(** The loop from iteration [i >= 1] on, in terms of the iterates. *)
Lemma EM_loop_from (rows : list LRow) (thr : R) (F0 : FVec) :
  forall (fuel i : nat) (res : EMResult),
    (1 <= i)%nat ->
    EM_loop fuel rows thr (F_iter rows F0 (i - 1))
      (match i with
       | 1%nat => NegInf
       | _ => Fin (lli_iter rows F0 (i - 1))
       end) i = Some res
    <-> (i <= iterations res < i + fuel)%nat
        /\ converged_at rows F0 (iterations res)
        /\ (forall j, (i <= j < iterations res)%nat -> ~ converged_at rows F0 j)
        /\ F_last res = F_iter rows F0 (iterations res)
        /\ final_F res
           = F_new (EM_step rows
                      (filter (fun e : Z * R =>
                                 if Rle_dec thr (snd e) then true else false)
                              (F_last res))).
Proof.
  induction fuel as [| fuel IH]; intros i res Hi; cbn [EM_loop].
  - split; [discriminate | intros [H _]; lia].
  - fold (lli_iter rows F0 i).
    assert (Hiter : F_new (EM_step rows (F_iter rows F0 (i - 1)))
                    = F_iter rows F0 i).
    { destruct i as [| i]; [lia |]. cbn [F_iter].
      replace (S i - 1)%nat with i by lia. reflexivity. }
    assert (Htest :
              xlt (lli_delta (lli_iter rows F0 i)
                     (match i with
                      | 1%nat => NegInf
                      | _ => Fin (lli_iter rows F0 (i - 1))
                      end)) lli_threshold = true
              <-> converged_at rows F0 i).
    { unfold converged_at. destruct i as [| [| i]]; [lia | |].
      - rewrite xlt_first. split; [discriminate | intros [H _]; lia].
      - rewrite xlt_later. split; [intros H; split; [lia | exact H] | intros [_ H]; exact H]. }
    destruct (xlt _ lli_threshold) eqn:Hx.
    + rewrite Hiter. split.
      * intros H. injection H as <-. cbn [iterations F_last final_F].
        split; [lia |]. split; [apply Htest; reflexivity |].
        split; [intros j Hj; lia |]. split; reflexivity.
      * intros (Hk & Hc & Hmin & Hl & Hf).
        destruct (Nat.eq_dec (iterations res) i) as [He | Hne].
        -- destruct res as [k Fl Ff]. cbn [iterations F_last final_F] in *.
           subst. reflexivity.
        -- exfalso. apply (Hmin i); [lia |]. apply Htest. reflexivity.
    + rewrite Hiter.
      specialize (IH (S i) res ltac:(lia)).
      replace (S i - 1)%nat with i in IH by lia.
      assert (Hbase : match S i with
                      | 1%nat => NegInf
                      | _ => Fin (lli_iter rows F0 i)
                      end = Fin (lli_iter rows F0 i)).
      { destruct i; [lia | reflexivity]. }
      rewrite Hbase in IH. rewrite IH.
      assert (Hnot : ~ converged_at rows F0 i).
      { intros Hc. apply Htest in Hc. congruence. }
      split.
      * intros (Hk & Hc & Hmin & Hl & Hf). split; [lia |].
        split; [exact Hc |]. split; [| split; assumption].
        intros j Hj. destruct (Nat.eq_dec j i) as [-> | Hne];
          [exact Hnot | apply Hmin; lia].
      * intros (Hk & Hc & Hmin & Hl & Hf).
        assert (Hki : iterations res <> i).
        { intros He. rewrite He in Hc. exact (Hnot Hc). }
        split; [lia |]. split; [exact Hc |]. split; [| split; assumption].
        intros j Hj. apply Hmin. lia.
Qed.

(** ** The rank check in a run *)

Section Runs.

Variable w : World.

(** A piece that never ends the run with [exit(0)]. *)
Let sober (p : Prog) : Prop := forall tr, snd (p tr) <> Some (Exit 0).

(** A piece that always ends the run. *)
Let final (p : Prog) : Prop := forall tr, snd (p tr) <> None.

Lemma sober_stage (ev : event) : sober (stage w ev).
Proof.
  intros tr. unfold stage. cbn [snd].
  destruct (failure w ev); discriminate.
Qed.

Lemma sober_skip : sober skip.
Proof. intros tr. discriminate. Qed.

Lemma sober_andthen (p q : Prog) : sober p -> sober q -> sober (andthen p q).
Proof.
  intros Hp Hq tr. unfold andthen. specialize (Hp tr).
  destruct (p tr) as [tr' [o |]]; [exact Hp | apply Hq].
Qed.

Lemma sober_stages (ps : list Prog) : Forall sober ps -> sober (stages ps).
Proof.
  induction 1 as [| p ps Hp _ IH]; [exact sober_skip |].
  apply sober_andthen; assumption.
Qed.

Lemma sober_until_final (p : Prog) (after : list Prog) :
  sober p -> final p -> sober (stages (p :: after)).
Proof.
  intros Hp Hf tr. cbn [stages]. unfold andthen.
  specialize (Hp tr). specialize (Hf tr).
  destruct (p tr) as [tr' [o |]]; [exact Hp | contradiction].
Qed.

Lemma sober_prefix (before : list Prog) (p : Prog) (after : list Prog) :
  Forall sober before -> sober p -> final p ->
  sober (stages (before ++ p :: after)).
Proof.
  intros Hb Hp Hf. induction Hb as [| q qs Hq _ IH]; cbn [app].
  - apply sober_until_final; assumption.
  - cbn [stages]. apply sober_andthen; assumption.
Qed.

Lemma sober_run_minimap2 : sober (run_minimap2 w).
Proof.
  apply sober_andthen; [apply sober_stage |].
  destruct (Z.eqb_spec (minimap2_rc w) 0) as [Hz | Hz];
    [apply sober_skip |].
  intros tr H. cbn in H. congruence.
Qed.

Lemma sober_EM_iterations : sober (EM_iterations w).
Proof.
  unfold EM_iterations. destruct (em_extra_iterations w) as [k |].
  - apply sober_stages, Forall_forall. intros p Hp.
    apply in_map_iff in Hp. destruct Hp as [i [<- _]]. apply sober_stage.
  - intros tr. discriminate.
Qed.

Lemma collapse_rank_unknown (rank : string) :
  rank_known rank = false ->
  sober (collapse_rank w rank) /\ final (collapse_rank w rank).
Proof.
  intros Hbad. unfold collapse_rank. rewrite Hbad.
  split; intros tr; unfold andthen, stage, finish;
    destruct (failure w ReadReport); discriminate.
Qed.

Lemma sober_EM_complete_run (args : Args) : sober (EM_complete_run w args).
Proof.
  unfold EM_complete_run. apply sober_stages.
  repeat constructor; try apply sober_stage.
  - destruct (nof args); [apply sober_skip | apply sober_stage].
  - apply sober_EM_iterations.
  - unfold collapse_rank. apply sober_andthen; [apply sober_stage |].
    destruct (rank_known (rank args)); [apply sober_stage |].
    intros tr. discriminate.
Qed.

Hypothesis no_failure : forall ev, failure w ev = None.

Lemma stage_ok (ev : event) (tr : list event) :
  stage w ev tr = (tr ++ [ev], None).
Proof. unfold stage. rewrite no_failure. reflexivity. Qed.

Lemma EM_steps_ok (l : list nat) :
  forall tr,
    stages (map (fun i => stage w (EMStep i)) l) tr
    = (tr ++ map EMStep l, None).
Proof.
  induction l as [| i l IH]; intros tr; cbn [map stages].
  - unfold skip. rewrite app_nil_r. reflexivity.
  - unfold andthen. rewrite stage_ok, IH, <- app_assoc. reflexivity.
Qed.

End Runs.

(** C9 (amended).  With a rank outside [TAXONOMY_RANKS] (which the
    argument parser accepts) a run never ends with [exit(0)]; and when
    no stage fails and the loop converges, it ends with the ValueError
    of [collapse_rank], whose message lists the known ranks, raised
    only after the likelihood table was built, all EM iterations and
    the final step were made and the abundance report was written. *)
Theorem main_invalid_rank (given : string) (args : Args) (w : World)
  (Hgiven : rank args = parse_rank (Some given))
  (Hbad : rank_known given = false) :
  snd (main args w []) <> Some (Exit 0)
  /\ (forall k,
         (forall ev, failure w ev = None) ->
         minimap2_rc w = 0 ->
         em_extra_iterations w = Some k ->
         main args w []
         = ((match sam_input args with
             | Some (String _ _) => []
             | _ => [Minimap2]
             end)
            ++ [LoadTaxonomy; InitF; BuildAlignmentModel;
                BuildLikelihoodTable; EMStart]
            ++ (if nof args then [] else [PlausibilityFilter])
            ++ map EMStep (seq 1 (2 + k))
            ++ [FinalEMStep; WriteReport; ReadReport],
            Some (Uncaught rank_error))).
Proof.
  cbn [parse_rank] in Hgiven. rewrite <- Hgiven in Hbad. split.
  - unfold main.
    apply (sober_prefix
             [match sam_input args with
              | Some (String _ _) => skip
              | _ => run_minimap2 w
              end;
              stage w LoadTaxonomy; stage w InitF;
              stage w BuildAlignmentModel; stage w BuildLikelihoodTable]
             (EM_complete_run w args)).
    + repeat constructor; try apply sober_stage.
      destruct (sam_input args) as [[| c s] |];
        try apply sober_run_minimap2. intros tr. discriminate.
    + apply sober_EM_complete_run.
    + intros tr. unfold EM_complete_run.
      destruct (collapse_rank_unknown w (rank args) Hbad) as [_ Hfin].
      cbn [stages]. unfold andthen at 1.
      destruct (stage w EMStart tr) as [t1 [o |]]; [discriminate |].
      unfold andthen at 1.
      destruct ((if nof args then skip else stage w PlausibilityFilter) t1)
        as [t2 [o |]]; [discriminate |].
      unfold andthen at 1.
      destruct (EM_iterations w t2) as [t3 [o |]]; [discriminate |].
      unfold andthen at 1.
      destruct (stage w FinalEMStep t3) as [t4 [o |]]; [discriminate |].
      unfold andthen at 1.
      destruct (stage w WriteReport t4) as [t5 [o |]]; [discriminate |].
      unfold andthen at 1. specialize (Hfin t5).
      destruct (collapse_rank w (rank args) t5) as [t6 [o |]];
        [discriminate | contradiction].
  - intros k Hok Hrc Hk.
    unfold main, EM_complete_run, EM_iterations, collapse_rank, run_minimap2.
    rewrite Hk, Hbad, Hrc. cbn [stages Z.eqb].
    unfold andthen, skip, finish.
    destruct (sam_input args) as [[| c s] |]; destruct (nof args);
      rewrite ?(stage_ok w Hok), ?(EM_steps_ok w Hok);
      rewrite ?(stage_ok w Hok); cbn [app];
      rewrite <- ?app_assoc; reflexivity.
Qed.

(** ** The value tested by the loop *)

(** One step on [two_target_rows] from any positive [F] on the targets
    1 and 2. *)
Section OneRead.

Local Open Scope R_scope.

Variables a b : R.
Hypothesis Ha : 0 < a.
Hypothesis Hb : 0 < b.
Let s := a + 5 / 6 * b.
Let st := EM_step two_target_rows [(1%Z, a); (2%Z, b)].

Lemma one_read_norm_pos : 0 < s. Proof. unfold s. lra. Qed.

Lemma one_read_norm : logSumExp [joint (row_t1, a); joint (row_t2, b)] = ln s.
Proof.
  rewrite logSumExp_ln by discriminate. f_equal.
  cbn [map]. rewrite !Rsum_cons. unfold joint. cbn [fst snd log_P row_t1 row_t2].
  rewrite !exp_plus, !exp_ln, exp_0 by lra. unfold s. cbn. ring.
Qed.

Lemma one_read_sums : P_tgr_sum st = [("r1"%string, ln s)].
Proof. unfold st. rewrite <- one_read_norm. reflexivity. Qed.

Lemma one_read_loglik : compute_loglikelihood st = 2 * ln s /\ loglik_over_reads st = ln s.
Proof.
  split.
  - unfold compute_loglikelihood.
    change (map t_joint_sum (P_tgr st))
      with [logSumExp [joint (row_t1, a); joint (row_t2, b)];
            logSumExp [joint (row_t1, a); joint (row_t2, b)]].
    rewrite one_read_norm. cbn. ring.
  - unfold loglik_over_reads. rewrite one_read_sums. cbn. ring.
Qed.

Lemma one_read_F : F_new st = [(1%Z, a / s); (2%Z, 5 / 6 * b / s)].
Proof.
  pose proof one_read_norm_pos as Hs.
  assert (Hval : forall j, exp (logSumExp [j - ln s] - ln (INR 1)) = exp j / s).
  { intros j. rewrite logSumExp_ln by discriminate. cbn [map].
    rewrite Rsum_cons. cbn [Rsum fold_right INR].
    rewrite Rplus_0_r, ln_exp, ln_1. unfold Rminus.
    rewrite Ropp_0, Rplus_0_r, exp_plus, exp_Ropp, exp_ln by exact Hs.
    reflexivity. }
  unfold st. rewrite EM_step_F_new.
  change (maximize _ _)
    with [(1%Z, exp (logSumExp [joint (row_t1, a) - logSumExp [joint (row_t1, a); joint (row_t2, b)]] - ln (INR 1)));
          (2%Z, exp (logSumExp [joint (row_t2, b) - logSumExp [joint (row_t1, a); joint (row_t2, b)]] - ln (INR 1)))].
  rewrite one_read_norm, !Hval. unfold joint. cbn [fst snd log_P row_t1 row_t2].
  rewrite !exp_plus, !exp_ln, exp_0 by lra.
  repeat f_equal; unfold Rdiv; ring.
Qed.
End OneRead.

(** The first two iterations from the uniform [F]. *)
Section Divergence.

Local Open Scope R_scope.

Lemma ln_ratio_bounds : 1 / 122 < ln (122 / 121) < 1 / 121.
Proof.
split.
- assert (H : ln (121 / 122) < - (1 / 122)).
  { rewrite <- (ln_exp (- (1 / 122))). apply ln_increasing; [lra |].
    pose proof (exp_ineq1 (- (1 / 122)) ltac:(lra)). lra. }
  replace (122 / 121) with (/ (121 / 122)) by (field).
  rewrite ln_Rinv by lra. lra.
- rewrite <- (ln_exp (1 / 121)). apply ln_increasing; [lra |].
  pose proof (exp_ineq1 (1 / 121) ltac:(lra)). lra.
Qed.

Lemma ln_step_ratio : ln (61 / 66) - ln (11 / 12) = ln (122 / 121).
Proof.
replace (122 / 121) with ((61 / 66) * / (11 / 12)) by field.
rewrite ln_mult, ln_Rinv by lra. ring.
Qed.

Lemma two_target_iterate_1 : F_iter two_target_rows half_half 1 = [(1%Z, 6 / 11); (2%Z, 5 / 11)].
Proof.
cbn [F_iter]. unfold half_half. rewrite one_read_F by lra.
replace (1 / 2 / (1 / 2 + 5 / 6 * (1 / 2))) with (6 / 11) by field.
replace (5 / 6 * (1 / 2) / (1 / 2 + 5 / 6 * (1 / 2))) with (5 / 11) by field.
reflexivity.
Qed.

Lemma two_target_lli_1 : lli_iter two_target_rows half_half 1 = 2 * ln (11 / 12).
Proof.
unfold lli_iter. cbn [Nat.sub F_iter]. unfold half_half.
rewrite (proj1 (one_read_loglik (1 / 2) (1 / 2) ltac:(lra) ltac:(lra))).
do 2 f_equal. field.
Qed.

Lemma two_target_lli_2 : lli_iter two_target_rows half_half 2 = 2 * ln (61 / 66).
Proof.
unfold lli_iter. replace (2 - 1)%nat with 1%nat by reflexivity.
rewrite two_target_iterate_1.
rewrite (proj1 (one_read_loglik (6 / 11) (5 / 11) ltac:(lra) ltac:(lra))).
do 2 f_equal. field.
Qed.

End Divergence.

(** C2.  On [two_target_rows] from the uniform [F], the value of
    [compute_loglikelihood] is twice the sum over reads of the
    normalizing constants (the one read has two rows); at the second
    iteration the sum over reads rises by less than 0.01 while the
    tested value rises by more, and the loop does not return before
    its third iteration. *)
Theorem EM_loglik_counts_rows :
  let st1 := EM_step two_target_rows half_half in
  let st2 := EM_step two_target_rows (F_new st1) in
  compute_loglikelihood st1 = (2 * loglik_over_reads st1)%R
  /\ compute_loglikelihood st2 = (2 * loglik_over_reads st2)%R
  /\ loglik_over_reads st1 = ln (11 / 12)%R
  /\ loglik_over_reads st2 = ln (61 / 66)%R
  /\ (loglik_over_reads st2 - loglik_over_reads st1 < lli_threshold)%R
  /\ ~ (compute_loglikelihood st2 - compute_loglikelihood st1 < lli_threshold)%R
  /\ (forall fuel thr res,
         EM_loop fuel two_target_rows thr half_half NegInf 1 = Some res ->
         (3 <= iterations res)%nat).
Proof.
  intros st1 st2.
  assert (H1 : compute_loglikelihood st1 = (2 * ln (11 / 12))%R
               /\ loglik_over_reads st1 = ln (11 / 12)%R).
  { unfold st1, half_half.
    destruct (one_read_loglik (1 / 2)%R (1 / 2)%R ltac:(lra) ltac:(lra)) as [-> ->].
    split; [do 2 f_equal |f_equal]; field. }
  assert (H2 : compute_loglikelihood st2 = (2 * ln (61 / 66))%R
               /\ loglik_over_reads st2 = ln (61 / 66)%R).
  { unfold st2, st1. change (F_new (EM_step two_target_rows half_half))
      with (F_iter two_target_rows half_half 1). rewrite two_target_iterate_1.
    destruct (one_read_loglik (6 / 11)%R (5 / 11)%R ltac:(lra) ltac:(lra)) as [-> ->].
    split; [do 2 f_equal |f_equal]; field. }
  destruct H1 as [Hc1 Hr1], H2 as [Hc2 Hr2].
  pose proof ln_ratio_bounds as [Hlo Hhi]. pose proof ln_step_ratio as Hstep.
  unfold lli_threshold.
  repeat split.
  - rewrite Hc1, Hr1. reflexivity.
  - rewrite Hc2, Hr2. reflexivity.
  - exact Hr1.
  - exact Hr2.
  - rewrite Hr1, Hr2. lra.
  - rewrite Hc1, Hc2. lra.
  - intros fuel thr res Hres.
    apply (EM_loop_from two_target_rows thr half_half fuel 1 res (le_n 1)) in Hres.
    destruct Hres as (Hk & [Hk2 Hc] & _).
    destruct (Nat.eq_dec (iterations res) 2) as [He | Hne]; [| lia].
    exfalso. rewrite He in Hc. replace (2 - 1)%nat with 1%nat in Hc by reflexivity.
    rewrite two_target_lli_1, two_target_lli_2 in Hc. unfold lli_threshold in Hc. lra.
Qed.

(** The loop returns exactly at the first iteration, from the second
    on, whose increase of [compute_loglikelihood] over the previous
    iteration is below [lli_threshold]; it never returns at the first
    iteration. *)
Theorem EM_loop_stopping_rule (rows : list LRow) (thr : R) (F0 : FVec)
  (fuel : nat) (res : EMResult) :
  EM_loop fuel rows thr F0 NegInf 1 = Some res
  <-> (2 <= iterations res <= fuel)%nat
      /\ (lli_iter rows F0 (iterations res)
          - lli_iter rows F0 (iterations res - 1) < 1 / 100)%R
      /\ (forall j, (2 <= j < iterations res)%nat ->
                    ~ (lli_iter rows F0 j - lli_iter rows F0 (j - 1)
                       < 1 / 100)%R)
      /\ F_last res = F_iter rows F0 (iterations res)
      /\ final_F res
         = F_new (EM_step rows
                    (filter (fun e : Z * R =>
                               if Rle_dec thr (snd e) then true else false)
                            (F_last res))).
Proof.
  rewrite (EM_loop_from rows thr F0 fuel 1 res (le_n 1)).
  unfold converged_at, lli_threshold. split.
  - intros (Hk & [Hk2 Hc] & Hmin & Hl & Hf).
    split; [lia |]. split; [exact Hc |]. split; [| split; assumption].
    intros j Hj Hcj. apply (Hmin j); [lia | split; [lia | exact Hcj]].
  - intros (Hk & Hc & Hmin & Hl & Hf).
    split; [lia |]. split; [split; [lia | exact Hc] |].
    split; [| split; assumption].
    intros j Hj [Hj2 Hcj]. apply (Hmin j); [lia | exact Hcj].
Qed.

(** ** The states the loop starts from *)

Lemma init_F_uniform (tax_ids : list Z) (F : FVec) :
  init_F tax_ids = Ok F ->
  map fst F = tax_ids /\ Forall (fun e : Z * R => (0 < snd e)%R) F.
Proof.
  unfold init_F. destruct tax_ids as [| t ids]; [discriminate |].
  set (ids' := t :: ids). set (v := (1 / INR (List.length ids'))%R).
  intros H. assert (HF : F = map (fun t => (t, v)) ids') by congruence.
  subst F. split.
  - rewrite map_map. cbn [fst]. apply map_id.
  - apply Forall_forall. intros e He. apply in_map_iff in He.
    destruct He as [x [<- _]]. cbn [snd]. unfold v.
    apply Rdiv_lt_0_compat; [lra |]. apply lt_0_INR. cbn. lia.
Qed.

(** The division [N_genes_hit / E] of the filter never divides by 0. *)
Lemma Qpower_positive_below_1 (q : Q) :
  (0 <= q)%Q -> (q < 1)%Q ->
  forall p : positive,
    (0 <= Qpower_positive q p)%Q /\ (Qpower_positive q p < 1)%Q.
Proof.
  intros H0 H1. induction p as [| p IH] using Pos.peano_ind.
  - change (Qpower_positive q 1) with q. split; assumption.
  - rewrite <- Pos.add_1_r. destruct IH as [IH0 IH1].
    rewrite Qpower_plus_positive.
    change (Qpower_positive q 1) with q.
    set (P := Qpower_positive q p) in *.
    split.
    + apply Qmult_le_0_compat; assumption.
    + apply Qle_lt_trans with (1 * q)%Q; [| Lqa.lra].
      apply Qmult_le_compat_r; Lqa.lra.
Qed.

Lemma expected_hits_positive (N_genes N_reads : Z) :
  1 <= N_genes -> 1 <= N_reads -> (0 < spec_E N_genes N_reads)%Q.
Proof.
  intros HN Hn. unfold spec_E.
  assert (HNq : (1 <= inject_Z N_genes)%Q).
  { rewrite Zle_Qle in HN. exact HN. }
  assert (Hinv : (0 < 1 / inject_Z N_genes)%Q
                 /\ (1 / inject_Z N_genes <= 1)%Q).
  { split.
    - apply Qlt_shift_div_l; Lqa.lra.
    - apply Qle_shift_div_r; Lqa.lra. }
  destruct N_reads as [| p | p]; try lia. cbn [Qpower].
  destruct (Qpower_positive_below_1 (1 - 1 / inject_Z N_genes)
              ltac:(Lqa.lra) ltac:(Lqa.lra) p) as [_ Hp].
  Lqa.nra.
Qed.

(** [EM_complete] raises on an empty table, and on any other table it
    does not return before the second iteration of its loop. *)
Theorem EM_complete_two_iterations (fuel : nat) (args : Args)
  (rows : list LRow) (gene_stats : list GeneStat) (F : FVec) :
  (rows = [] ->
   EM_complete fuel args rows gene_stats F = Raise ZeroDivisionError)
  /\ (forall res,
         EM_complete fuel args rows gene_stats F = Ok (Some res) ->
         rows <> [] /\ (2 <= iterations res <= fuel)%nat).
Proof.
  split.
  - intros ->. reflexivity.
  - intros res. unfold EM_complete.
    destruct (List.length (distinct String.eqb (map Read_ID rows)))
      as [| n] eqn:Hn; [discriminate |].
    destruct (if nof args then Ok F
              else plausibility_filter rows gene_stats F) as [F1 | e];
      cbn [bind]; [| discriminate].
    intros H. injection H as H. split.
    + intros ->. discriminate Hn.
    + apply (EM_loop_from rows _ F1 fuel 1 res (le_n 1)) in H.
      destruct H as (Hk & [Hk2 _] & _). lia.
Qed.

(** On [two_target_rows] every iterate has two positive entries that
    sum to 1, so both stay below the low-abundance threshold
    [1 / n_reads = 1]: whenever the loop returns, the support kept for
    the final pass is empty. *)
Lemma one_read_iterates (k : nat) :
  exists a b : R,
    F_iter two_target_rows half_half k = [(1, a); (2, b)]
    /\ (0 < a)%R /\ (0 < b)%R /\ (a + b = 1)%R.
Proof.
  induction k as [| k (a & b & HF & Ha & Hb & Hab)].
  - exists (1 / 2)%R, (1 / 2)%R. repeat split; lra.
  - cbn [F_iter]. rewrite HF, (one_read_F a b Ha Hb).
    assert (Hs : (0 < a + 5 / 6 * b)%R) by lra.
    exists (a / (a + 5 / 6 * b))%R, (5 / 6 * b / (a + 5 / 6 * b))%R.
    split; [reflexivity |]. split; [| split].
    + apply Rdiv_lt_0_compat; lra.
    + apply Rdiv_lt_0_compat; lra.
    + field. lra.
Qed.

Lemma low_abundance_cut_can_empty_support (fuel : nat) (res : EMResult) :
  EM_complete fuel plain_args two_target_rows [] half_half = Ok (Some res) ->
  filter (fun e : Z * R => if Rle_dec (1 / INR 1) (snd e) then true else false)
         (F_last res) = [].
Proof.
  intros H.
  assert (Hloop : EM_loop fuel two_target_rows (1 / INR 1) half_half NegInf 1
                  = Some res).
  { change (EM_complete fuel plain_args two_target_rows [] half_half)
      with (Ok (EM_loop fuel two_target_rows (1 / INR 1) half_half NegInf 1))
      in H.
    congruence. }
  apply (EM_loop_from two_target_rows _ half_half fuel 1 res (le_n 1)) in Hloop.
  destruct Hloop as (_ & _ & _ & Hlast & _). rewrite Hlast.
  destruct (one_read_iterates (iterations res)) as (a & b & -> & Ha & Hb & Hab).
  cbn [filter snd INR].
  destruct (Rle_dec (1 / 1) a); [lra |].
  destruct (Rle_dec (1 / 1) b); [lra | reflexivity].
Qed.

(** ** Instances on the sample data *)

Example split_reference :
  split_on ":" "562:markers/RpoB" = ["562"; "markers/RpoB"]%string
  /\ gene_of_reference "562:markers/RpoB" = Ok "RpoB"%string
  /\ gene_of_reference "562" = Raise IndexError.
Proof. repeat split; reflexivity. Qed.

Example py_int_samples :
  py_int " 56_2 " = Some 562 /\ py_int "-12" = Some (-12)
  /\ py_int "1__2" = None /\ py_int "" = None /\ py_int "12a" = None.
Proof. repeat split; reflexivity. Qed.

Example sample_counts_row_7 :
  map (count_cigars sample_corpus 7) frame_index = [0; 1; 0; 33; 1; 0; 0; 0].
Proof. reflexivity. Qed.

Example sample_transition_cells :
  option_map Qred (build_transition_mat sample_corpus 7 7) = Some (33 # 35)
  /\ option_map Qred (build_transition_mat sample_corpus 7 8) = Some (1 # 35)
  /\ option_map Qred (build_transition_mat sample_corpus 1 7) = Some (1 # 2)
  /\ build_transition_mat sample_corpus 4 4 = Some 0%Q.
Proof. repeat split; reflexivity. Qed.

Example zero_length_run_is_not_filled :
  build_transition_mat [[(7, 0); (8, 1)]] 7 7 = None.
Proof. reflexivity. Qed.

Example sample_scored_runs :
  scored_runs [(4, 5); (7, 10); (8, 1); (7, 20); (4, 3)]
  = [(7, 10); (8, 1); (7, 20)]
  /\ retained_runs [(0, 5); (4, 2); (3, 7); (7, 1)]
     = [(0, 5); (4, 2); (7, 1)].
Proof. split; reflexivity. Qed.

Example sample_edit_cost :
  build_edit_cost false (extract_cigars_all [primary_hit; secondary_hit])
  = Ok (Some [(0, 1%Q); (1, 3 # 4); (2, 1 # 4); (7, 1%Q); (8, 0 # 4);
              (4, 0 # 4); (5, 0 # 4)])
  /\ build_edit_cost true (extract_cigars_all [primary_hit]) = Ok None
  /\ build_edit_cost false [[(7, 30)]] = Raise ZeroDivisionError.
Proof. repeat split; reflexivity. Qed.

Example sample_filter_counts :
  map (fun t => (N_reads sample_rows t, N_genes_hit sample_rows t,
                 N_genes sample_gene_stats t)) [42; 8; 7; 9]
  = [(5, 1, 10); (11, 1, 10); (12, 3, 3); (0, 0, 0)].
Proof. reflexivity. Qed.

Example sample_filter :
  plausibility_filter sample_rows sample_gene_stats sample_F
  = Ok [(42, (1 / 4)%R); (7, (1 / 4)%R)].
Proof. reflexivity. Qed.

Example expected_hits_without_genes :
  get_expected_gene_hits 0 12 = Raise ZeroDivisionError.
Proof. reflexivity. Qed.

Example valid_rank_run :
  main plain_args quiet_world []
  = ([LoadTaxonomy; InitF; BuildAlignmentModel; BuildLikelihoodTable;
      EMStart; PlausibilityFilter; EMStep 1; EMStep 2; FinalEMStep;
      WriteReport; ReadReport; WriteRankReport; WriteReport; ReadReport;
      WriteRankReport],
     Some (Exit 0)).
Proof. reflexivity. Qed.

(** *** Instances of the theorems *)

Lemma EM_step_distribution_witness :
  Forall (fun e : Z * R => (0 < snd e)%R) half_half
  /\ Rsum (map snd (F_new (EM_step two_target_rows half_half))) = 1%R.
Proof.
  assert (Hpos : Forall (fun e : Z * R => (0 < snd e)%R) half_half).
  { repeat constructor; cbn [snd]; lra. }
  split; [exact Hpos |].
  apply (proj1 (EM_step_distribution two_target_rows half_half Hpos)).
  discriminate.
Defined.


Lemma filter_single_gene_taxon_witness :
  N_reads sample_rows 42 = 5
  /\ N_genes_hit sample_rows 42 = 1
  /\ N_genes sample_gene_stats 42 = 10
  /\ (1 <= N_reads sample_rows 42 <= 10 ->
      In 42 (map fst [(42, (1 / 4)%R); (7, (1 / 4)%R)]))
  /\ (10 < N_reads sample_rows 42 ->
      ~ In 42 (map fst [(42, (1 / 4)%R); (7, (1 / 4)%R)])).
Proof.
  split; [reflexivity |]. split; [reflexivity |]. split; [reflexivity |].
  apply (filter_single_gene_taxon sample_rows sample_gene_stats sample_F
           [(42, (1 / 4)%R); (7, (1 / 4)%R)] 42).
  - reflexivity.
  - left. reflexivity.
  - reflexivity.
Defined.


Lemma score_cigar_markov_spec_witness :
  (forall a b, (0 <= diagonal_T a b)%R)
  /\ score_cigar_markov [(4, 5); (7, 10); (8, 1); (7, 20); (4, 3)] diagonal_T
     = spec_markov diagonal_T None [(7, 10); (8, 1); (7, 20)].
Proof.
  assert (Hnn : forall a b, (0 <= diagonal_T a b)%R).
  { intros a b. unfold diagonal_T. destruct (a =? b); lra. }
  split; [exact Hnn |].
  exact (score_cigar_markov_spec diagonal_T
           [(4, 5); (7, 10); (8, 1); (7, 20); (4, 3)] Hnn).
Defined.

Lemma score_cigar_markov_match_only_witness :
  Forall (fun r : Run => fst r = 0) [(0, 50); (0, 3)]
  /\ score_cigar_markov [(0, 50); (0, 3)] diagonal_T = 0%R.
Proof.
  assert (Hall : Forall (fun r : Run => fst r = 0) [(0, 50); (0, 3)]).
  { repeat constructor. }
  split; [exact Hall |].
  exact (proj2 (proj2 (score_cigar_markov_match_only diagonal_T
                         [(0, 50); (0, 3)] Hall))).
Defined.

Lemma build_alignment_model_costs_witness :
  minimap2_AS edit_args = false
  /\ build_alignment_model edit_args [primary_hit; secondary_hit]
     = Ok (EditCigar
             (Some (spec_op_costs
                      (extract_cigars_all [primary_hit; secondary_hit])))).
Proof.
  split; [reflexivity |].
  exact (proj1 (build_alignment_model_costs edit_args
                  [primary_hit; secondary_hit] eq_refl) eq_refl eq_refl).
Defined.

Lemma main_invalid_rank_witness :
  rank strain_args = parse_rank (Some "strain"%string)
  /\ rank_known "strain" = false
  /\ snd (main strain_args quiet_world []) <> Some (Exit 0).
Proof.
  split; [reflexivity |]. split; [reflexivity |].
  exact (proj1 (main_invalid_rank "strain" strain_args quiet_world
                  eq_refl eq_refl)).
Defined.

(** *** Where the code departs from a statement of the specification *)

(** Five reads on one marker gene out of ten: the taxon stays. *)
Lemma five_reads_one_gene_kept :
  N_reads sample_rows 42 = 5
  /\ N_genes_hit sample_rows 42 = 1
  /\ N_genes sample_gene_stats 42 = 10
  /\ exists F',
      plausibility_filter sample_rows sample_gene_stats sample_F = Ok F'
      /\ In 42 (map fst F').
Proof.
  repeat split; try reflexivity.
  eexists. split; [reflexivity |]. left. reflexivity.
Qed.

(** A filter that removes every taxon: the iterations that follow
    produce an empty [F], whose sum is 0. *)
Lemma emptied_support_sums_to_zero :
  init_F [8] = Ok [(8, (1 / INR 1)%R)]
  /\ plausibility_filter one_gene_rows one_gene_stats [(8, (1 / INR 1)%R)]
     = Ok []
  /\ EM_complete 2 plain_args one_gene_rows one_gene_stats
       [(8, (1 / INR 1)%R)]
     = Ok (Some {| iterations := 2; F_last := []; final_F := [] |})
  /\ Rsum (map snd (F_new (EM_step one_gene_rows []))) = 0%R
  /\ Rsum (map snd (F_new (EM_step one_gene_rows []))) <> 1%R.
Proof.
  assert (Hfilter : plausibility_filter one_gene_rows one_gene_stats
                      [(8, (1 / INR 1)%R)] = Ok []).
  { vm_compute. reflexivity. }
  assert (Hstep : EM_step one_gene_rows []
                  = {| P_tgr := []; P_tgr_sum := []; F_new := [] |}).
  { apply EM_step_no_support, merge_F_no_F. }
  split; [reflexivity |]. split; [exact Hfilter |]. split; [| split].
  - unfold EM_complete.
    replace (List.length (distinct String.eqb (map Read_ID one_gene_rows)))
      with 11%nat by (vm_compute; reflexivity).
    replace (nof plain_args) with false by reflexivity.
    rewrite Hfilter. cbn [bind]. do 2 f_equal.
    cbn [EM_loop]. rewrite Hstep.
    cbn [compute_loglikelihood P_tgr map Rsum fold_right lli_delta xlt F_new].
    rewrite Hstep.
    cbn [compute_loglikelihood P_tgr map Rsum fold_right lli_delta xlt F_new
         filter].
    rewrite Hstep. cbn [F_new].
    unfold lli_threshold.
    destruct (Rlt_dec (0 - 0) (1 / 100)) as [_ | Hn]; [reflexivity | lra].
  - rewrite Hstep. cbn. reflexivity.
  - rewrite Hstep. cbn. lra.
Qed.

(** A secondary record with a positive score gives a row. *)
Lemma secondary_record_gives_row :
  is_secondary secondary_hit = true
  /\ spec_retained secondary_hit = false
  /\ P_rgs_data plain_args [secondary_hit]
     = Ok [ {| p_Read_ID := "read1";
               p_Target_ID := 573;
               p_log_P := None;
               p_cigar := Some [(7, 100)];
               p_Gene := "RpoB";
               p_Reference := "573:markers/RpoB";
               p_aln_len := 100 |} ].
Proof. repeat split; reflexivity. Qed.

(** In the default mode the per-operation model is the constant table,
    whatever the corpus: here Insertion has 3 of the 4 costed bases and
    the model gives it 0.005. *)
Lemma fixed_model_is_not_learned :
  build_alignment_model plain_args [primary_hit; secondary_hit]
  = Ok (FixedCigar fixed_cigar_table)
  /\ dict_get fixed_cigar_table 1 = Some (5 # 1000)
  /\ dict_get (spec_op_costs (extract_cigars_all [primary_hit; secondary_hit])) 1
     = Some (3 # 4)
  /\ ~ (5 # 1000 == 3 # 4)%Q.
Proof. repeat split; try reflexivity. intros H. discriminate H. Qed.

(** With the rank [strain] the run builds the table, iterates and
    writes the report before the rank is tested. *)
Lemma invalid_rank_fails_after_EM :
  rank_known (rank strain_args) = false
  /\ main strain_args quiet_world []
     = ([LoadTaxonomy; InitF; BuildAlignmentModel; BuildLikelihoodTable;
         EMStart; PlausibilityFilter; EMStep 1; EMStep 2; FinalEMStep;
         WriteReport; ReadReport],
        Some (Uncaught rank_error)).
Proof. split; reflexivity. Qed.

(** * Further properties *)

(** ** logSumExp: bounds and shift *)

Section LogSumExpBounds.

Local Open Scope R_scope.

Lemma fold_Rmax_ge_init (xs : list R) :
  forall a, a <= fold_left Rmax xs a.
Proof.
  induction xs as [| x xs IH]; intros a; cbn [fold_left]; [lra |].
  apply Rle_trans with (Rmax a x); [apply Rmax_l | apply IH].
Qed.

Lemma fold_Rmax_ge_elem (xs : list R) :
  forall a y, In y xs -> y <= fold_left Rmax xs a.
Proof.
  induction xs as [| x xs IH]; intros a y Hy; [destruct Hy |].
  cbn [fold_left]. destruct Hy as [-> | Hy]; [| apply IH, Hy].
  apply Rle_trans with (Rmax a y); [apply Rmax_r | apply fold_Rmax_ge_init].
Qed.

Lemma fold_Rmax_In (xs : list R) :
  forall a, In (fold_left Rmax xs a) (a :: xs).
Proof.
  induction xs as [| x xs IH]; intros a; cbn [fold_left]; [left; reflexivity |].
  destruct (IH (Rmax a x)) as [H | H]; [| right; right; exact H].
  rewrite <- H. unfold Rmax. destruct (Rle_dec a x);
    [right; left | left]; reflexivity.
Qed.

Lemma np_max_ge (ns : list R) (y : R) : In y ns -> y <= np_max ns.
Proof.
  destruct ns as [| x xs]; [intros [] |]. cbn [np_max].
  intros [<- | Hy]; [apply fold_Rmax_ge_init | apply fold_Rmax_ge_elem, Hy].
Qed.

Lemma np_max_In (ns : list R) : ns <> [] -> In (np_max ns) ns.
Proof.
  destruct ns as [| x xs]; [congruence | intros _]. apply fold_Rmax_In.
Qed.

Lemma Rsum_ge_elem {X : Type} (f : X -> R) (l : list X) (y : X) :
  (forall x, In x l -> 0 <= f x) -> In y l -> f y <= Rsum (map f l).
Proof.
  induction l as [| x l IH]; intros Hnn Hy; [destruct Hy |].
  cbn [map]. rewrite Rsum_cons.
  assert (Hrest : 0 <= Rsum (map f l)).
  { clear IH Hy. induction l as [| z l IHl]; [cbn; lra |].
    cbn [map]. rewrite Rsum_cons.
    pose proof (Hnn z (or_intror (or_introl eq_refl))).
    assert (0 <= Rsum (map f l)); [| lra].
    apply IHl. intros w [-> | Hw]; apply Hnn; [left | right; right];
      auto. }
  destruct Hy as [-> | Hy].
  - lra.
  - pose proof (Hnn x (or_introl eq_refl)).
    assert (f y <= Rsum (map f l)); [| lra].
    apply IH; [| exact Hy]. intros z Hz. apply Hnn. right. exact Hz.
Qed.

Lemma Rsum_le_count {X : Type} (f : X -> R) (l : list X) :
  (forall x, In x l -> f x <= 1) -> Rsum (map f l) <= INR (List.length l).
Proof.
  induction l as [| x l IH]; intros Hle; [cbn; lra |].
  cbn [map List.length]. rewrite Rsum_cons, S_INR.
  pose proof (Hle x (or_introl eq_refl)).
  assert (Rsum (map f l) <= INR (List.length l)); [| lra].
  apply IH. intros z Hz. apply Hle. right. exact Hz.
Qed.

Lemma logSumExp_ge_elem (ns : list R) (y : R) : In y ns -> y <= logSumExp ns.
Proof.
  intros Hy. assert (Hne : ns <> []) by (intros ->; destruct Hy).
  rewrite logSumExp_ln by exact Hne.
  rewrite <- (ln_exp y) at 1.
  assert (Hle : exp y <= Rsum (map exp ns)).
  { apply (Rsum_ge_elem exp ns y); [| exact Hy].
    intros x _. left. apply exp_pos. }
  destruct Hle as [Hlt | Heq]; [| rewrite Heq; lra].
  left. apply ln_increasing; [apply exp_pos | exact Hlt].
Qed.

End LogSumExpBounds.

(** X3.  [logSumExp] of a non-empty array: the sum it takes the
    logarithm of lies between 1 and the number of elements (every
    exponent is at most 0 after the shift by the maximum, and one is
    0); the result is at least every element and at most the maximum
    plus [log n]; adding a constant to every element adds it to the
    result; for one element it is that element. *)
Theorem logSumExp_bounds (ns : list R) (Hne : ns <> []) :
  (1 <= Rsum (map (fun n => exp (n - np_max ns)) ns)
   <= INR (List.length ns))%R
  /\ (forall y, In y ns -> (y <= logSumExp ns)%R)
  /\ (logSumExp ns <= np_max ns + ln (INR (List.length ns)))%R
  /\ (forall c, logSumExp (map (fun n => n + c) ns) = logSumExp ns + c)%R
  /\ (forall x, logSumExp [x] = x).
Proof.
  assert (Hsum : (1 <= Rsum (map (fun n => exp (n - np_max ns)) ns)
                  <= INR (List.length ns))%R).
  { split.
    - rewrite <- exp_0.
      replace 0%R with (np_max ns - np_max ns)%R by ring.
      apply (Rsum_ge_elem (fun n => exp (n - np_max ns)) ns (np_max ns)).
      + intros x _. left. apply exp_pos.
      + apply np_max_In, Hne.
    - apply Rsum_le_count. intros x Hx. rewrite <- exp_0.
      pose proof (np_max_ge ns x Hx) as Hle.
      destruct (Req_dec (x - np_max ns) 0) as [-> | Hnz]; [lra |].
      left. apply exp_increasing. lra. }
  split; [exact Hsum |]. split; [intros y; apply logSumExp_ge_elem |].
  split; [| split].
  - unfold logSumExp. destruct Hsum as [H1 Hn].
    assert (ln (Rsum (map (fun n => exp (n - np_max ns)) ns))
            <= ln (INR (List.length ns)))%R; [| lra].
    destruct Hn as [Hlt | Heq]; [| rewrite Heq; lra].
    left. apply ln_increasing; lra.
  - intros c. rewrite !logSumExp_ln; [| exact Hne |].
    + rewrite map_map.
      rewrite (map_ext (fun n => exp (n + c)) (fun n => (exp c * exp n)%R)).
      * rewrite Rsum_scale, ln_mult, ln_exp; [ring | apply exp_pos |].
        apply (Rsum_exp_pos (fun n => n) ns Hne).
      * intros n. rewrite exp_plus. ring.
    + intros He. apply map_eq_nil in He. exact (Hne He).
  - intros x. rewrite logSumExp_ln by discriminate.
    cbn [map]. rewrite Rsum_cons. cbn [Rsum fold_right].
    rewrite Rplus_0_r. apply ln_exp.
Qed.

Lemma logSumExp_bounds_witness :
  [0%R; ln 2] <> []
  /\ (forall y, In y [0%R; ln 2] -> (y <= logSumExp [0%R; ln 2])%R).
Proof.
  assert (Hne : [0%R; ln 2] <> []) by discriminate.
  split; [exact Hne |].
  exact (proj1 (proj2 (logSumExp_bounds [0%R; ln 2] Hne))).
Defined.

(** ** The expectation step *)

Section Posteriors.

Local Open Scope R_scope.

Variable rows : list LRow.
Variable F : FVec.

Let st : EMState := EM_step rows F.

Lemma P_tgr_reads :
  map t_Read_ID (P_tgr st)
  = map (fun x : LRow * R => Read_ID (fst x)) (merge_F rows F).
Proof.
  unfold st. cbn [EM_step P_tgr]. rewrite posterior_rows_eq, map_map.
  reflexivity.
Qed.

Lemma P_tgr_targets :
  map t_Target_ID (P_tgr st)
  = map (fun x : LRow * R => Target_ID (fst x)) (merge_F rows F).
Proof.
  unfold st. cbn [EM_step P_tgr]. rewrite posterior_rows_eq, map_map.
  reflexivity.
Qed.

(** The posteriors of the rows of one read, exponentiated, sum to 1. *)
Lemma P_tgr_read_total (rd : string) :
  In rd (map t_Read_ID (P_tgr st)) ->
  Rsum (map (fun x => exp (t_post x))
            (filter (fun x => String.eqb (t_Read_ID x) rd) (P_tgr st))) = 1.
Proof.
  intros Hrd. rewrite P_tgr_reads in Hrd.
  unfold st. cbn [EM_step P_tgr].
  rewrite posterior_rows_eq, filter_map_comm, map_map. cbn [t_Read_ID t_post].
  apply posteriors_of_read.
  apply (distinct_In String.eqb String.eqb_eq). exact Hrd.
Qed.

Lemma P_tgr_post_le_0 (x : TRow) : In x (P_tgr st) -> t_post x <= 0.
Proof.
  intros Hx.
  assert (Hrd : In (t_Read_ID x) (map t_Read_ID (P_tgr st)))
    by (apply in_map, Hx).
  pose proof (P_tgr_read_total (t_Read_ID x) Hrd) as Hone.
  assert (Hle : exp (t_post x) <= 1).
  { rewrite <- Hone.
    apply (Rsum_ge_elem (fun y => exp (t_post y))).
    - intros y _. left. apply exp_pos.
    - apply filter_In. split; [exact Hx | apply String.eqb_refl]. }
  destruct (Rle_or_lt (t_post x) 0) as [H | H]; [exact H |].
  apply exp_increasing in H. rewrite exp_0 in H. lra.
Qed.

End Posteriors.

(** X4.  After the expectation step of [EM_step], every posterior
    [P(t|r)] is a log-probability (at most 0); the posteriors of the
    rows of one read, exponentiated, sum to 1; and a read with a
    single row has posterior exactly 0, that is probability 1. *)
Theorem posteriors_are_probabilities (rows : list LRow) (F : FVec)
  (Hpos : Forall (fun e : Z * R => (0 < snd e)%R) F) :
  let P := P_tgr (EM_step rows F) in
  (forall x, In x P -> (t_post x <= 0)%R)
  /\ (forall rd, In rd (map t_Read_ID P) ->
        Rsum (map (fun x => exp (t_post x))
                  (filter (fun x => String.eqb (t_Read_ID x) rd) P)) = 1%R)
  /\ (forall x,
         filter (fun y => String.eqb (t_Read_ID y) (t_Read_ID x)) P = [x] ->
         t_post x = 0%R).
Proof.
  intros P. split; [| split].
  - apply P_tgr_post_le_0.
  - apply P_tgr_read_total.
  - intros x Hone.
    assert (Hx : In x P).
    { assert (H : In x [x]) by (left; reflexivity).
      rewrite <- Hone in H. apply filter_In in H. apply H. }
    pose proof (P_tgr_read_total rows F (t_Read_ID x) (in_map _ _ _ Hx)) as Hs.
    fold P in Hs. rewrite Hone in Hs. cbn [map] in Hs.
    rewrite Rsum_cons in Hs. cbn [Rsum fold_right] in Hs.
    rewrite Rplus_0_r in Hs. rewrite <- (ln_exp (t_post x)), Hs. apply ln_1.
Qed.

Lemma posteriors_are_probabilities_witness :
  Forall (fun e : Z * R => (0 < snd e)%R) half_half
  /\ forall x, In x (P_tgr (EM_step two_target_rows half_half)) ->
               (t_post x <= 0)%R.
Proof.
  assert (Hpos : Forall (fun e : Z * R => (0 < snd e)%R) half_half).
  { repeat constructor; cbn [snd]; lra. }
  split; [exact Hpos |].
  exact (proj1 (posteriors_are_probabilities two_target_rows half_half Hpos)).
Defined.

(** ** The support of [F] *)

Lemma F_new_targets (rows : list LRow) (F : FVec) :
  map fst (F_new (EM_step rows F))
  = distinct Z.eqb
      (map (fun x : LRow * R => Target_ID (fst x)) (merge_F rows F)).
Proof.
  rewrite EM_step_F_new. unfold maximize. rewrite map_map. cbn [fst].
  rewrite map_id. f_equal. apply P_tgr_targets.
Qed.

Lemma F_new_target_In (rows : list LRow) (F : FVec) (t : Z) :
  In t (map fst (F_new (EM_step rows F)))
  <-> In t (map fst F) /\ exists r, In r rows /\ Target_ID r = t.
Proof.
  rewrite F_new_targets, (distinct_In Z.eqb Z.eqb_eq), in_map_iff. split.
  - intros [[r v] [Ht Hin]]. cbn [fst] in Ht.
    apply merge_F_In in Hin. destruct Hin as [Hr HF]. subst t. split.
    + apply in_map_iff. exists (Target_ID r, v). split; [reflexivity | exact HF].
    + exists r. split; [exact Hr | reflexivity].
  - intros [HF [r [Hr Ht]]]. apply in_map_iff in HF.
    destruct HF as [[t' v] [Heq HF]]. cbn [fst] in Heq. subst t'.
    exists (r, v). split; [exact Ht |]. apply merge_F_In.
    split; [exact Hr | rewrite Ht; exact HF].
Qed.

Lemma maximize_with_keys (np_exp : R -> R) (P : list TRow) (n : nat) :
  map fst (maximize_with np_exp P n) = distinct Z.eqb (map t_Target_ID P).
Proof. unfold maximize_with. rewrite map_map. cbn [fst]. apply map_id. Qed.

Lemma NoDup_keys_filter (p : Z * R -> bool) (l : FVec) :
  NoDup (map fst l) -> NoDup (map fst (filter p l)).
Proof.
  induction l as [| e l IH]; intros H; [constructor |].
  cbn [map] in H. inversion H as [| ? ? Hn Hl]; subst.
  cbn [filter]. destruct (p e); [| apply IH, Hl].
  cbn [map]. constructor; [| apply IH, Hl].
  intros Hin. apply Hn. apply in_map_iff in Hin.
  destruct Hin as [e' [He' Hin]]. apply filter_In in Hin.
  rewrite <- He'. apply in_map, Hin.
Qed.

Lemma next_F_keys (np_exp : R -> R) (P : list TRow) (n : nat) (t : Z) :
  In t (map fst (next_F np_exp P n))
  <-> In t (distinct Z.eqb (map t_Target_ID P))
      /\ np_exp (logSumExp
                   (map t_post (filter (fun x => t_Target_ID x =? t) P))
                 - ln (INR n))%R <> 0%R.
Proof.
  rewrite in_map_iff. split.
  - intros [[t' v] [Ht He]]. cbn [fst] in Ht. subst t'.
    apply next_F_In in He. destruct He as [He Hv]. cbn [snd] in Hv.
    unfold maximize_with in He. apply in_map_iff in He.
    destruct He as [t' [Heq Ht']]. injection Heq as -> <-.
    split; assumption.
  - intros [Ht Hv].
    exists (t, np_exp (logSumExp
                         (map t_post (filter (fun x => t_Target_ID x =? t) P))
                       - ln (INR n))%R).
    split; [reflexivity |]. apply next_F_In. split; [| exact Hv].
    unfold maximize_with. apply in_map_iff. exists t.
    split; [reflexivity | exact Ht].
Qed.

(** X5.  The [F] that [EM_step] keeps has distinct targets, and they are
    exactly the targets of the previous [F] that have a row in the
    likelihood table and whose new mass is not 0, whatever [np.exp]
    returns: a step never adds a target, it removes those without a row
    and those whose mass is exactly 0. *)
Theorem EM_step_support_exact (rows : list LRow) (F : FVec)
  (Hpos : Forall (fun e : Z * R => (0 < snd e)%R) F) :
  let st := EM_step rows F in
  let n := List.length (P_tgr_sum st) in
  F_new st = next_F exp (P_tgr st) n
  /\ forall np_exp : R -> R,
       NoDup (map fst (next_F np_exp (P_tgr st) n))
       /\ forall t,
            In t (map fst (next_F np_exp (P_tgr st) n))
            <-> (In t (map fst F) /\ exists r, In r rows /\ Target_ID r = t)
                /\ np_exp (logSumExp
                             (map t_post
                                (filter (fun x => t_Target_ID x =? t)
                                   (P_tgr st)))
                           - ln (INR n))%R <> 0%R.
Proof.
  intros st n. split; [reflexivity |]. intros np_exp. split.
  - unfold next_F, drop_zero. apply NoDup_keys_filter.
    rewrite maximize_with_keys. apply (distinct_NoDup Z.eqb Z.eqb_eq).
  - intros t. rewrite next_F_keys. unfold st.
    rewrite P_tgr_targets, <- F_new_targets, F_new_target_In. reflexivity.
Qed.

Lemma EM_step_support_exact_witness :
  Forall (fun e : Z * R => (0 < snd e)%R) sample_F
  /\ NoDup (map fst (F_new (EM_step sample_rows sample_F))).
Proof.
  assert (Hpos : Forall (fun e : Z * R => (0 < snd e)%R) sample_F).
  { repeat constructor; cbn [snd]; lra. }
  split; [exact Hpos |].
  exact (proj1 (proj2 (EM_step_support_exact sample_rows sample_F Hpos) exp)).
Defined.

Lemma logSumExp_single (x : R) : logSumExp [x] = x.
Proof.
  rewrite logSumExp_ln by discriminate.
  cbn [map]. rewrite Rsum_cons. cbn [Rsum fold_right].
  rewrite Rplus_0_r. apply ln_exp.
Qed.

Lemma distinct_constant (t : Z) (l : list Z) :
  l <> [] -> (forall x, In x l -> x = t) -> distinct Z.eqb l = [t].
Proof.
  induction l as [| x l IH]; intros Hne Hall; [congruence |].
  cbn [distinct]. assert (Hx : x = t) by (apply Hall; left; reflexivity).
  subst x. destruct l as [| y l].
  - reflexivity.
  - assert (Hy : y = t) by (apply Hall; right; left; reflexivity). subst y.
    cbn [existsb]. rewrite Z.eqb_refl. cbn [orb].
    apply IH; [discriminate |]. intros x Hx. apply Hall. right. exact Hx.
Qed.

Lemma one_target_step (rows : list LRow) (F : FVec) (t : Z) :
  merge_F rows F <> [] ->
  (forall r, In r rows -> In (Target_ID r) (map fst F) -> Target_ID r = t) ->
  F_new (EM_step rows F) = [(t, 1%R)].
Proof.
  intros Hsupp Hone.
  assert (Hkeys : map fst (F_new (EM_step rows F)) = [t]).
  { rewrite F_new_targets. apply distinct_constant.
    - intros He. apply map_eq_nil in He. exact (Hsupp He).
    - intros x Hx. apply in_map_iff in Hx. destruct Hx as [[r v] [<- Hin]].
      cbn [fst]. apply merge_F_In in Hin. destruct Hin as [Hr HF].
      apply (Hone r Hr). apply in_map_iff.
      exists (Target_ID r, v). split; [reflexivity | exact HF]. }
  pose proof (EM_step_sum rows F Hsupp) as Hsum.
  destruct (F_new (EM_step rows F)) as [| [t' v] [| e l]];
    cbn [map fst] in Hkeys; try discriminate.
  injection Hkeys as ->. cbn [map snd] in Hsum.
  rewrite Rsum_cons in Hsum. cbn [Rsum fold_right] in Hsum.
  f_equal. f_equal. lra.
Qed.

(** X6.  When all rows of the table whose target is in the support of
    [F] have one and the same target, one [EM_step] gives that target
    the whole mass: [F] becomes [{t: 1}]. *)
Theorem single_candidate_step (rows : list LRow) (F : FVec) (t : Z)
  (Hpos : Forall (fun e : Z * R => (0 < snd e)%R) F)
  (Hsupp : merge_F rows F <> [])
  (Hone : forall r, In r rows -> In (Target_ID r) (map fst F) ->
                    Target_ID r = t) :
  F_new (EM_step rows F) = [(t, 1%R)].
Proof. exact (one_target_step rows F t Hsupp Hone). Qed.

Lemma single_target_step_fixed :
  F_new (EM_step single_target_rows single_target_F) = single_target_F.
Proof.
  apply one_target_step.
  - discriminate.
  - intros r [<- | []] _. reflexivity.
Qed.

Lemma single_candidate_step_witness :
  Forall (fun e : Z * R => (0 < snd e)%R) single_target_F
  /\ merge_F single_target_rows single_target_F <> []
  /\ F_new (EM_step single_target_rows single_target_F) = [(42, 1%R)].
Proof.
  assert (Hpos : Forall (fun e : Z * R => (0 < snd e)%R) single_target_F).
  { repeat constructor; cbn [snd]; lra. }
  assert (Hsupp : merge_F single_target_rows single_target_F <> [])
    by discriminate.
  split; [exact Hpos |]. split; [exact Hsupp |].
  apply (single_candidate_step single_target_rows single_target_F 42 Hpos Hsupp).
  intros r [<- | []] _. reflexivity.
Defined.

(** ** The reported abundance vector *)

Lemma F_iter_targets_in_rows (rows : list LRow) (F0 : FVec) (k : nat) (t : Z) :
  (1 <= k)%nat -> In t (map fst (F_iter rows F0 k)) ->
  exists r, In r rows /\ Target_ID r = t.
Proof.
  destruct k as [| k]; [lia | intros _]. cbn [F_iter].
  intros H. apply F_new_target_In in H. apply H.
Qed.

Lemma F_iter_pos (rows : list LRow) (F0 : FVec) (k : nat) :
  (1 <= k)%nat ->
  Forall (fun e : Z * R => (0 < snd e)%R) (F_iter rows F0 k).
Proof.
  destruct k as [| k]; [lia | intros _]. cbn [F_iter]. apply EM_step_pos.
Qed.

(** X7.  When the loop of [EM_complete] returns and at least one entry
    of [F] is at or above the low-abundance threshold, the reported
    [final_F] sums to 1, and each of its targets had an entry at or
    above the threshold in the converged [F]. *)
Theorem final_F_distribution (fuel : nat) (rows : list LRow) (thr : R)
  (F0 : FVec) (res : EMResult)
  (Hret : EM_loop fuel rows thr F0 NegInf 1 = Some res)
  (Hkept : filter (fun e : Z * R => if Rle_dec thr (snd e) then true else false)
                  (F_last res) <> []) :
  Rsum (map snd (final_F res)) = 1%R
  /\ (forall t, In t (map fst (final_F res)) ->
                exists v, In (t, v) (F_last res) /\ (thr <= v)%R).
Proof.
  apply (EM_loop_from rows thr F0 fuel 1 res (le_n 1)) in Hret.
  destruct Hret as (Hk & [Hk2 _] & _ & Hlast & Hfinal).
  set (kept := filter (fun e : Z * R =>
                         if Rle_dec thr (snd e) then true else false)
                      (F_last res)) in *.
  assert (Hmeet : merge_F rows kept <> []).
  { destruct kept as [| [t v] l] eqn:Hk'; [congruence |].
    assert (Hin : In (t, v) kept) by (rewrite Hk'; left; reflexivity).
    unfold kept in Hin. apply filter_In in Hin. destruct Hin as [Hin _].
    rewrite Hlast in Hin.
    destruct (F_iter_targets_in_rows rows F0 (iterations res) t ltac:(lia)
                (in_map fst _ _ Hin)) as [r [Hr Ht]].
    intros He.
    assert (Hx : In (r, v) (merge_F rows ((t, v) :: l))).
    { apply merge_F_In. split; [exact Hr |]. rewrite Ht. left. reflexivity. }
    rewrite He in Hx. exact Hx. }
  rewrite Hfinal. split.
  - apply EM_step_sum, Hmeet.
  - intros t Ht. apply F_new_target_In in Ht. destruct Ht as [Ht _].
    apply in_map_iff in Ht. destruct Ht as [[t' v] [Heq Hin]].
    cbn [fst] in Heq. subst t'. unfold kept in Hin.
    apply filter_In in Hin. destruct Hin as [Hin Hv]. cbn [snd] in Hv.
    exists v. split; [exact Hin |].
    destruct (Rle_dec thr v); [assumption | discriminate].
Qed.

Lemma single_target_loop :
  EM_loop 2 single_target_rows 1 single_target_F NegInf 1
  = Some {| iterations := 2;
            F_last := F_iter single_target_rows single_target_F 2;
            final_F :=
              F_new (EM_step single_target_rows
                       (filter (fun e : Z * R =>
                                  if Rle_dec 1 (snd e) then true else false)
                               (F_iter single_target_rows single_target_F 2))) |}.
Proof.
  apply (EM_loop_from single_target_rows 1 single_target_F 2 1 _ (le_n 1)).
  cbn [iterations F_last final_F].
  assert (H1 : F_iter single_target_rows single_target_F 1 = single_target_F)
    by apply single_target_step_fixed.
  assert (Hl : forall k, (1 <= k <= 2)%nat ->
                         lli_iter single_target_rows single_target_F k = 0%R).
  { intros k Hk. unfold lli_iter.
    assert (HF : F_iter single_target_rows single_target_F (k - 1)
                 = single_target_F).
    { destruct k as [| [| [| k]]]; try lia; [reflexivity | exact H1]. }
    rewrite HF. unfold compute_loglikelihood.
    change (map t_joint_sum
              (P_tgr (EM_step single_target_rows single_target_F)))
      with [logSumExp [(0 + ln 1)%R]].
    rewrite logSumExp_single. cbn. rewrite ln_1. lra. }
  split; [lia |]. split.
  - split; [lia |]. replace (2 - 1)%nat with 1%nat by reflexivity.
    rewrite !Hl by lia. unfold lli_threshold. lra.
  - split; [intros j Hj [Hj2 _]; lia |]. split; reflexivity.
Qed.

Lemma final_F_distribution_witness :
  exists res,
    EM_loop 2 single_target_rows 1 single_target_F NegInf 1 = Some res
    /\ filter (fun e : Z * R => if Rle_dec 1 (snd e) then true else false)
              (F_last res) <> []
    /\ Rsum (map snd (final_F res)) = 1%R.
Proof.
  eexists. split; [exact single_target_loop |].
  cbn [F_last final_F].
  assert (Hkept : filter (fun e : Z * R =>
                            if Rle_dec 1 (snd e) then true else false)
                         (F_iter single_target_rows single_target_F 2) <> []).
  { cbn [F_iter]. rewrite !single_target_step_fixed.
    cbn [single_target_F filter snd].
    destruct (Rle_dec 1 1); [discriminate | lra]. }
  split; [exact Hkept |].
  exact (proj1 (final_F_distribution 2 single_target_rows 1 single_target_F
                  _ single_target_loop Hkept)).
Defined.

(** ** The initial abundance vector *)

(** X8.  [init_F] raises ZeroDivisionError on an empty taxonomy; on any
    other it gives every identifier of the taxonomy, in order, the
    same mass [1 / len], and these masses sum to 1. *)
Theorem init_F_distribution (tax_ids : list Z) :
  (tax_ids = [] -> init_F tax_ids = Raise ZeroDivisionError)
  /\ (tax_ids <> [] ->
      exists F,
        init_F tax_ids = Ok F
        /\ map fst F = tax_ids
        /\ (forall e, In e F -> snd e = (1 / INR (List.length tax_ids))%R)
        /\ Rsum (map snd F) = 1%R).
Proof.
  split; [intros ->; reflexivity |].
  intros Hne. unfold init_F.
  destruct tax_ids as [| t ids] eqn:Hids; [congruence |].
  rewrite <- Hids. eexists. split; [reflexivity |].
  assert (Hlen : INR (List.length tax_ids) <> 0%R).
  { apply not_0_INR. rewrite Hids. discriminate. }
  split; [| split].
  - rewrite map_map. cbn [fst]. apply map_id.
  - intros e He. apply in_map_iff in He. destruct He as [x [<- _]].
    reflexivity.
  - rewrite map_map. cbn [snd].
    rewrite (map_ext _ (fun _ => (/ INR (List.length tax_ids) * 1)%R)).
    + rewrite Rsum_scale, Rsum_const. field. exact Hlen.
    + intros _. unfold Rdiv. ring.
Qed.

(** ** The fixed-cost scorer *)

Section FixedScorer.

Local Open Scope R_scope.

Variable fixed_op_cost : list (Z * R).

(** The charge of one run. *)
Let charge (r : Run) : result R :=
  c <- of_option KeyError (dict_get fixed_op_cost (fst r)) ;;
  Ok (ln c * IZR (snd r)).

Lemma fold_Rplus_Rsum (l : list R) :
  forall acc, fold_left Rplus l acc = acc + Rsum l.
Proof.
  induction l as [| x l IH]; intros acc; cbn [fold_left].
  - cbn. ring.
  - rewrite IH, Rsum_cons. ring.
Qed.

Lemma map_result_app {A B : Type} (f : A -> result B) (l1 l2 : list A) :
  map_result f (l1 ++ l2)
  = ys1 <- map_result f l1 ;; ys2 <- map_result f l2 ;; Ok (ys1 ++ ys2).
Proof.
  induction l1 as [| x l1 IH]; cbn [app map_result bind].
  - destruct (map_result f l2); reflexivity.
  - destruct (f x) as [y | e]; cbn [bind]; [| reflexivity].
    rewrite IH. destruct (map_result f l1) as [ys1 | e]; cbn [bind];
      [| reflexivity].
    destruct (map_result f l2); reflexivity.
Qed.

Lemma Rsum_app (l1 l2 : list R) : Rsum (l1 ++ l2) = Rsum l1 + Rsum l2.
Proof.
  induction l1 as [| x l1 IH]; cbn [app]; [cbn; ring |].
  rewrite !Rsum_cons, IH. ring.
Qed.

Lemma Rsum_Permutation (l1 l2 : list R) :
  Permutation l1 l2 -> Rsum l1 = Rsum l2.
Proof.
  induction 1 as [| x l1 l2 _ IH | x y l | l1 l2 l3 _ IH1 _ IH2].
  - reflexivity.
  - rewrite !Rsum_cons, IH. reflexivity.
  - rewrite !Rsum_cons. ring.
  - rewrite IH1. exact IH2.
Qed.

Lemma score_cigar_fixed_eq (cigar : Cigar) :
  score_cigar_fixed cigar fixed_op_cost
  = terms <- map_result charge cigar ;; Ok (Rsum terms).
Proof.
  unfold score_cigar_fixed. fold charge.
  destruct (map_result charge cigar) as [terms | e]; cbn [bind];
    [| reflexivity].
  rewrite fold_Rplus_Rsum. f_equal. ring.
Qed.

Lemma map_result_keys (cigar : Cigar) :
  (exists terms, map_result charge cigar = Ok terms)
  <-> Forall (fun r : Run => dict_get fixed_op_cost (fst r) <> None) cigar.
Proof.
  induction cigar as [| r cigar IH]; cbn [map_result].
  - split; [constructor | intros _; eexists; reflexivity].
  - unfold charge at 1.
    destruct (dict_get fixed_op_cost (fst r)) as [c |] eqn:Hc;
      cbn [of_option bind].
    + split.
      * intros [terms H]. constructor; [congruence |]. apply IH.
        destruct (map_result charge cigar) as [ys | e]; [| discriminate].
        eexists. reflexivity.
      * intros H. inversion H as [| ? ? _ Hrest]; subst.
        apply IH in Hrest. destruct Hrest as [ys ->]. eexists. reflexivity.
    + split; [intros [terms H]; discriminate |].
      intros H. inversion H as [| ? ? Hr _]; subst. congruence.
Qed.

Lemma map_result_raise_KeyError (cigar : Cigar) (e : exn) :
  map_result charge cigar = Raise e -> e = KeyError.
Proof.
  induction cigar as [| r cigar IH]; cbn [map_result]; [discriminate |].
  unfold charge at 1.
  destruct (dict_get fixed_op_cost (fst r)); cbn [of_option bind];
    [| congruence].
  destruct (map_result charge cigar) as [ys | e']; cbn [bind];
    [discriminate |].
  intros H. injection H as <-. apply IH. reflexivity.
Qed.

Lemma map_result_Permutation (c1 c2 : Cigar) :
  Permutation c1 c2 ->
  forall t1, map_result charge c1 = Ok t1 ->
             exists t2, map_result charge c2 = Ok t2 /\ Permutation t1 t2.
Proof.
  induction 1 as [| x l1 l2 _ IH | x y l | l1 l2 l3 _ IH1 _ IH2];
    intros t1; cbn [map_result].
  - intros H. exists t1. split; [exact H | apply Permutation_refl].
  - destruct (charge x) as [v |]; cbn [bind]; [| discriminate].
    destruct (map_result charge l1) as [ys |]; cbn [bind]; [| discriminate].
    intros H. injection H as <-. destruct (IH ys eq_refl) as [zs [-> Hp]].
    cbn [bind]. eexists. split; [reflexivity | constructor; exact Hp].
  - destruct (charge y) as [vy |]; cbn [bind]; [| discriminate].
    destruct (charge x) as [vx |]; cbn [bind]; [| discriminate].
    destruct (map_result charge l) as [ys |]; cbn [bind]; [| discriminate].
    intros H. injection H as <-. eexists. split; [reflexivity | constructor].
  - intros H. destruct (IH1 t1 H) as [t2 [H2 Hp2]].
    destruct (IH2 t2 H2) as [t3 [H3 Hp3]].
    exists t3. split; [exact H3 | eapply Permutation_trans; eassumption].
Qed.

Lemma ln_nonpos (x : R) : 0 < x <= 1 -> ln x <= 0.
Proof.
  intros [H0 [H1 | ->]]; [| rewrite ln_1; lra].
  rewrite <- ln_1. left. apply ln_increasing; assumption.
Qed.

Lemma charges_nonpos (cigar : Cigar) :
  (forall k c, dict_get fixed_op_cost k = Some c -> 0 < c <= 1) ->
  Forall (fun r : Run => (0 <= snd r)%Z) cigar ->
  forall terms, map_result charge cigar = Ok terms -> Rsum terms <= 0.
Proof.
  intros Hcost. induction 1 as [| r cigar Hr _ IH]; intros terms;
    cbn [map_result].
  - intros H. injection H as <-. cbn. lra.
  - unfold charge at 1.
    destruct (dict_get fixed_op_cost (fst r)) as [c |] eqn:Hc;
      cbn [of_option bind]; [| discriminate].
    destruct (map_result charge cigar) as [ys |]; cbn [bind];
      [| discriminate].
    intros H. injection H as <-. rewrite Rsum_cons.
    specialize (IH ys eq_refl).
    pose proof (ln_nonpos c (Hcost _ _ Hc)) as Hln.
    assert (0 <= IZR (snd r)) by (apply IZR_le; exact Hr).
    nra.
Qed.

End FixedScorer.

(** X9.  [score_cigar_fixed] returns a score exactly when every
    operation of the CIGAR is a key of the model, and the only
    exception it raises is KeyError; with the constant table of the
    default mode a CIGAR holding an operation 3 (N), 6 (P) or 9 (B)
    raises it. *)
Theorem score_cigar_fixed_keys (cigar : Cigar) (fixed_op_cost : list (Z * R)) :
  ((exists v, score_cigar_fixed cigar fixed_op_cost = Ok v)
   <-> Forall (fun r : Run => dict_get fixed_op_cost (fst r) <> None) cigar)
  /\ (forall e, score_cigar_fixed cigar fixed_op_cost = Raise e -> e = KeyError)
  /\ (forall r, In r cigar -> In (fst r) [3; 6; 9] ->
                score_cigar_fixed cigar (costs_as_real fixed_cigar_table)
                = Raise KeyError).
Proof.
  split; [| split].
  - rewrite score_cigar_fixed_eq, <- map_result_keys. split.
    + intros [v H]. destruct (map_result _ cigar) as [t |]; [| discriminate].
      eexists. reflexivity.
    + intros [t ->]. eexists. reflexivity.
  - intros e. rewrite score_cigar_fixed_eq.
    destruct (map_result _ cigar) as [t | e'] eqn:H; cbn [bind];
      [discriminate |].
    intros H'. injection H' as <-.
    apply (map_result_raise_KeyError fixed_op_cost cigar e' H).
  - intros r Hr Hop.
    destruct (score_cigar_fixed cigar (costs_as_real fixed_cigar_table))
      as [v | e] eqn:Hs.
    + exfalso.
      assert (Hall : Forall (fun r : Run =>
                  dict_get (costs_as_real fixed_cigar_table) (fst r) <> None)
                cigar).
      { apply (map_result_keys (costs_as_real fixed_cigar_table)).
        rewrite score_cigar_fixed_eq in Hs.
        destruct (map_result _ cigar) as [t |]; [| discriminate].
        eexists. reflexivity. }
      rewrite Forall_forall in Hall. apply (Hall r Hr).
      destruct Hop as [<- | [<- | [<- | []]]]; reflexivity.
    + f_equal. rewrite score_cigar_fixed_eq in Hs.
      destruct (map_result _ cigar) as [t | e'] eqn:H; cbn [bind] in Hs;
        [discriminate |].
      injection Hs as <-.
      apply (map_result_raise_KeyError _ cigar e' H).
Qed.

(** X10.  The fixed-cost score is additive and insensitive to order:
    the score of a concatenation is the sum of the scores, and a CIGAR
    with the same runs in another order has the same score. *)
Theorem score_cigar_fixed_additive (c1 c2 : Cigar)
  (fixed_op_cost : list (Z * R)) (v1 v2 : R)
  (H1 : score_cigar_fixed c1 fixed_op_cost = Ok v1)
  (H2 : score_cigar_fixed c2 fixed_op_cost = Ok v2) :
  score_cigar_fixed (c1 ++ c2) fixed_op_cost = Ok (v1 + v2)%R
  /\ (forall c3, Permutation c1 c3 ->
                 score_cigar_fixed c3 fixed_op_cost = Ok v1).
Proof.
  rewrite score_cigar_fixed_eq in *. split.
  - rewrite map_result_app.
    destruct (map_result _ c1) as [t1 |]; cbn [bind] in *; [| discriminate].
    destruct (map_result _ c2) as [t2 |]; cbn [bind] in *; [| discriminate].
    injection H1 as <-. injection H2 as <-. rewrite Rsum_app. reflexivity.
  - intros c3 Hp. rewrite score_cigar_fixed_eq.
    destruct (map_result _ c1) as [t1 |] eqn:Ht1; cbn [bind] in *;
      [| discriminate].
    injection H1 as <-.
    destruct (map_result_Permutation fixed_op_cost c1 c3 Hp t1 Ht1)
      as [t3 [-> Hp3]].
    cbn [bind]. f_equal. symmetry. apply Rsum_Permutation, Hp3.
Qed.

(** X11.  With costs in (0, 1] and run lengths at least 0, the
    fixed-cost score is never positive. *)
Theorem score_cigar_fixed_nonpos (cigar : Cigar)
  (fixed_op_cost : list (Z * R)) (v : R)
  (Hcost : forall k c, dict_get fixed_op_cost k = Some c -> (0 < c <= 1)%R)
  (Hlen : Forall (fun r : Run => 0 <= snd r) cigar)
  (Hv : score_cigar_fixed cigar fixed_op_cost = Ok v) :
  (v <= 0)%R.
Proof.
  rewrite score_cigar_fixed_eq in Hv.
  destruct (map_result _ cigar) as [t |] eqn:Ht; cbn [bind] in Hv;
    [| discriminate].
  injection Hv as <-.
  apply (charges_nonpos fixed_op_cost cigar Hcost Hlen t Ht).
Qed.

Lemma fixed_table_costs (k : Z) (c : R) :
  dict_get (costs_as_real fixed_cigar_table) k = Some c -> (0 < c <= 1)%R.
Proof.
  unfold costs_as_real, fixed_cigar_table. cbn [map dict_get fst snd].
  repeat (destruct (k =? _);
          [intros H; injection H as <-; unfold Q2R; cbn; lra |]).
  discriminate.
Qed.

Lemma score_cigar_fixed_additive_witness :
  score_cigar_fixed [(7, 10); (1, 3)] (costs_as_real fixed_cigar_table)
  = Ok (ln (Q2R 1) * 10 + (ln (Q2R (5 # 1000)) * 3 + 0))%R
  /\ score_cigar_fixed [(2, 1)] (costs_as_real fixed_cigar_table)
     = Ok (ln (Q2R (5 # 1000)) * 1 + 0)%R
  /\ score_cigar_fixed ([(7, 10); (1, 3)] ++ [(2, 1)])
       (costs_as_real fixed_cigar_table)
     = Ok (ln (Q2R 1) * 10 + (ln (Q2R (5 # 1000)) * 3 + 0)
           + (ln (Q2R (5 # 1000)) * 1 + 0))%R.
Proof.
  assert (H1 : score_cigar_fixed [(7, 10); (1, 3)]
                 (costs_as_real fixed_cigar_table)
               = Ok (ln (Q2R 1) * 10 + (ln (Q2R (5 # 1000)) * 3 + 0))%R).
  { rewrite score_cigar_fixed_eq. reflexivity. }
  assert (H2 : score_cigar_fixed [(2, 1)] (costs_as_real fixed_cigar_table)
               = Ok (ln (Q2R (5 # 1000)) * 1 + 0)%R).
  { rewrite score_cigar_fixed_eq. reflexivity. }
  split; [exact H1 |]. split; [exact H2 |].
  exact (proj1 (score_cigar_fixed_additive _ _ _ _ _ H1 H2)).
Defined.

Lemma score_cigar_fixed_nonpos_witness :
  (forall k c, dict_get (costs_as_real fixed_cigar_table) k = Some c ->
               (0 < c <= 1)%R)
  /\ Forall (fun r : Run => 0 <= snd r) [(2, 1)]
  /\ (ln (Q2R (5 # 1000)) * 1 + 0 <= 0)%R.
Proof.
  assert (Hlen : Forall (fun r : Run => 0 <= snd r) [(2, 1)]).
  { repeat constructor. cbn. lia. }
  assert (Hv : score_cigar_fixed [(2, 1)] (costs_as_real fixed_cigar_table)
               = Ok (ln (Q2R (5 # 1000)) * 1 + 0)%R).
  { rewrite score_cigar_fixed_eq. reflexivity. }
  split; [exact fixed_table_costs |]. split; [exact Hlen |].
  exact (score_cigar_fixed_nonpos _ _ _ fixed_table_costs Hlen Hv).
Defined.

(** ** Boundary soft clips *)

Lemma combine_seq_app {A : Type} (l1 l2 : list A) :
  forall k,
    combine (seq k (List.length (l1 ++ l2))) (l1 ++ l2)
    = combine (seq k (List.length l1)) l1
      ++ combine (seq (k + List.length l1) (List.length l2)) l2.
Proof.
  induction l1 as [| x l1 IH]; intros k; cbn [app List.length seq combine].
  - rewrite Nat.add_0_r. reflexivity.
  - rewrite IH. replace (S k + List.length l1)%nat with (k + S (List.length l1))%nat by lia.
    reflexivity.
Qed.

(** A filter on positions and runs that, on this stretch, depends on
    the run alone. *)
Lemma filter_enum_pointwise (p : nat -> Run -> bool) (q : Run -> bool) :
  forall (l : list Run) (k : nat),
    (forall i x, nth_error l i = Some x -> p (k + i)%nat x = q x) ->
    map snd (filter (fun it : nat * Run => p (fst it) (snd it))
                    (combine (seq k (List.length l)) l))
    = filter q l.
Proof.
  induction l as [| x l IH]; intros k Hpq; [reflexivity |].
  cbn [List.length seq combine filter fst snd].
  pose proof (Hpq 0%nat x eq_refl) as H0. rewrite Nat.add_0_r in H0.
  rewrite H0.
  assert (Hrest : map snd (filter (fun it : nat * Run => p (fst it) (snd it))
                                  (combine (seq (S k) (List.length l)) l))
                  = filter q l).
  { apply IH. intros i y Hy. replace (S k + i)%nat with (k + S i)%nat by lia.
    apply Hpq. exact Hy. }
  destruct (q x); cbn [map snd]; rewrite Hrest; reflexivity.
Qed.

Lemma kept_runs_unclipped (ops : list Z) (cigar : Cigar) :
  Forall (fun r : Run => fst r <> SOFT_CLIP) cigar ->
  map snd
    (filter (fun it : nat * Run =>
               negb (boundary_clip (List.length cigar) (fst it) (fst (snd it)))
               && mem_Z (fst (snd it)) ops)
            (enumerate cigar))
  = filter (fun r : Run => mem_Z (fst r) ops) cigar.
Proof.
  intros Hno. unfold enumerate.
  apply (filter_enum_pointwise
           (fun i x => negb (boundary_clip (List.length cigar) i (fst x))
                       && mem_Z (fst x) ops)
           (fun r => mem_Z (fst r) ops)).
  intros i x Hx. apply nth_error_In in Hx.
  rewrite Forall_forall in Hno. specialize (Hno x Hx).
  unfold boundary_clip. destruct (Z.eqb_spec (fst x) SOFT_CLIP);
    [contradiction |]. rewrite andb_false_r. reflexivity.
Qed.

Lemma kept_runs_soft_clipped (ops : list Z) (a b : Z) (cigar : Cigar) :
  map snd
    (filter (fun it : nat * Run =>
               negb (boundary_clip (List.length (soft_clipped a b cigar))
                       (fst it) (fst (snd it)))
               && mem_Z (fst (snd it)) ops)
            (enumerate (soft_clipped a b cigar)))
  = filter (fun r : Run => mem_Z (fst r) ops) cigar.
Proof.
  unfold enumerate, soft_clipped. cbn [List.length seq combine].
  rewrite combine_seq_app, length_app. cbn [List.length seq combine].
  set (N := S (List.length cigar + 1)).
  cbn [filter fst snd].
  assert (H0 : boundary_clip N 0 SOFT_CLIP = true).
  { unfold boundary_clip. rewrite Z.eqb_refl. reflexivity. }
  rewrite H0. cbn [negb andb]. rewrite filter_app, map_app.
  cbn [filter fst snd].
  assert (Hlast : boundary_clip N (1 + List.length cigar) SOFT_CLIP = true).
  { unfold boundary_clip. rewrite Z.eqb_refl, andb_true_r.
    apply orb_true_iff. right. apply Z.eqb_eq. unfold N. lia. }
  rewrite Hlast. cbn [negb andb map]. rewrite app_nil_r.
  apply (filter_enum_pointwise
           (fun i x => negb (boundary_clip N i (fst x)) && mem_Z (fst x) ops)
           (fun r => mem_Z (fst r) ops)).
  intros i x Hx.
  assert (Hi : (i < List.length cigar)%nat).
  { apply nth_error_Some. congruence. }
  unfold boundary_clip.
  replace ((1 + i =? 0)%nat) with false by reflexivity.
  destruct (Z.eqb_spec (Z.of_nat (1 + i)) (Z.of_nat N - 1));
    [unfold N in *; lia |].
  reflexivity.
Qed.

(** The loops of the scorer and of the builder read their input only
    through the runs that pass their filter. *)
Lemma score_fold_kept (T : Z -> Z -> R) (N : nat) :
  forall (items : list (nat * Run)) (st : option Z * R),
    fold_left (score_run T N) items st
    = fold_left (fun s r => score_run T 0 s (1%nat, r))
        (map snd (filter (fun it : nat * Run =>
                            negb (boundary_clip N (fst it) (fst (snd it)))
                            && mem_Z (fst (snd it)) SCORED_OPS) items))
        st.
Proof.
  induction items as [| [i [OP L]] items IH]; intros [prev acc];
    [reflexivity |].
  cbn [fold_left filter fst snd]. rewrite IH.
  unfold score_run at 2.
  destruct (negb (boundary_clip N i OP)); cbn [andb]; [| reflexivity].
  destruct (mem_Z OP SCORED_OPS) eqn:Hm; [| reflexivity].
  cbn [map snd fold_left]. unfold score_run at 3.
  replace (boundary_clip 0 1 OP) with false by reflexivity.
  cbn [negb]. rewrite Hm. reflexivity.
Qed.

Lemma count_fold_kept (N : nat) :
  forall (items : list (nat * Run)) (st : Mat * option Z),
    fold_left (count_run N) items st
    = fold_left (fun s r => count_run 0 s (1%nat, r))
        (map snd (filter (fun it : nat * Run =>
                            negb (boundary_clip N (fst it) (fst (snd it)))
                            && mem_Z (fst (snd it)) CIGAR_OPS_INT) items))
        st.
Proof.
  induction items as [| [i [OP L]] items IH]; intros [M prev];
    [reflexivity |].
  cbn [fold_left filter fst snd]. rewrite IH.
  unfold count_run at 2.
  destruct (negb (boundary_clip N i OP)); cbn [andb]; [| reflexivity].
  destruct (mem_Z OP CIGAR_OPS_INT) eqn:Hm; [| reflexivity].
  cbn [map snd fold_left]. unfold count_run at 3.
  replace (boundary_clip 0 1 OP) with false by reflexivity.
  cbn [negb]. rewrite Hm. reflexivity.
Qed.

(** X12.  Soft-clipped overhangs do not count: for a CIGAR without
    soft clips, adding a soft clip of any length at both ends changes
    neither its Markov score, for any model, nor what it adds to the
    count frame of the model builder. *)
Theorem soft_clips_at_ends_ignored (a b : Z) (cigar : Cigar)
  (Hno : Forall (fun r : Run => fst r <> SOFT_CLIP) cigar) :
  (forall T, score_cigar_markov (soft_clipped a b cigar) T
             = score_cigar_markov cigar T)
  /\ (forall M, count_cigar M (soft_clipped a b cigar) = count_cigar M cigar).
Proof.
  split.
  - intros T. unfold score_cigar_markov, score_loop.
    rewrite !score_fold_kept, kept_runs_soft_clipped,
      (kept_runs_unclipped SCORED_OPS cigar Hno).
    reflexivity.
  - intros M. unfold count_cigar.
    rewrite !count_fold_kept, kept_runs_soft_clipped,
      (kept_runs_unclipped CIGAR_OPS_INT cigar Hno).
    reflexivity.
Qed.

Lemma soft_clips_at_ends_ignored_witness :
  Forall (fun r : Run => fst r <> SOFT_CLIP) [(7, 10); (8, 1); (7, 20)]
  /\ score_cigar_markov [(4, 5); (7, 10); (8, 1); (7, 20); (4, 3)] diagonal_T
     = score_cigar_markov [(7, 10); (8, 1); (7, 20)] diagonal_T.
Proof.
  assert (Hno : Forall (fun r : Run => fst r <> SOFT_CLIP)
                  [(7, 10); (8, 1); (7, 20)]).
  { repeat constructor; cbn; discriminate. }
  split; [exact Hno |].
  exact (proj1 (soft_clips_at_ends_ignored 5 3 _ Hno) diagonal_T).
Defined.

(** ** Signs of the Markov score *)

Section MarkovSign.

Local Open Scope R_scope.

Variable T : Z -> Z -> R.

Lemma fixed_cost_scored (OP : Z) :
  mem_Z OP SCORED_OPS = true -> 0 < fixed_cost OP <= 1.
Proof.
  unfold mem_Z, SCORED_OPS. cbn [existsb]. intros H.
  repeat (apply orb_prop in H; destruct H as [H | H];
          [apply Z.eqb_eq in H; subst OP; unfold fixed_cost; cbn; lra |]).
  discriminate.
Qed.

Lemma spec_markov_nonpos (Hprob : forall a b, 0 <= T a b <= 1) :
  forall (rs : list Run) (prev : option Z),
    Forall (fun r : Run => (1 <= snd r)%Z
                           /\ mem_Z (fst r) SCORED_OPS = true) rs ->
    spec_markov T prev rs <= 0.
Proof.
  induction rs as [| r rs IH]; intros prev Hall; cbn [spec_markov]; [lra |].
  inversion Hall as [| ? ? [HL Hop] Hrest]; subst.
  specialize (IH (Some (fst r)) Hrest).
  assert (Hself : self_term T r <= 0).
  { unfold self_term. assert (0 <= IZR (snd r) - 1).
    { apply IZR_le in HL. lra. }
    destruct (Rlt_dec 0 (T (fst r) (fst r))) as [Hp | _].
    - pose proof (ln_nonpos _ (conj Hp (proj2 (Hprob (fst r) (fst r))))).
      nra.
    - pose proof (ln_nonpos _ (fixed_cost_scored (fst r) Hop)). nra. }
  assert (Hpair : pair_term T prev r <= 0).
  { unfold pair_term. destruct prev as [p |]; [| lra].
    destruct (Req_dec_T (T p (fst r)) 0) as [_ | Hnz]; [lra |].
    apply ln_nonpos. destruct (Hprob p (fst r)). lra. }
  lra.
Qed.

Lemma scored_runs_ops (cigar : Cigar) :
  Forall (fun r : Run => (1 <= snd r)%Z) cigar ->
  Forall (fun r : Run => (1 <= snd r)%Z /\ mem_Z (fst r) SCORED_OPS = true)
         (scored_runs cigar).
Proof.
  intros Hlen. apply Forall_forall. intros r Hr. unfold scored_runs in Hr.
  apply in_map_iff in Hr. destruct Hr as [[i r'] [<- Hin]]. cbn [snd].
  apply filter_In in Hin. destruct Hin as [Hin Hkeep]. cbn [fst snd] in Hkeep.
  apply andb_true_iff in Hkeep. destruct Hkeep as [_ Hop].
  split; [| exact Hop]. rewrite Forall_forall in Hlen. apply Hlen.
  unfold enumerate in Hin. apply in_combine_r in Hin. exact Hin.
Qed.

Lemma score_as_spec (cigar : Cigar) (Hnn : forall a, 0 <= T a a) :
  score_cigar_markov cigar T = spec_markov T None (scored_runs cigar).
Proof.
  unfold score_cigar_markov, score_loop, scored_runs, enumerate.
  rewrite (score_fold_enum T (List.length cigar) Hnn). apply Rplus_0_l.
Qed.

End MarkovSign.

(** X13.  With a model whose entries are between 0 and 1 and run
    lengths at least 1, the Markov score is never positive. *)
Theorem score_cigar_markov_nonpos (T : Z -> Z -> R) (cigar : Cigar)
  (Hprob : forall a b, (0 <= T a b <= 1)%R)
  (Hlen : Forall (fun r : Run => 1 <= snd r) cigar) :
  (score_cigar_markov cigar T <= 0)%R.
Proof.
  rewrite score_as_spec by (intros a; apply Hprob).
  apply spec_markov_nonpos; [exact Hprob | apply scored_runs_ops, Hlen].
Qed.

Lemma score_cigar_markov_nonpos_witness :
  (forall a b, (0 <= diagonal_T a b <= 1)%R)
  /\ Forall (fun r : Run => 1 <= snd r) [(7, 10); (8, 1); (7, 20)]
  /\ (score_cigar_markov [(7, 10); (8, 1); (7, 20)]%Z diagonal_T <= 0)%R.
Proof.
  assert (Hprob : forall a b, (0 <= diagonal_T a b <= 1)%R).
  { intros a b. unfold diagonal_T. destruct (a =? b); lra. }
  assert (Hlen : Forall (fun r : Run => 1 <= snd r)
                   [(7, 10); (8, 1); (7, 20)]).
  { repeat constructor; cbn; lia. }
  split; [exact Hprob |]. split; [exact Hlen |].
  exact (score_cigar_markov_nonpos diagonal_T _ Hprob Hlen).
Defined.

(** X14.  With a model that has no observation at all (every cell 0),
    the Markov score is the sum over the scored runs of
    [(L - 1) * log] of the fixed default of the operation: only the
    fallback constants are charged and transitions cost nothing. *)
Theorem score_cigar_markov_unobserved (cigar : Cigar) :
  score_cigar_markov cigar (fun _ _ => 0%R)
  = Rsum (map (fun r : Run => ((IZR (snd r) - 1) * ln (fixed_cost (fst r)))%R)
              (scored_runs cigar)).
Proof.
  rewrite score_as_spec by (intros a; apply Rle_refl).
  generalize (@None Z) as prev.
  induction (scored_runs cigar) as [| r rs IH]; intros prev; [reflexivity |].
  cbn [spec_markov map]. rewrite Rsum_cons, IH.
  unfold self_term, pair_term.
  destruct (Rlt_dec 0 0) as [H | _]; [exfalso; lra |].
  destruct prev as [p |]; [destruct (Req_dec_T 0 0) as [_ | H];
                           [| exfalso; apply H; reflexivity] |]; ring.
Qed.

(** ** The learned transition frame *)

Lemma retained_runs_ops (cigar : Cigar) (r : Run) :
  In r (retained_runs cigar) -> mem_Z (fst r) CIGAR_OPS_INT = true.
Proof.
  unfold retained_runs. intros H. apply in_map_iff in H.
  destruct H as [[i r'] [<- H]]. apply filter_In in H.
  destruct H as [_ H]. cbn [fst snd] in *. apply andb_true_iff in H. apply H.
Qed.

Lemma mem_Z_In (x : Z) (l : list Z) : mem_Z x l = true <-> In x l.
Proof.
  unfold mem_Z. rewrite existsb_exists. split.
  - intros [y [Hy Hxy]]. apply Z.eqb_eq in Hxy. subst. exact Hy.
  - intros H. exists x. split; [exact H | apply Z.eqb_refl].
Qed.

Lemma pair_count_absent (a b : Z) (rs : list Run) :
  (forall r, In r rs -> fst r <> b) ->
  forall prev, pair_count a b prev rs = 0.
Proof.
  induction rs as [| [op L] rs IH]; intros Hno prev; [reflexivity |].
  cbn [pair_count]. rewrite IH by (intros r Hr; apply Hno; right; exact Hr).
  assert (Hop : op <> b) by (apply (Hno (op, L)); left; reflexivity).
  destruct prev as [p |]; [| reflexivity].
  destruct (Z.eqb_spec op b); [contradiction |].
  rewrite andb_false_r. reflexivity.
Qed.

Lemma self_count_absent (a : Z) (rs : list Run) :
  (forall r, In r rs -> fst r <> a) -> self_count a rs = 0.
Proof.
  unfold self_count. induction rs as [| r rs IH]; intros Hno; [reflexivity |].
  cbn [map]. rewrite Zsum_cons, IH by (intros x Hx; apply Hno; right; exact Hx).
  destruct (Z.eqb_spec (fst r) a) as [He | _]; [| reflexivity].
  exfalso. apply (Hno r); [left; reflexivity | exact He].
Qed.

(** No count lands in a column outside the vocabulary. *)
Lemma spec_count_outside (cigars : list Cigar) (a b : Z) :
  ~ In b CIGAR_OPS_INT -> spec_count cigars a b = 0.
Proof.
  intros Hb. unfold spec_count.
  induction cigars as [| c cs IH]; [reflexivity |].
  cbn [map]. rewrite Zsum_cons, IH.
  assert (Hno : forall r, In r (retained_runs c) -> fst r <> b).
  { intros r Hr He. apply Hb. rewrite <- He.
    apply mem_Z_In, (retained_runs_ops c r Hr). }
  rewrite (pair_count_absent a b _ Hno None).
  destruct (Z.eqb_spec a b) as [-> | _]; [| reflexivity].
  rewrite (self_count_absent b _ Hno). reflexivity.
Qed.

Lemma cell_le_row_sum (T : Mat) (a b : Z) :
  (forall c, 0 <= T a c) -> In b frame_index -> T a b <= row_sum T a.
Proof.
  intros Hnn. unfold row_sum, frame_index, CIGAR_OPS_INT. cbn [app map].
  rewrite !Zsum_cons. change (Zsum []) with 0.
  pose proof (Hnn 0); pose proof (Hnn 1); pose proof (Hnn 2);
    pose proof (Hnn 7); pose proof (Hnn 8); pose proof (Hnn 5);
    pose proof (Hnn 4); pose proof (Hnn (-1)).
  intros [<- | [<- | [<- | [<- | [<- | [<- | [<- | [<- | []]]]]]]]]; lia.
Qed.

Lemma count_cell_bounds (cigars : list Cigar) (a b : Z) :
  Forall (Forall (fun r : Run => 1 <= snd r)) cigars ->
  0 <= count_cigars cigars a b <= row_sum (count_cigars cigars) a.
Proof.
  intros Hpos.
  assert (Hnn : forall c, 0 <= count_cigars cigars a c).
  { intros c. rewrite count_cigars_spec. apply spec_count_nonneg, Hpos. }
  split; [apply Hnn |].
  destruct (in_dec Z.eq_dec b CIGAR_OPS_INT) as [Hin | Hout].
  - apply cell_le_row_sum; [exact Hnn |]. unfold frame_index.
    apply in_or_app. left. exact Hin.
  - rewrite count_cigars_spec, (spec_count_outside cigars a b Hout).
    unfold row_sum, frame_index, CIGAR_OPS_INT. cbn [app map].
    rewrite !Zsum_cons. change (Zsum []) with 0.
    pose proof (Hnn 0); pose proof (Hnn 1); pose proof (Hnn 2);
      pose proof (Hnn 7); pose proof (Hnn 8); pose proof (Hnn 5);
      pose proof (Hnn 4); pose proof (Hnn (-1)). lia.
Qed.

Lemma transition_cell_bounds (cigars : list Cigar) (a b : Z) :
  Forall (Forall (fun r : Run => 1 <= snd r)) cigars ->
  exists q, build_transition_mat cigars a b = Some q /\ (0 <= q <= 1)%Q.
Proof.
  intros Hpos. destruct (count_cell_bounds cigars a b Hpos) as [H0 Hs].
  unfold build_transition_mat, div_fillna.
  destruct (Z.eqb_spec (row_sum (count_cigars cigars) a) 0) as [Hz | Hz].
  - assert (Hx : count_cigars cigars a b = 0) by lia. rewrite Hx.
    exists 0%Q. split; [reflexivity | split; [apply Qle_refl | discriminate]].
  - eexists. split; [reflexivity |].
    assert (Hsq : (0 < inject_Z (row_sum (count_cigars cigars) a))%Q).
    { rewrite <- (Zlt_Qlt 0). lia. }
    assert (H0q : (0 <= inject_Z (count_cigars cigars a b))%Q).
    { rewrite <- (Zle_Qle 0). exact H0. }
    assert (Hle : (inject_Z (count_cigars cigars a b)
                   <= inject_Z (row_sum (count_cigars cigars) a))%Q).
    { rewrite <- Zle_Qle. exact Hs. }
    split.
    + apply Qle_shift_div_l; [exact Hsq |]. rewrite Qmult_0_l. exact H0q.
    + apply Qle_shift_div_r; [exact Hsq |]. rewrite Qmult_1_l. exact Hle.
Qed.

(** X15.  For a corpus with run lengths of at least 1, every cell of
    the frame returned by [build_transition_mat] is a number between 0
    and 1; no cell is infinite. *)
Theorem transition_cells_are_probabilities (cigars : list Cigar)
  (Hpos : Forall (Forall (fun r : Run => 1 <= snd r)) cigars) :
  forall a b,
    exists q, build_transition_mat cigars a b = Some q /\ (0 <= q <= 1)%Q.
Proof. intros a b. apply transition_cell_bounds, Hpos. Qed.

Lemma transition_cells_are_probabilities_witness :
  Forall (Forall (fun r : Run => 1 <= snd r)) sample_corpus
  /\ exists q, build_transition_mat sample_corpus 7 8 = Some q
               /\ (0 <= q <= 1)%Q.
Proof.
  assert (Hpos : Forall (Forall (fun r : Run => 1 <= snd r)) sample_corpus).
  { repeat constructor; cbn [snd]; lia. }
  split; [exact Hpos |].
  exact (transition_cells_are_probabilities sample_corpus Hpos 7 8).
Defined.

Lemma frame_as_real_bounds (cigars : list Cigar) :
  Forall (Forall (fun r : Run => 1 <= snd r)) cigars ->
  forall a b,
    (0 <= frame_as_real (build_transition_mat cigars) a b <= 1)%R.
Proof.
  intros Hpos a b. unfold frame_as_real.
  destruct (transition_cell_bounds cigars a b Hpos) as [q [-> [H0 H1]]].
  apply Qle_Rle in H0, H1. rewrite RMicromega.Q2R_0 in H0.
  rewrite RMicromega.Q2R_1 in H1. split; assumption.
Qed.

(** X16.  Scoring with a learned model: for a corpus and a CIGAR with
    run lengths of at least 1, the Markov score of the CIGAR under the
    frame that [build_transition_mat] learns from the corpus is never
    positive. *)
Theorem learned_markov_score_nonpos (cigars : list Cigar) (cigar : Cigar)
  (Hpos : Forall (Forall (fun r : Run => 1 <= snd r)) cigars)
  (Hlen : Forall (fun r : Run => 1 <= snd r) cigar) :
  (score_cigar_markov cigar (frame_as_real (build_transition_mat cigars))
   <= 0)%R.
Proof.
  pose proof (frame_as_real_bounds cigars Hpos) as Hprob.
  rewrite score_as_spec by (intros a; apply Hprob).
  apply spec_markov_nonpos; [exact Hprob | apply scored_runs_ops, Hlen].
Qed.

Lemma learned_markov_score_nonpos_witness :
  Forall (Forall (fun r : Run => 1 <= snd r)) sample_corpus
  /\ Forall (fun r : Run => 1 <= snd r) [(7, 3); (1, 2); (7, 4)]
  /\ (score_cigar_markov [(7, 3); (1, 2); (7, 4)]%Z
        (frame_as_real (build_transition_mat sample_corpus)) <= 0)%R.
Proof.
  assert (Hpos : Forall (Forall (fun r : Run => 1 <= snd r)) sample_corpus).
  { repeat constructor; cbn [snd]; lia. }
  assert (Hlen : Forall (fun r : Run => 1 <= snd r) [(7, 3); (1, 2); (7, 4)]).
  { repeat constructor; cbn [snd]; lia. }
  split; [exact Hpos |]. split; [exact Hlen |].
  exact (learned_markov_score_nonpos sample_corpus _ Hpos Hlen).
Defined.

(** ** The ranks kept by collapse_rank *)

Section KeepRanks.

Variable columns : list string.

Lemma list_remove_absent (x : string) (l : list string) :
  ~ In x l -> list_remove x l = l.
Proof.
  induction l as [| y l IH]; intros Hx; [reflexivity |].
  cbn [list_remove]. destruct (String.eqb_spec x y) as [-> | _].
  - exfalso. apply Hx. left. reflexivity.
  - f_equal. apply IH. intros H. apply Hx. right. exact H.
Qed.

Lemma list_remove_middle (x : string) (done rest : list string) :
  ~ In x done -> list_remove x (done ++ x :: rest) = done ++ rest.
Proof.
  induction done as [| y done IH]; intros Hx; cbn [app list_remove].
  - rewrite String.eqb_refl. reflexivity.
  - destruct (String.eqb_spec x y) as [-> | _].
    + exfalso. apply Hx. left. reflexivity.
    + f_equal. apply IH. intros H. apply Hx. right. exact H.
Qed.

Lemma nth_error_middle (done rest : list string) :
  nth_error (done ++ rest) (List.length done) = nth_error rest 0.
Proof.
  rewrite nth_error_app2 by lia. rewrite Nat.sub_diag. reflexivity.
Qed.

(** The loop from position [length done], with the part before it
    settled. *)
Lemma prune_loop_skip :
  forall (fuel : nat) (rest done : list string),
    (List.length rest <= fuel)%nat ->
    NoDup (done ++ rest) ->
    prune_loop fuel columns (done ++ rest) (List.length done)
    = done ++ prune_skip columns rest.
Proof.
  induction fuel as [| fuel IH]; intros rest done Hfuel Hnd.
  - destruct rest; [reflexivity | cbn in Hfuel; lia].
  - cbn [prune_loop]. rewrite nth_error_middle.
    destruct rest as [| x rest]; [reflexivity |].
    cbn [nth_error prune_skip]. cbn [List.length] in Hfuel.
    destruct (in_columns columns x).
    + replace (done ++ x :: rest) with ((done ++ [x]) ++ rest)
        by (rewrite <- app_assoc; reflexivity).
      replace (S (List.length done)) with (List.length (done ++ [x]))
        by (rewrite length_app; cbn; lia).
      rewrite IH.
      * rewrite <- app_assoc. reflexivity.
      * lia.
      * rewrite <- app_assoc. exact Hnd.
    + assert (Hx : ~ In x done).
      { intros Hin. apply NoDup_remove_2 in Hnd. apply Hnd.
        apply in_or_app. left. exact Hin. }
      rewrite (list_remove_middle x done rest Hx).
      apply NoDup_remove_1 in Hnd.
      destruct rest as [| y rest].
      * rewrite app_nil_r. destruct fuel; cbn [prune_loop]; [reflexivity |].
        replace (nth_error done (S (List.length done))) with (@None string);
          [reflexivity |]. symmetry. apply nth_error_None. lia.
      * replace (done ++ y :: rest) with ((done ++ [y]) ++ rest)
          by (rewrite <- app_assoc; reflexivity).
        replace (S (List.length done)) with (List.length (done ++ [y]))
          by (rewrite length_app; cbn; lia).
        rewrite IH.
        -- rewrite <- app_assoc. reflexivity.
        -- cbn [List.length] in Hfuel. lia.
        -- rewrite <- app_assoc. exact Hnd.
Qed.


Lemma prune_keep_ranks_skip (l : list string) :
  NoDup l -> prune_keep_ranks columns l = prune_skip columns l.
Proof.
  intros Hnd. unfold prune_keep_ranks.
  exact (prune_loop_skip (List.length l) l [] (le_n _) Hnd).
Qed.

Lemma no_absent_neighbours_tail (x : string) (l : list string) :
  no_absent_neighbours columns (x :: l) = true ->
  no_absent_neighbours columns l = true.
Proof.
  cbn [no_absent_neighbours]. destruct l as [| y l]; [reflexivity |].
  intros H. apply andb_true_iff in H. apply H.
Qed.

Lemma prune_skip_filter_upto (n : nat) :
  forall l, (List.length l <= n)%nat ->
    no_absent_neighbours columns l = true ->
    prune_skip columns l = filter (in_columns columns) l.
Proof.
  induction n as [| n IH]; intros l Hlen Hnan.
  - destruct l; [reflexivity | cbn in Hlen; lia].
  - destruct l as [| x rest]; [reflexivity |].
    cbn [List.length] in Hlen.
    pose proof (no_absent_neighbours_tail _ _ Hnan) as Hrest.
    cbn [prune_skip filter]. destruct (in_columns columns x) eqn:Hx.
    + f_equal. apply IH; [lia | exact Hrest].
    + destruct rest as [| y rest']; [reflexivity |].
      cbn [no_absent_neighbours] in Hnan. rewrite Hx in Hnan.
      cbn [negb andb] in Hnan. apply andb_true_iff in Hnan.
      destruct Hnan as [Hy _]. apply negb_true_iff in Hy.
      apply negb_false_iff in Hy.
      cbn [filter]. rewrite Hy. f_equal.
      cbn [List.length] in Hlen.
      apply IH; [lia |]. exact (no_absent_neighbours_tail _ _ Hrest).
Qed.

Lemma prune_skip_leaves_absent_upto (n : nat) :
  forall l, (List.length l <= n)%nat ->
    no_absent_neighbours columns l = false ->
    exists z, In z (prune_skip columns l) /\ in_columns columns z = false.
Proof.
  induction n as [| n IH]; intros l Hlen Hnan.
  - destruct l; [discriminate | cbn in Hlen; lia].
  - destruct l as [| x rest]; [discriminate |].
    destruct rest as [| y rest']; [discriminate |].
    cbn [List.length] in Hlen.
    cbn [no_absent_neighbours] in Hnan. cbn [prune_skip].
    destruct (in_columns columns x) eqn:Hx.
    + cbn [negb andb] in Hnan.
      destruct (IH (y :: rest')) as [z [Hz Hzc]];
        [cbn [List.length]; lia | exact Hnan |].
      exists z. split; [right; exact Hz | exact Hzc].
    + destruct (in_columns columns y) eqn:Hy.
      * cbn [negb andb] in Hnan.
        destruct rest' as [| y2 rest2]; [discriminate |].
        cbn [no_absent_neighbours] in Hnan. try rewrite Hy in Hnan.
        cbn [negb andb] in Hnan.
        destruct (IH (y2 :: rest2)) as [z [Hz Hzc]];
          [cbn [List.length] in *; lia | exact Hnan |].
        exists z. split; [right; exact Hz | exact Hzc].
      * exists y. split; [left; reflexivity | exact Hy].
Qed.

Lemma no_absent_neighbours_true (l : list string) :
  (forall pre x y post, l = pre ++ x :: y :: post ->
     in_columns columns x = true \/ in_columns columns y = true) ->
  no_absent_neighbours columns l = true.
Proof.
  induction l as [| x rest IH]; intros H; [reflexivity |].
  cbn [no_absent_neighbours]. destruct rest as [| y rest']; [reflexivity |].
  apply andb_true_iff. split.
  - destruct (H [] x y rest' eq_refl) as [-> | ->];
      [reflexivity | destruct (in_columns columns x); reflexivity].
  - apply IH. intros pre a b post E.
    apply (H (x :: pre) a b post). rewrite E. reflexivity.
Qed.

Lemma no_absent_neighbours_false (pre post : list string) (x y : string) :
  in_columns columns x = false -> in_columns columns y = false ->
  no_absent_neighbours columns (pre ++ x :: y :: post) = false.
Proof.
  intros Hx Hy. induction pre as [| p pre IH].
  - cbn [app no_absent_neighbours]. rewrite Hx, Hy. reflexivity.
  - change ((p :: pre) ++ x :: y :: post)
      with (p :: (pre ++ x :: y :: post)).
    cbn [no_absent_neighbours]. rewrite IH.
    destruct (pre ++ x :: y :: post); [discriminate |].
    apply andb_false_r.
Qed.

Lemma forallb_filter_self (l : list string) :
  forallb (in_columns columns) (filter (in_columns columns) l) = true.
Proof.
  apply forallb_forall. intros z Hz. apply filter_In in Hz. apply Hz.
Qed.

End KeepRanks.

Lemma ranks_from_NoDup (rank : string) (ranks : list string) :
  NoDup ranks -> NoDup (ranks_from rank ranks).
Proof.
  induction ranks as [| r rest IH]; intros Hnd; [exact Hnd |].
  cbn [ranks_from]. destruct (String.eqb r rank); [exact Hnd |].
  apply IH. inversion Hnd; assumption.
Qed.

Lemma TAXONOMY_RANKS_NoDup : NoDup TAXONOMY_RANKS.
Proof.
  unfold TAXONOMY_RANKS.
  repeat (constructor; [cbn [In]; intros H;
    repeat (destruct H as [H | H]; [discriminate |]); exact H |]).
  constructor.
Qed.

(** X17.  For a rank of the list and a report that has the column F:
    when no two neighbouring ranks from the requested rank on are both
    missing from the report's columns, the ranks [collapse_rank] groups
    by are exactly those of them that are columns, in order, and the
    column selection succeeds. *)
Theorem collapse_rank_keeps_present_ranks (rank : string)
  (columns : list string)
  (Hrank : rank_known rank = true)
  (HF : In "F"%string columns)
  (Hsep : forall pre x y post,
      ranks_from rank TAXONOMY_RANKS = pre ++ x :: y :: post ->
      in_columns columns x = true \/ in_columns columns y = true) :
  collapse_rank_keep rank columns
  = Ok (filter (in_columns columns) (ranks_from rank TAXONOMY_RANKS)).
Proof.
  unfold collapse_rank_keep. rewrite Hrank. cbv zeta.
  rewrite prune_keep_ranks_skip
    by (apply ranks_from_NoDup, TAXONOMY_RANKS_NoDup).
  rewrite (prune_skip_filter_upto columns _ _ (le_n _)
             (no_absent_neighbours_true columns _ Hsep)).
  cbn [forallb]. rewrite forallb_filter_self.
  replace (in_columns columns "F") with true; [reflexivity |].
  symmetry. apply existsb_exists. exists "F"%string.
  split; [exact HF | apply String.eqb_refl].
Qed.

(** X18.  When two neighbouring ranks from the requested rank on are both
    missing from the report's columns, the loop that removes missing
    ranks while iterating passes over one of them, and the column
    selection of [collapse_rank] raises KeyError. *)
Theorem collapse_rank_two_missing_neighbours (rank : string)
  (columns pre post : list string) (x y : string)
  (Hrank : rank_known rank = true)
  (Hsplit : ranks_from rank TAXONOMY_RANKS = pre ++ x :: y :: post)
  (Hx : in_columns columns x = false)
  (Hy : in_columns columns y = false) :
  collapse_rank_keep rank columns = Raise KeyError.
Proof.
  unfold collapse_rank_keep. rewrite Hrank. cbv zeta.
  rewrite prune_keep_ranks_skip
    by (apply ranks_from_NoDup, TAXONOMY_RANKS_NoDup).
  destruct (prune_skip_leaves_absent_upto columns _ _ (le_n _)
              (eq_ind_r (fun l => no_absent_neighbours columns l = false)
                 (no_absent_neighbours_false columns pre post x y Hx Hy)
                 Hsplit))
    as [z [Hz Hzc]].
  replace (forallb (in_columns columns)
             ("F"%string :: prune_skip columns (ranks_from rank TAXONOMY_RANKS)))
    with false; [reflexivity |].
  symmetry. cbn [forallb]. apply andb_false_iff. right.
  apply not_true_is_false. intros Hall.
  rewrite forallb_forall in Hall. rewrite (Hall z Hz) in Hzc. discriminate.
Qed.

Lemma collapse_rank_keeps_present_ranks_witness :
  collapse_rank_keep "genus"
    ["tax_id"; "species"; "genus"; "family"; "order"; "class"; "phylum";
     "superkingdom"; "F"]%string
  = Ok (filter
          (in_columns
             ["tax_id"; "species"; "genus"; "family"; "order"; "class";
              "phylum"; "superkingdom"; "F"]%string)
          (ranks_from "genus" TAXONOMY_RANKS)).
Proof.
  apply collapse_rank_keeps_present_ranks.
  - reflexivity.
  - cbn [In]. do 8 right. left. reflexivity.
  - intros pre x y post E.
    destruct pre as [| p0 pre]; [injection E as <- <- _; left; reflexivity |].
    destruct pre as [| p1 pre]; [injection E as _ <- <- _; left; reflexivity |].
    destruct pre as [| p2 pre]; [injection E as _ _ <- <- _; left; reflexivity |].
    destruct pre as [| p3 pre]; [injection E as _ _ _ <- <- _; left; reflexivity |].
    destruct pre as [| p4 pre]; [injection E as _ _ _ _ <- <- _; left; reflexivity |].
    destruct pre as [| p5 pre]; [injection E as _ _ _ _ _ <- <- _; right; reflexivity |].
    destruct pre as [| p6 pre]; [discriminate E |].
    destruct pre as [| p7 pre]; discriminate E.
Defined.

Lemma collapse_rank_two_missing_neighbours_witness :
  collapse_rank_keep "species"
    ["tax_id"; "species"; "genus"; "family"; "order"; "class"; "phylum";
     "F"]%string
  = Raise KeyError.
Proof.
  apply (collapse_rank_two_missing_neighbours "species"
           ["tax_id"; "species"; "genus"; "family"; "order"; "class";
            "phylum"; "F"]%string
           ["species"; "genus"; "family"; "order"; "class"; "phylum"]%string
           [] "clade"%string "superkingdom"%string);
    reflexivity.
Defined.

(** ** extract_cigars_per_gene *)

Section PerGene.

Let step (acc : result (list (string * list Cigar))) (read : Alignment)
  : result (list (string * list Cigar)) :=
  d <- acc ;;
  if primary read then
    gene <- gene_of_reference (reference_name read) ;;
    bucket_append d gene (cigartuples read)
  else Ok d.

Lemma bucket_append_keys (d d' : list (string * list Cigar)) (gene : string)
  (c : Cigar) :
  bucket_append d gene c = Ok d' -> map fst d' = map fst d.
Proof.
  revert d'. induction d as [| [g cs] rest IH]; intros d' H;
    cbn [bucket_append] in H; [discriminate |].
  destruct (String.eqb g gene).
  - injection H as <-. reflexivity.
  - destruct (bucket_append rest gene c) as [rest' | e] eqn:E;
      cbn [bind] in H; [| discriminate].
    injection H as <-. cbn [map fst]. f_equal. apply IH. reflexivity.
Qed.

Lemma bucket_append_get (d d' : list (string * list Cigar)) (gene : string)
  (c : Cigar) :
  bucket_append d gene c = Ok d' ->
  forall g, gene_get d' g
            = if String.eqb gene g
              then option_map (fun cs => cs ++ [c]) (gene_get d g)
              else gene_get d g.
Proof.
  revert d'. induction d as [| [g0 cs] rest IH]; intros d' H g;
    cbn [bucket_append] in H; [discriminate |].
  destruct (String.eqb_spec g0 gene) as [-> | Hne].
  - injection H as <-. cbn [gene_get].
    destruct (String.eqb gene g); reflexivity.
  - destruct (bucket_append rest gene c) as [rest' | e] eqn:E;
      cbn [bind] in H; [| discriminate].
    injection H as <-. cbn [gene_get].
    destruct (String.eqb_spec g0 g) as [-> | Hne'].
    + destruct (String.eqb_spec gene g) as [-> | _];
        [exfalso; apply Hne; reflexivity | reflexivity].
    + apply IH. reflexivity.
Qed.

Lemma bucket_append_contents (d d' : list (string * list Cigar))
  (gene : string) (c : Cigar) :
  bucket_append d gene c = Ok d' ->
  Permutation (List.concat (map snd d')) (c :: List.concat (map snd d)).
Proof.
  revert d'. induction d as [| [g0 cs] rest IH]; intros d' H;
    cbn [bucket_append] in H; [discriminate |].
  destruct (String.eqb g0 gene).
  - injection H as <-. cbn [map snd List.concat].
    rewrite <- app_assoc. cbn [app].
    apply Permutation_sym, Permutation_middle.
  - destruct (bucket_append rest gene c) as [rest' | e] eqn:E;
      cbn [bind] in H; [| discriminate].
    injection H as <-. cbn [map snd List.concat].
    apply Permutation_trans with (cs ++ c :: List.concat (map snd rest)).
    + apply Permutation_app_head. apply IH. reflexivity.
    + apply Permutation_sym, Permutation_middle.
Qed.

Lemma bucket_append_ok_iff (d : list (string * list Cigar)) (gene : string)
  (c : Cigar) :
  (exists d', bucket_append d gene c = Ok d') <-> In gene (map fst d).
Proof.
  induction d as [| [g0 cs] rest IH]; cbn [bucket_append map fst In].
  - split; [intros [d' H]; discriminate | intros []].
  - destruct (String.eqb_spec g0 gene) as [-> | Hne].
    + split; [intros _; left; reflexivity | intros _; eexists; reflexivity].
    + split.
      * intros [d' H].
        destruct (bucket_append rest gene c) as [rest' | e] eqn:E;
          cbn [bind] in H; [| discriminate].
        right. apply IH. eexists. reflexivity.
      * intros [Heq | Hin]; [exfalso; apply Hne; exact Heq |].
        apply IH in Hin. destruct Hin as [rest' ->]. cbn [bind].
        eexists. reflexivity.
Qed.

Lemma bucket_append_raises (d : list (string * list Cigar)) (gene : string)
  (c : Cigar) (e : exn) :
  bucket_append d gene c = Raise e -> e = KeyError.
Proof.
  induction d as [| [g0 cs] rest IH]; cbn [bucket_append]; intros H.
  - injection H as <-. reflexivity.
  - destruct (String.eqb g0 gene); [discriminate |].
    destruct (bucket_append rest gene c) as [rest' | e'] eqn:E;
      cbn [bind] in H; [discriminate |].
    injection H as <-. apply IH. reflexivity.
Qed.

Lemma per_gene_fold_raise (sam : list Alignment) (e : exn) :
  fold_left step sam (Raise e) = Raise e.
Proof. induction sam as [| a sam IH]; [reflexivity | exact IH]. Qed.

Lemma extract_cigars_per_gene_fold (sam : list Alignment) :
  extract_cigars_per_gene sam
  = fold_left step sam (Ok (map (fun g => (g, [])) GENES)).
Proof. reflexivity. Qed.

(** What the loop has done to the dictionary it started from. *)
Lemma per_gene_fold_ok :
  forall (sam : list Alignment) (d0 d : list (string * list Cigar)),
    fold_left step sam (Ok d0) = Ok d ->
    map fst d = map fst d0
    /\ (forall g, gene_get d g
                  = option_map (fun cs => cs ++ gene_corpus g sam)
                      (gene_get d0 g))
    /\ Permutation (List.concat (map snd d))
         (List.concat (map snd d0) ++ extract_cigars_all sam).
Proof.
  induction sam as [| a sam IH]; intros d0 d H.
  - injection H as <-. split; [reflexivity |]. split.
    + intros g. unfold gene_corpus. cbn [filter map].
      destruct (gene_get d0 g); [cbn [option_map]; rewrite app_nil_r |];
        reflexivity.
    + unfold extract_cigars_all. cbn [filter map]. rewrite app_nil_r.
      apply Permutation_refl.
  - cbn [fold_left] in H. unfold step at 2 in H. cbn [bind] in H.
    unfold gene_corpus, extract_cigars_all. cbn [filter].
    destruct (primary a) eqn:Hp.
    + destruct (gene_of_reference (reference_name a)) as [gene | e] eqn:Hg;
        cbn [bind] in H; [| rewrite per_gene_fold_raise in H; discriminate].
      destruct (bucket_append d0 gene (cigartuples a)) as [d1 | e] eqn:Hb;
        [| rewrite per_gene_fold_raise in H; discriminate].
      destruct (IH d1 d H) as [Hk [Hget Hperm]].
      split; [rewrite Hk; exact (bucket_append_keys _ _ _ _ Hb) |]. split.
      * intros g. rewrite Hget, (bucket_append_get _ _ _ _ Hb g).
        unfold names_gene. rewrite Hg. cbn [andb].
        destruct (String.eqb gene g); [| reflexivity].
        destruct (gene_get d0 g); [| reflexivity].
        cbn [option_map map]. rewrite <- app_assoc. reflexivity.
      * cbn [map]. eapply Permutation_trans; [exact Hperm |].
        eapply Permutation_trans;
          [apply Permutation_app_tail, (bucket_append_contents _ _ _ _ Hb) |].
        cbn [app]. apply Permutation_middle.
    + destruct (IH d0 d H) as [Hk [Hget Hperm]].
      split; [exact Hk |]. split; [| exact Hperm].
      intros g. rewrite Hget. cbn [andb]. reflexivity.
Qed.

Lemma per_gene_fold_ok_iff :
  forall (sam : list Alignment) (d0 : list (string * list Cigar)),
    (exists d, fold_left step sam (Ok d0) = Ok d)
    <-> Forall (fun aln => primary aln = true ->
                  exists g, gene_of_reference (reference_name aln) = Ok g
                            /\ In g (map fst d0)) sam.
Proof.
  induction sam as [| a sam IH]; intros d0.
  - split; [intros _; constructor | intros _; eexists; reflexivity].
  - cbn [fold_left]. unfold step at 2. cbn [bind].
    destruct (primary a) eqn:Hp.
    + destruct (gene_of_reference (reference_name a)) as [gene | e] eqn:Hg;
        cbn [bind].
      * destruct (bucket_append d0 gene (cigartuples a)) as [d1 | e] eqn:Hb.
        -- rewrite IH, (bucket_append_keys _ _ _ _ Hb). split.
           ++ intros Hall. constructor; [| exact Hall].
              intros _. exists gene. split; [exact Hg |].
              apply (bucket_append_ok_iff d0 gene (cigartuples a)).
              exists d1. exact Hb.
           ++ intros Hall. inversion Hall; assumption.
        -- rewrite per_gene_fold_raise. split; [intros [d H]; discriminate |].
           intros Hall. inversion Hall as [| ? ? Ha _]; subst.
           destruct (Ha Hp) as [g [Eg Hin]]. rewrite Hg in Eg.
           injection Eg as <-.
           apply (bucket_append_ok_iff d0 gene (cigartuples a)) in Hin.
           destruct Hin as [d' Hd']. rewrite Hd' in Hb. discriminate.
      * rewrite per_gene_fold_raise. split; [intros [d H]; discriminate |].
        intros Hall. inversion Hall as [| ? ? Ha _]; subst.
        destruct (Ha Hp) as [g [Eg _]]. rewrite Hg in Eg. discriminate.
    + rewrite IH. split.
      * intros Hall. constructor; [| exact Hall].
        intros Hp'. rewrite Hp in Hp'. discriminate.
      * intros Hall. inversion Hall; assumption.
Qed.

End PerGene.

Lemma gene_get_initial (g : string) (l : list string) :
  In g l -> gene_get (map (fun g => (g, @nil Cigar)) l) g = Some [].
Proof.
  induction l as [| x l IH]; intros Hin; [destruct Hin |].
  cbn [map gene_get]. destruct (String.eqb_spec x g) as [_ | Hne];
    [reflexivity |].
  destruct Hin as [-> | Hin]; [exfalso; apply Hne; reflexivity |].
  apply IH, Hin.
Qed.

Lemma initial_keys (l : list string) :
  map fst (map (fun g => (g, @nil Cigar)) l) = l.
Proof. rewrite map_map. cbn [fst]. apply map_id. Qed.

Lemma initial_contents (l : list string) :
  List.concat (map snd (map (fun g => (g, @nil Cigar)) l)) = [].
Proof. induction l as [| x l IH]; [reflexivity | exact IH]. Qed.

(** X19.  When [extract_cigars_per_gene] returns, its dictionary has the
    keys of GENES, in that order, and the entry of each gene is the list
    of the CIGARs of the primary records whose reference names that
    gene, in record order. *)
Theorem extract_cigars_per_gene_buckets (sam : list Alignment)
  (d : list (string * list Cigar))
  (Hok : extract_cigars_per_gene sam = Ok d) :
  map fst d = GENES
  /\ forall g, In g GENES -> gene_get d g = Some (gene_corpus g sam).
Proof.
  rewrite extract_cigars_per_gene_fold in Hok.
  destruct (per_gene_fold_ok _ _ _ Hok) as [Hk [Hget _]]. split.
  - rewrite Hk. apply initial_keys.
  - intros g Hg. rewrite Hget, (gene_get_initial g GENES Hg). reflexivity.
Qed.

(** X20.  [extract_cigars_per_gene] returns exactly when the reference
    name of every primary record has a second ':'-separated field whose
    last '/'-separated part is one of GENES; otherwise it raises. *)
Theorem extract_cigars_per_gene_returns (sam : list Alignment) :
  (exists d, extract_cigars_per_gene sam = Ok d)
  <-> Forall (fun aln => primary aln = true ->
                exists g, gene_of_reference (reference_name aln) = Ok g
                          /\ In g GENES) sam.
Proof.
  rewrite extract_cigars_per_gene_fold, per_gene_fold_ok_iff, initial_keys.
  reflexivity.
Qed.

(** X21.  The per-gene lists together hold the CIGARs of the primary
    records, each one once: their concatenation is a rearrangement of the
    corpus [extract_cigars_all] returns. *)
Theorem per_gene_corpora_partition (sam : list Alignment)
  (d : list (string * list Cigar))
  (Hok : extract_cigars_per_gene sam = Ok d) :
  Permutation (List.concat (map snd d)) (extract_cigars_all sam).
Proof.
  rewrite extract_cigars_per_gene_fold in Hok.
  destruct (per_gene_fold_ok _ _ _ Hok) as [_ [_ Hperm]].
  rewrite initial_contents in Hperm. exact Hperm.
Qed.

Lemma extract_cigars_per_gene_buckets_witness :
  map fst three_records_per_gene = GENES
  /\ forall g, In g GENES ->
       gene_get three_records_per_gene g = Some (gene_corpus g three_records).
Proof.
  apply extract_cigars_per_gene_buckets. vm_compute. reflexivity.
Defined.

Lemma per_gene_corpora_partition_witness :
  Permutation (List.concat (map snd three_records_per_gene))
    (extract_cigars_all three_records).
Proof.
  apply per_gene_corpora_partition. vm_compute. reflexivity.
Defined.

Lemma gene_get_combine_values {V W : Type} (f : V -> W)
  (d : list (string * V)) (g : string) :
  gene_get (combine (map fst d) (map (fun kv => f (snd kv)) d)) g
  = option_map f (gene_get d g).
Proof.
  induction d as [| [k v] rest IH]; [reflexivity |].
  cbn [map fst snd combine gene_get].
  destruct (String.eqb k g); [reflexivity | exact IH].
Qed.

Lemma combine_values_keys {V W : Type} (f : V -> W) (d : list (string * V)) :
  map fst (combine (map fst d) (map (fun kv => f (snd kv)) d)) = map fst d.
Proof.
  induction d as [| [k v] rest IH]; [reflexivity |].
  cbn [map fst combine]. f_equal. exact IH.
Qed.

(** X22.  With [--aln-score-gene], when [build_transition_mats] returns,
    the model stored for each gene of GENES is the one
    [build_transition_mat] learns from the CIGARs of the primary records
    of that gene alone. *)
Theorem gene_transition_mats_by_gene (sam : list Alignment)
  (mats : list (string * (Z -> Z -> option Q)))
  (Hok : build_transition_mats true sam = Ok (GeneTransitionMats mats)) :
  map fst mats = GENES
  /\ forall g, In g GENES ->
       gene_get mats g = Some (build_transition_mat (gene_corpus g sam)).
Proof.
  unfold build_transition_mats in Hok.
  destruct (extract_cigars_per_gene sam) as [d | e] eqn:Hd;
    cbn [bind] in Hok; [| discriminate].
  assert (Hm : mats = combine GENES
                       (map (fun gc => build_transition_mat (snd gc)) d))
    by congruence.
  clear Hok. subst mats.
  rewrite extract_cigars_per_gene_fold in Hd.
  destruct (per_gene_fold_ok _ _ _ Hd) as [Hk [Hget _]].
  rewrite initial_keys in Hk. split.
  - rewrite <- Hk. apply combine_values_keys.
  - intros g Hg. rewrite <- Hk.
    rewrite (gene_get_combine_values build_transition_mat d g).
    rewrite Hget, (gene_get_initial g GENES Hg). reflexivity.
Qed.

Lemma gene_transition_mats_by_gene_witness :
  map fst (combine GENES
             (map (fun gc => build_transition_mat (snd gc))
                three_records_per_gene)) = GENES
  /\ forall g, In g GENES ->
       gene_get (combine GENES
                   (map (fun gc => build_transition_mat (snd gc))
                      three_records_per_gene)) g
       = Some (build_transition_mat (gene_corpus g three_records)).
Proof.
  apply gene_transition_mats_by_gene. reflexivity.
Defined.

(** ** The plausibility filter: failure and sufficient coverage *)

Lemma map_result_raises {A B : Type} (f : A -> result B) :
  forall (l : list A) (e : exn),
    map_result f l = Raise e -> exists x, In x l /\ f x = Raise e.
Proof.
  induction l as [| x l IH]; intros e; cbn [map_result]; [discriminate |].
  destruct (f x) as [y | e'] eqn:Hx; cbn [bind].
  - destruct (map_result f l) as [ys | e'']; cbn [bind]; [discriminate |].
    intros H. injection H as <-.
    destruct (IH e'' eq_refl) as [z [Hz Hfz]].
    exists z. split; [right; exact Hz | exact Hfz].
  - intros H. injection H as <-. exists x. split; [left; reflexivity | exact Hx].
Qed.

Lemma map_result_raises_at {A B : Type} (f : A -> result B) :
  forall (l : list A) (x : A) (e : exn),
    In x l -> f x = Raise e -> exists e', map_result f l = Raise e'.
Proof.
  induction l as [| z l IH]; intros x e Hin Hx; [destruct Hin |].
  cbn [map_result]. destruct (f z) as [y | e'] eqn:Hz; cbn [bind].
  - destruct Hin as [-> | Hin]; [congruence |].
    destruct (IH x e Hin Hx) as [e'' ->]. cbn [bind]. eexists. reflexivity.
  - eexists. reflexivity.
Qed.

Lemma filter_passes_raises (rows : list LRow) (gene_stats : list GeneStat)
  (tid : Z) (e : exn) :
  filter_passes rows gene_stats tid = Raise e <->
  e = ZeroDivisionError
  /\ 10 < N_reads rows tid /\ N_genes gene_stats tid = 0.
Proof.
  unfold filter_passes, get_expected_gene_hits.
  destruct (Z.ltb_spec 10 (N_reads rows tid)) as [Hbig | Hsmall].
  - destruct (Z.eqb_spec (N_genes gene_stats tid) 0) as [Hz | Hz];
      cbn [bind].
    + split; [intros H; injection H as <-; auto | intros [-> _]; reflexivity].
    + split; [discriminate | intros [_ [_ H]]; contradiction].
  - destruct (N_reads rows tid =? 0);
      (split; [discriminate | intros [_ [H _]]; lia]).
Qed.

(** X23.  The filter block of [EM_complete] raises exactly when some
    taxon of [F] has more than 10 supporting reads and no marker gene on
    record in the gene table; what it raises then is the
    ZeroDivisionError of [1 / N_genes]. *)
Theorem plausibility_filter_raises {V : Type} (rows : list LRow)
  (gene_stats : list GeneStat) (F : list (Z * V)) :
  (forall e, plausibility_filter rows gene_stats F = Raise e ->
             e = ZeroDivisionError)
  /\ ((exists e, plausibility_filter rows gene_stats F = Raise e)
      <-> exists tid, In tid (map fst F)
                      /\ 10 < N_reads rows tid
                      /\ N_genes gene_stats tid = 0).
Proof.
  unfold plausibility_filter.
  assert (Hraise : forall e,
             map_result (filter_passes rows gene_stats) (map fst F) = Raise e ->
             e = ZeroDivisionError
             /\ exists tid, In tid (map fst F)
                            /\ 10 < N_reads rows tid
                            /\ N_genes gene_stats tid = 0).
  { intros e H. apply map_result_raises in H. destruct H as [tid [Hin Hf]].
    apply filter_passes_raises in Hf. destruct Hf as [-> Hc].
    split; [reflexivity |]. exists tid. split; [exact Hin | exact Hc]. }
  split.
  - intros e.
    destruct (map_result (filter_passes rows gene_stats) (map fst F))
      as [mask | e'] eqn:Hm; cbn [bind]; [discriminate |].
    intros H. injection H as <-. apply (Hraise e' eq_refl).
  - split.
    + intros [e H].
      destruct (map_result (filter_passes rows gene_stats) (map fst F))
        as [mask | e'] eqn:Hm; cbn [bind] in H; [discriminate |].
      apply (Hraise e' eq_refl).
    + intros [tid [Hin Hc]].
      destruct (map_result_raises_at (filter_passes rows gene_stats)
                  (map fst F) tid ZeroDivisionError Hin) as [e' ->].
      * apply filter_passes_raises. split; [reflexivity | exact Hc].
      * cbn [bind]. eexists. reflexivity.
Qed.

Lemma expected_hits_at_most (N_genes N_reads : Z) :
  1 <= N_genes -> 1 <= N_reads ->
  (spec_E N_genes N_reads <= inject_Z N_genes)%Q.
Proof.
  intros HN Hn. unfold spec_E.
  assert (HNq : (1 <= inject_Z N_genes)%Q).
  { rewrite Zle_Qle in HN. exact HN. }
  assert (Hinv : (0 < 1 / inject_Z N_genes)%Q
                 /\ (1 / inject_Z N_genes <= 1)%Q).
  { split.
    - apply Qlt_shift_div_l; Lqa.lra.
    - apply Qle_shift_div_r; Lqa.lra. }
  destruct N_reads as [| p | p]; try lia. cbn [Qpower].
  destruct (Qpower_positive_below_1 (1 - 1 / inject_Z N_genes)
              ltac:(Lqa.lra) ltac:(Lqa.lra) p) as [Hp _].
  Lqa.nra.
Qed.

Lemma well_covered_passes (rows : list LRow) (gene_stats : list GeneStat)
  (tid : Z) :
  10 < N_reads rows tid ->
  1 <= N_genes gene_stats tid ->
  1 < N_genes_hit rows tid ->
  7 * N_genes gene_stats tid < 10 * N_genes_hit rows tid ->
  filter_passes rows gene_stats tid = Ok true.
Proof.
  intros Hn HN Hhit Hcov. unfold filter_passes, get_expected_gene_hits.
  destruct (Z.ltb_spec 10 (N_reads rows tid)) as [_ | Hsmall]; [| lia].
  destruct (Z.eqb_spec (N_genes gene_stats tid) 0) as [Hz | _]; [lia |].
  cbn [bind]. f_equal.
  fold (spec_E (N_genes gene_stats tid) (N_reads rows tid)).
  pose proof (expected_hits_positive (N_genes gene_stats tid)
                (N_reads rows tid) HN ltac:(lia)) as Hpos.
  pose proof (expected_hits_at_most (N_genes gene_stats tid)
                (N_reads rows tid) HN ltac:(lia)) as Hle.
  set (E := spec_E (N_genes gene_stats tid) (N_reads rows tid)) in *.
  apply andb_true_iff. split; [| apply Z.ltb_lt; exact Hhit].
  apply orb_true_iff. left. apply Qlt_bool_iff.
  apply Qlt_shift_div_l; [exact Hpos |].
  assert (Hq : (inject_Z 7 * inject_Z (N_genes gene_stats tid)
                < inject_Z 10 * inject_Z (N_genes_hit rows tid))%Q).
  { rewrite <- !inject_Z_mult. rewrite <- Zlt_Qlt. exact Hcov. }
  change (inject_Z 7) with (7 # 1)%Q in Hq.
  change (inject_Z 10) with (10 # 1)%Q in Hq.
  Lqa.lra.
Qed.

(** X24.  A taxon of [F] with more than 10 supporting reads whose reads
    hit at least two different marker genes and more than 70% of the
    marker genes on record for it is kept by the filter, whatever the
    variance term. *)
Theorem well_covered_taxon_kept {V : Type} (rows : list LRow)
  (gene_stats : list GeneStat) (F F' : list (Z * V)) (tid : Z)
  (Hrun : plausibility_filter rows gene_stats F = Ok F')
  (Hin : In tid (map fst F))
  (Hreads : 10 < N_reads rows tid)
  (Hhit : 1 < N_genes_hit rows tid)
  (Hcov : 7 * N_genes gene_stats tid < 10 * N_genes_hit rows tid) :
  In tid (map fst F').
Proof.
  revert Hrun. unfold plausibility_filter.
  destruct (map_result (filter_passes rows gene_stats) (map fst F))
    as [mask | e] eqn:Hmask; cbn [bind]; [| discriminate].
  intros H. injection H as <-.
  rewrite (loc_mask_In (filter_passes rows gene_stats) tid F mask
             (map_result_Forall2 _ _ _ Hmask)).
  split; [exact Hin |].
  apply well_covered_passes; try assumption.
  assert (HN : N_genes gene_stats tid <> 0).
  { intros Hz.
    destruct (map_result_raises_at (filter_passes rows gene_stats)
                (map fst F) tid ZeroDivisionError Hin) as [e' He'].
    - apply filter_passes_raises. auto.
    - rewrite He' in Hmask. discriminate. }
  pose proof (count_distinct_nonneg
                (map gs_type
                   (filter (fun g => gs_Target_ID g =? tid) gene_stats))) as H0.
  fold (N_genes gene_stats tid) in H0. lia.
Qed.

Lemma well_covered_taxon_kept_witness :
  In 7 (map fst
          (match plausibility_filter sample_rows sample_gene_stats sample_F with
           | Ok F' => F'
           | Raise _ => []
           end)).
Proof.
  apply (well_covered_taxon_kept sample_rows sample_gene_stats sample_F _ 7).
  - vm_compute. reflexivity.
  - cbn. auto.
  - vm_compute. reflexivity.
  - vm_compute. reflexivity.
  - vm_compute. reflexivity.
Defined.

(** ** Runs that end with exit(0) *)

Section ExitZero.

Variable w : World.

Let quiet (L : list event) : Prop := Forall (fun ev => failure w ev = None) L.

(** [p] cannot end the run with [exit(0)]; when it hands over, it has
    added [L] to the trace and [C] holds. *)
Let passes (p : Prog) (L : list event) (C : Prop) : Prop :=
  (forall tr, snd (p tr) <> Some (Exit 0))
  /\ forall tr tr', p tr = (tr', None) -> tr' = tr ++ L /\ quiet L /\ C.

(** When [p] ends the run with [exit(0)], it has added [L] and [C]
    holds. *)
Let exits (p : Prog) (L : list event) (C : Prop) : Prop :=
  forall tr, snd (p tr) = Some (Exit 0) ->
             p tr = (tr ++ L, Some (Exit 0)) /\ quiet L /\ C.

Lemma passes_stage (ev : event) : passes (stage w ev) [ev] True.
Proof.
  split.
  - intros tr. unfold stage. cbn [snd]. destruct (failure w ev); discriminate.
  - intros tr tr'. unfold stage.
    destruct (failure w ev) eqn:Hf; [discriminate |].
    intros H. injection H as <-. split; [reflexivity |].
    split; [| exact I]. constructor; [exact Hf | constructor].
Qed.

Lemma passes_skip : passes skip [] True.
Proof.
  split; [intros tr; discriminate |].
  intros tr tr' H. injection H as <-. rewrite app_nil_r.
  split; [reflexivity |]. split; [constructor | exact I].
Qed.

Lemma passes_finish (o : outcome) (L : list event) (C : Prop) :
  o <> Exit 0 -> passes (finish o) L C.
Proof.
  intros Ho. split.
  - intros tr H. cbn in H. injection H as H. contradiction.
  - intros tr tr' H. discriminate.
Qed.

Lemma passes_andthen (p q : Prog) (Lp Lq : list event) (Cp Cq : Prop) :
  passes p Lp Cp -> passes q Lq Cq ->
  passes (andthen p q) (Lp ++ Lq) (Cp /\ Cq).
Proof.
  intros [Sp Pp] [Sq Pq]. split.
  - intros tr. unfold andthen. specialize (Sp tr).
    destruct (p tr) as [t1 [o |]]; [exact Sp | apply Sq].
  - intros tr tr'. unfold andthen.
    destruct (p tr) as [t1 [o |]] eqn:Hp; [discriminate |].
    intros Hq. destruct (Pp _ _ Hp) as [-> [Qp Hcp]].
    destruct (Pq _ _ Hq) as [-> [Qq Hcq]].
    rewrite <- app_assoc. split; [reflexivity |].
    split; [apply Forall_app; split; assumption | split; assumption].
Qed.

Lemma passes_weaken (p : Prog) (L : list event) (C C' : Prop) :
  (C -> C') -> passes p L C -> passes p L C'.
Proof.
  intros HC [Sp Pp]. split; [exact Sp |].
  intros tr tr' H. destruct (Pp _ _ H) as [-> [Q Hc]]. auto.
Qed.

Lemma exits_andthen (p q : Prog) (Lp Lq : list event) (Cp Cq : Prop) :
  passes p Lp Cp -> exits q Lq Cq ->
  exits (andthen p q) (Lp ++ Lq) (Cp /\ Cq).
Proof.
  intros [Sp Pp] Eq tr. unfold andthen. specialize (Sp tr).
  destruct (p tr) as [t1 [o |]] eqn:Hp; [intros H; contradiction |].
  intros H. destruct (Pp _ _ Hp) as [-> [Qp Hcp]].
  destruct (Eq _ H) as [-> [Qq Hcq]].
  rewrite <- app_assoc. split; [reflexivity |].
  split; [apply Forall_app; split; assumption | split; assumption].
Qed.

Lemma exits_finish : exits (stages [finish (Exit 0)]) [] True.
Proof.
  intros tr _. cbn. rewrite app_nil_r.
  split; [reflexivity |]. split; [constructor | exact I].
Qed.

Lemma passes_steps (l : list nat) :
  passes (stages (map (fun i => stage w (EMStep i)) l)) (map EMStep l) True.
Proof.
  induction l as [| i l IH]; cbn [map stages]; [exact passes_skip |].
  apply (passes_weaken _ _ (True /\ True)); [intros; exact I |].
  exact (passes_andthen _ _ [EMStep i] _ _ _ (passes_stage _) IH).
Qed.

Lemma passes_EM_iterations :
  passes (EM_iterations w)
    (match em_extra_iterations w with
     | Some k => map EMStep (seq 1 (2 + k))
     | None => []
     end)
    (em_extra_iterations w <> None).
Proof.
  unfold EM_iterations. destruct (em_extra_iterations w) as [k |].
  - apply (passes_weaken _ _ True); [intros; discriminate |].
    apply passes_steps.
  - apply passes_finish. discriminate.
Qed.

Lemma passes_collapse_rank (rank : string) :
  passes (collapse_rank w rank) [ReadReport; WriteRankReport]
    (rank_known rank = true).
Proof.
  unfold collapse_rank. destruct (rank_known rank).
  - apply (passes_weaken _ _ (True /\ True)); [intros; reflexivity |].
    exact (passes_andthen _ _ [ReadReport] [WriteRankReport] _ _
             (passes_stage _) (passes_stage _)).
  - apply (passes_weaken _ _ (True /\ False)); [intros [_ []] |].
    apply (passes_andthen _ _ [ReadReport] [WriteRankReport]);
      [apply passes_stage | apply passes_finish; discriminate].
Qed.

Lemma passes_run_minimap2 :
  passes (run_minimap2 w) [Minimap2] (minimap2_rc w = 0).
Proof.
  unfold run_minimap2.
  destruct (Z.eqb_spec (minimap2_rc w) 0) as [Hz | Hz].
  - apply (passes_weaken _ _ (True /\ True)); [intros; exact Hz |].
    exact (passes_andthen _ _ [Minimap2] [] _ _ (passes_stage _) passes_skip).
  - apply (passes_weaken _ _ (True /\ False)); [intros [_ []] |].
    apply (passes_andthen _ _ [Minimap2] []);
      [apply passes_stage | apply passes_finish; congruence].
Qed.

Lemma passes_first (args : Args) :
  passes (match sam_input args with
          | Some (String _ _) => skip
          | _ => run_minimap2 w
          end)
    (if runs_minimap2 args then [Minimap2] else [])
    (runs_minimap2 args = true -> minimap2_rc w = 0).
Proof.
  unfold runs_minimap2. destruct (sam_input args) as [[| c s] |].
  - apply (passes_weaken _ _ (minimap2_rc w = 0)); [auto |].
    apply passes_run_minimap2.
  - apply (passes_weaken _ _ True); [intros _ H; discriminate |].
    apply passes_skip.
  - apply (passes_weaken _ _ (minimap2_rc w = 0)); [auto |].
    apply passes_run_minimap2.
Qed.

Lemma passes_optional (c : bool) (ev : event) :
  passes (if c then skip else stage w ev) (if c then [] else [ev]) True.
Proof. destruct c; [apply passes_skip | apply passes_stage]. Qed.

Lemma passes_EM_complete_run (args : Args) :
  passes (EM_complete_run w args)
    ([EMStart]
     ++ (if nof args then [] else [PlausibilityFilter])
     ++ (match em_extra_iterations w with
         | Some k => map EMStep (seq 1 (2 + k))
         | None => []
         end)
     ++ [FinalEMStep] ++ [WriteReport] ++ [ReadReport; WriteRankReport]
     ++ [])
    (em_extra_iterations w <> None /\ rank_known (rank args) = true).
Proof.
  unfold EM_complete_run. cbn [stages].
  eapply passes_weaken;
    [| apply passes_andthen; [apply passes_stage |];
       apply passes_andthen; [apply passes_optional |];
       apply passes_andthen; [apply passes_EM_iterations |];
       apply passes_andthen; [apply passes_stage |];
       apply passes_andthen; [apply passes_stage |];
       apply passes_andthen; [apply passes_collapse_rank |];
       apply passes_skip].
  tauto.
Qed.

Lemma main_exits (args : Args) :
  exits (main args w)
    ((if runs_minimap2 args then [Minimap2] else [])
     ++ [LoadTaxonomy] ++ [InitF] ++ [BuildAlignmentModel]
     ++ [BuildLikelihoodTable]
     ++ ([EMStart]
         ++ (if nof args then [] else [PlausibilityFilter])
         ++ (match em_extra_iterations w with
             | Some k => map EMStep (seq 1 (2 + k))
             | None => []
             end)
         ++ [FinalEMStep] ++ [WriteReport] ++ [ReadReport; WriteRankReport]
         ++ [])
     ++ [WriteReport] ++ [ReadReport; WriteRankReport]
     ++ (if keep_alignments args then [] else [RemoveSam]) ++ [])
    ((runs_minimap2 args = true -> minimap2_rc w = 0)
     /\ em_extra_iterations w <> None
     /\ rank_known (rank args) = true).
Proof.
  unfold main. cbn [stages].
  intros tr H.
  pose proof (exits_andthen _ _ _ _ _ _ (passes_first args)
    (exits_andthen _ _ _ _ _ _ (passes_stage LoadTaxonomy)
    (exits_andthen _ _ _ _ _ _ (passes_stage InitF)
    (exits_andthen _ _ _ _ _ _ (passes_stage BuildAlignmentModel)
    (exits_andthen _ _ _ _ _ _ (passes_stage BuildLikelihoodTable)
    (exits_andthen _ _ _ _ _ _ (passes_EM_complete_run args)
    (exits_andthen _ _ _ _ _ _ (passes_stage WriteReport)
    (exits_andthen _ _ _ _ _ _ (passes_collapse_rank (rank args))
    (exits_andthen _ _ _ _ _ _ (passes_optional (keep_alignments args) RemoveSam)
       exits_finish)))))))) tr H) as [E [Q C]].
  split; [exact E |]. split; [exact Q | tauto].
Qed.


(** [p] hands over after adding [L], when [L] is quiet and [C] holds. *)
Let goes (p : Prog) (L : list event) (C : Prop) : Prop :=
  C -> quiet L -> forall tr, p tr = (tr ++ L, None).

Let ends (p : Prog) (L : list event) (C : Prop) : Prop :=
  C -> quiet L -> forall tr, p tr = (tr ++ L, Some (Exit 0)).

Lemma goes_stage (ev : event) : goes (stage w ev) [ev] True.
Proof.
  intros _ Q tr. unfold stage. inversion Q as [| ? ? Hf _]; subst.
  rewrite Hf. reflexivity.
Qed.

Lemma goes_skip : goes skip [] True.
Proof. intros _ _ tr. unfold skip. rewrite app_nil_r. reflexivity. Qed.

Lemma goes_andthen (p q : Prog) (Lp Lq : list event) (Cp Cq : Prop) :
  goes p Lp Cp -> goes q Lq Cq -> goes (andthen p q) (Lp ++ Lq) (Cp /\ Cq).
Proof.
  intros Gp Gq [Hp Hq] Q tr. apply Forall_app in Q. destruct Q as [Qp Qq].
  unfold andthen. rewrite (Gp Hp Qp tr), (Gq Hq Qq), <- app_assoc.
  reflexivity.
Qed.

Lemma goes_weaken (p : Prog) (L : list event) (C C' : Prop) :
  (C' -> C) -> goes p L C -> goes p L C'.
Proof. intros HC G Hc. apply G, HC, Hc. Qed.

Lemma ends_andthen (p q : Prog) (Lp Lq : list event) (Cp Cq : Prop) :
  goes p Lp Cp -> ends q Lq Cq -> ends (andthen p q) (Lp ++ Lq) (Cp /\ Cq).
Proof.
  intros Gp Eq [Hp Hq] Q tr. apply Forall_app in Q. destruct Q as [Qp Qq].
  unfold andthen. rewrite (Gp Hp Qp tr), (Eq Hq Qq), <- app_assoc.
  reflexivity.
Qed.

Lemma ends_finish : ends (stages [finish (Exit 0)]) [] True.
Proof. intros _ _ tr. cbn. rewrite app_nil_r. reflexivity. Qed.

Lemma goes_steps (l : list nat) :
  goes (stages (map (fun i => stage w (EMStep i)) l)) (map EMStep l) True.
Proof.
  induction l as [| i l IH]; cbn [map stages]; [exact goes_skip |].
  apply (goes_weaken _ _ (True /\ True)); [intros; split; exact I |].
  exact (goes_andthen _ _ [EMStep i] _ _ _ (goes_stage _) IH).
Qed.

Lemma goes_EM_iterations (k : nat) :
  goes (EM_iterations w) (map EMStep (seq 1 (2 + k)))
    (em_extra_iterations w = Some k).
Proof.
  intros Hk. unfold EM_iterations. rewrite Hk. apply goes_steps. exact I.
Qed.

Lemma goes_collapse_rank (rank : string) :
  goes (collapse_rank w rank) [ReadReport; WriteRankReport]
    (rank_known rank = true).
Proof.
  intros Hr. unfold collapse_rank. rewrite Hr.
  apply (goes_andthen _ _ [ReadReport] [WriteRankReport] _ _
           (goes_stage _) (goes_stage _)).
  split; exact I.
Qed.

Lemma goes_first (args : Args) :
  goes (match sam_input args with
        | Some (String _ _) => skip
        | _ => run_minimap2 w
        end)
    (if runs_minimap2 args then [Minimap2] else [])
    (runs_minimap2 args = true -> minimap2_rc w = 0).
Proof.
  assert (G : minimap2_rc w = 0 -> goes (run_minimap2 w) [Minimap2] True).
  { intros Hz. unfold run_minimap2. rewrite Hz. cbn [Z.eqb].
    apply (goes_weaken _ _ (True /\ True)); [intros; split; exact I |].
    exact (goes_andthen _ _ [Minimap2] [] _ _ (goes_stage _) goes_skip). }
  unfold runs_minimap2. destruct (sam_input args) as [[| c s] |].
  - intros Hc. apply (G (Hc eq_refl) I).
  - intros _. apply goes_skip. exact I.
  - intros Hc. apply (G (Hc eq_refl) I).
Qed.

Lemma goes_optional (c : bool) (ev : event) :
  goes (if c then skip else stage w ev) (if c then [] else [ev]) True.
Proof. destruct c; [apply goes_skip | apply goes_stage]. Qed.

Lemma goes_EM_complete_run (args : Args) (k : nat) :
  goes (EM_complete_run w args)
    ([EMStart]
     ++ (if nof args then [] else [PlausibilityFilter])
     ++ map EMStep (seq 1 (2 + k))
     ++ [FinalEMStep] ++ [WriteReport] ++ [ReadReport; WriteRankReport]
     ++ [])
    (em_extra_iterations w = Some k /\ rank_known (rank args) = true).
Proof.
  unfold EM_complete_run. cbn [stages].
  eapply goes_weaken;
    [| apply goes_andthen; [apply goes_stage |];
       apply goes_andthen; [apply goes_optional |];
       apply goes_andthen; [apply (goes_EM_iterations k) |];
       apply goes_andthen; [apply goes_stage |];
       apply goes_andthen; [apply goes_stage |];
       apply goes_andthen; [apply goes_collapse_rank |];
       apply goes_skip].
  tauto.
Qed.

Lemma main_ends (args : Args) (k : nat) :
  ends (main args w)
    ((if runs_minimap2 args then [Minimap2] else [])
     ++ [LoadTaxonomy] ++ [InitF] ++ [BuildAlignmentModel]
     ++ [BuildLikelihoodTable]
     ++ ([EMStart]
         ++ (if nof args then [] else [PlausibilityFilter])
         ++ map EMStep (seq 1 (2 + k))
         ++ [FinalEMStep] ++ [WriteReport] ++ [ReadReport; WriteRankReport]
         ++ [])
     ++ [WriteReport] ++ [ReadReport; WriteRankReport]
     ++ (if keep_alignments args then [] else [RemoveSam]) ++ [])
    ((runs_minimap2 args = true -> minimap2_rc w = 0)
     /\ em_extra_iterations w = Some k
     /\ rank_known (rank args) = true).
Proof.
  unfold main. cbn [stages].
  intros C Q tr.
  apply (ends_andthen _ _ _ _ _ _ (goes_first args)
    (ends_andthen _ _ _ _ _ _ (goes_stage LoadTaxonomy)
    (ends_andthen _ _ _ _ _ _ (goes_stage InitF)
    (ends_andthen _ _ _ _ _ _ (goes_stage BuildAlignmentModel)
    (ends_andthen _ _ _ _ _ _ (goes_stage BuildLikelihoodTable)
    (ends_andthen _ _ _ _ _ _ (goes_EM_complete_run args k)
    (ends_andthen _ _ _ _ _ _ (goes_stage WriteReport)
    (ends_andthen _ _ _ _ _ _ (goes_collapse_rank (rank args))
    (ends_andthen _ _ _ _ _ _ (goes_optional (keep_alignments args) RemoveSam)
       ends_finish)))))))));
    [tauto | exact Q].
Qed.

End ExitZero.

Lemma complete_trace_stages (args : Args) (k : nat) :
  (if runs_minimap2 args then [Minimap2] else [])
  ++ [LoadTaxonomy] ++ [InitF] ++ [BuildAlignmentModel]
  ++ [BuildLikelihoodTable]
  ++ ([EMStart]
      ++ (if nof args then [] else [PlausibilityFilter])
      ++ map EMStep (seq 1 (2 + k))
      ++ [FinalEMStep] ++ [WriteReport] ++ [ReadReport; WriteRankReport]
      ++ [])
  ++ [WriteReport] ++ [ReadReport; WriteRankReport]
  ++ (if keep_alignments args then [] else [RemoveSam]) ++ []
  = complete_trace args k.
Proof.
  unfold complete_trace. rewrite !app_nil_r.
  f_equal. cbn [app]. do 5 f_equal.
  rewrite <- !app_assoc. reflexivity.
Qed.

(** X25.  A run of [main] ends with [exit(0)] exactly when minimap2, if
    it is run, returns 0, the EM loop meets its convergence test, the
    rank is one of the list and no stage raises.  Such a run has gone
    through the stages of [complete_trace]: the report and the rank
    report are written twice, by [EM_complete] and again by [main], and
    the alignment file is removed unless [--keep-alignments] is given,
    also when it was supplied with [--sam-input]. *)
Theorem main_exit_0_runs (args : Args) (w : World) :
  (snd (main args w []) = Some (Exit 0) ->
   exists k,
     em_extra_iterations w = Some k
     /\ rank_known (rank args) = true
     /\ (runs_minimap2 args = true -> minimap2_rc w = 0)
     /\ Forall (fun ev => failure w ev = None) (complete_trace args k)
     /\ fst (main args w []) = complete_trace args k)
  /\ (forall k,
        em_extra_iterations w = Some k ->
        rank_known (rank args) = true ->
        (runs_minimap2 args = true -> minimap2_rc w = 0) ->
        Forall (fun ev => failure w ev = None) (complete_trace args k) ->
        main args w [] = (complete_trace args k, Some (Exit 0))).
Proof.
  split.
  - intros H. destruct (main_exits w args [] H) as [E [Q [Hrc [Hk Hr]]]].
    destruct (em_extra_iterations w) as [k |] eqn:Hem;
      [| exfalso; apply Hk; reflexivity].
    exists k. rewrite complete_trace_stages in E, Q.
    split; [reflexivity |]. split; [exact Hr |]. split; [exact Hrc |].
    split; [exact Q |]. rewrite E. reflexivity.
  - intros k Hk Hr Hrc Q.
    rewrite <- complete_trace_stages in Q.
    rewrite (main_ends w args k (conj Hrc (conj Hk Hr)) Q []).
    rewrite complete_trace_stages. reflexivity.
Qed.

(** ** The likelihood over one EM step *)

Section WeightedLog.

Local Open Scope R_scope.

Lemma Rsum_le_pointwise {X : Type} (a b : X -> R) (l : list X) :
  (forall x, In x l -> a x <= b x) -> Rsum (map a l) <= Rsum (map b l).
Proof.
  induction l as [| x l IH]; intros H; [cbn; lra |].
  cbn [map]. rewrite !Rsum_cons.
  pose proof (H x (or_introl eq_refl)).
  assert (Rsum (map a l) <= Rsum (map b l)); [| lra].
  apply IH. intros z Hz. apply H. right. exact Hz.
Qed.

Lemma Rsum_plus {X : Type} (a b : X -> R) (l : list X) :
  Rsum (map (fun x => a x + b x) l) = Rsum (map a l) + Rsum (map b l).
Proof.
  induction l as [| x l IH]; [cbn; ring |].
  cbn [map]. rewrite !Rsum_cons, IH. ring.
Qed.

Lemma Rsum_pos {X : Type} (a : X -> R) (l : list X) :
  l <> [] -> (forall x, In x l -> 0 < a x) -> 0 < Rsum (map a l).
Proof.
  induction l as [| x l IH]; intros Hne H; [congruence |].
  cbn [map]. rewrite Rsum_cons.
  pose proof (H x (or_introl eq_refl)).
  destruct l as [| y l]; [cbn; lra |].
  assert (0 < Rsum (map a (y :: l))); [| lra].
  apply IH; [discriminate |]. intros z Hz. apply H. right. exact Hz.
Qed.

Lemma Rsum_filter_le {X : Type} (a : X -> R) (p : X -> bool) (l : list X) :
  (forall x, In x l -> 0 <= a x) ->
  Rsum (map a (filter p l)) <= Rsum (map a l).
Proof.
  induction l as [| x l IH]; intros H; [cbn; lra |].
  pose proof (H x (or_introl eq_refl)).
  assert (Rsum (map a (filter p l)) <= Rsum (map a l))
    by (apply IH; intros z Hz; apply H; right; exact Hz).
  cbn [filter map]. destruct (p x); cbn [map]; rewrite ?Rsum_cons; lra.
Qed.

(** Jensen's inequality for the logarithm, on log-values [u]. *)
Lemma weighted_log_le {X : Type} (w u : X -> R) (l : list X) :
  (forall x, In x l -> 0 < w x) ->
  Rsum (map w l) = 1 ->
  Rsum (map (fun x => w x * u x) l)
  <= ln (Rsum (map (fun x => w x * exp (u x)) l)).
Proof.
  intros Hw H1.
  assert (Hne : l <> []).
  { intros ->. cbn in H1. lra. }
  set (M := Rsum (map (fun x => w x * exp (u x)) l)).
  assert (HM : 0 < M).
  { apply Rsum_pos; [exact Hne |]. intros x Hx.
    apply Rmult_lt_0_compat; [apply Hw, Hx | apply exp_pos]. }
  assert (Hpt : forall x, In x l ->
             w x * u x <= w x * (ln M - 1) + / M * (w x * exp (u x))).
  { intros x Hx. pose proof (Hw x Hx) as Hwx.
    pose proof (exp_ineq1_le (u x - ln M)) as He.
    unfold Rminus in He. rewrite exp_plus, exp_Ropp, exp_ln in He by exact HM.
    replace (w x * (ln M - 1) + / M * (w x * exp (u x)))
      with (w x * (ln M - 1 + exp (u x) * / M)) by ring.
    apply Rmult_le_compat_l; lra. }
  eapply Rle_trans; [apply (Rsum_le_pointwise _ _ l Hpt) |].
  rewrite Rsum_plus, Rsum_scale.
  rewrite (map_ext _ (fun x => (ln M - 1) * w x)) by (intros; ring).
  rewrite Rsum_scale. fold M. rewrite H1.
  replace (/ M * M) with 1 by (field; lra). lra.
Qed.

(** One term of Gibbs' inequality. *)
Lemma gibbs_term (a b : R) :
  0 < a -> 0 < b -> a - b <= a * (ln a - ln b).
Proof.
  intros Ha Hb.
  pose proof (exp_ineq1_le (ln b - ln a)) as He.
  unfold Rminus in He. rewrite exp_plus, exp_Ropp, !exp_ln in He by assumption.
  assert (H : a * (1 + (ln b + - ln a)) <= a * (b * / a))
    by (apply Rmult_le_compat_l; lra).
  replace (a * (b * / a)) with b in H by (field; lra).
  lra.
Qed.

End WeightedLog.

Lemma filter_key_absent (G : FVec) (t : Z) :
  ~ In t (map fst G) -> filter (fun e : Z * R => fst e =? t) G = [].
Proof.
  induction G as [| [k v] G IH]; intros Hn; [reflexivity |].
  cbn [filter fst]. destruct (Z.eqb_spec k t) as [-> | _].
  - exfalso. apply Hn. left. reflexivity.
  - apply IH. intros H. apply Hn. right. exact H.
Qed.

Lemma filter_key_NoDup (G : FVec) (t : Z) :
  NoDup (map fst G) ->
  filter (fun e : Z * R => fst e =? t) G
  = match dict_get G t with
    | Some v => [(t, v)]
    | None => []
    end.
Proof.
  induction G as [| [k v] G IH]; intros Hnd; [reflexivity |].
  cbn [map fst] in Hnd. inversion Hnd as [| ? ? Hk Hnd']; subst.
  cbn [filter fst dict_get]. rewrite (Z.eqb_sym t k).
  destruct (Z.eqb_spec k t) as [-> | _].
  - rewrite (filter_key_absent G t Hk). reflexivity.
  - apply IH, Hnd'.
Qed.

Lemma dict_get_In (G : FVec) (t : Z) :
  In t (map fst G) -> exists v, dict_get G t = Some v.
Proof.
  induction G as [| [k v] G IH]; intros Hin; [destruct Hin |].
  cbn [dict_get]. destruct (Z.eqb_spec t k) as [_ | Hne];
    [eexists; reflexivity |].
  destruct Hin as [Heq | Hin]; [cbn in Heq; congruence | apply IH, Hin].
Qed.

Lemma dict_get_member (G : FVec) (t : Z) (v : R) :
  dict_get G t = Some v -> In (t, v) G.
Proof.
  induction G as [| [k u] G IH]; cbn [dict_get]; [discriminate |].
  destruct (Z.eqb_spec t k) as [-> | _].
  - intros H. injection H as <-. left. reflexivity.
  - intros H. right. apply IH, H.
Qed.

Lemma dict_get_NoDup (G : FVec) (t : Z) (v : R) :
  NoDup (map fst G) -> In (t, v) G -> dict_get G t = Some v.
Proof.
  induction G as [| [k u] G IH]; intros Hnd Hin; [destruct Hin |].
  cbn [map fst] in Hnd. inversion Hnd as [| ? ? Hk Hnd']; subst.
  cbn [dict_get]. destruct (Z.eqb_spec t k) as [-> | Hne].
  - destruct Hin as [Heq | Hin]; [congruence |].
    exfalso. apply Hk. apply (in_map fst) in Hin. exact Hin.
  - destruct Hin as [Heq | Hin]; [congruence | apply IH; assumption].
Qed.

Lemma dict_get_keyed (g : Z -> R) (t : Z) :
  forall keys : list Z,
    In t keys -> dict_get (map (fun k => (k, g k)) keys) t = Some (g t).
Proof.
  induction keys as [| k keys IH]; intros Hin; [destruct Hin |].
  cbn [map dict_get]. destruct (Z.eqb_spec t k) as [-> | Hne];
    [reflexivity |].
  destruct Hin as [-> | Hin]; [contradiction | apply IH, Hin].
Qed.

Lemma merge_F_lookup (rows : list LRow) (G : FVec) :
  NoDup (map fst G) ->
  merge_F rows G
  = flat_map (fun r => match dict_get G (Target_ID r) with
                       | Some v => [(r, v)]
                       | None => []
                       end) rows.
Proof.
  intros Hnd. unfold merge_F. apply flat_map_ext. intros r.
  rewrite (filter_key_NoDup G (Target_ID r) Hnd).
  destruct (dict_get G (Target_ID r)); reflexivity.
Qed.

Section Monotone.

Local Open Scope R_scope.

Variable rows : list LRow.
Variable F : FVec.
Hypothesis Hpos : Forall (fun e : Z * R => 0 < snd e) F.
Hypothesis Hnd : NoDup (map fst F).

Let m : list (LRow * R) := merge_F rows F.
Let F' : FVec := F_new (EM_step rows F).
Let value (G : FVec) (t : Z) : R :=
  match dict_get G t with
  | Some v => v
  | None => 0
  end.
Let phi (x : LRow * R) : LRow * R := (fst x, value F' (Target_ID (fst x))).
Let norm_of (mu : list (LRow * R)) (rd : string) : R :=
  logSumExp
    (map joint (filter (fun y => String.eqb (Read_ID (fst y)) rd) mu)).
Let W (x : LRow * R) : R := exp (joint x - norm_of m (Read_ID (fst x))).
Let U (x : LRow * R) : R := ln (value F' (Target_ID (fst x))) - ln (snd x).
Let T : list Z := distinct Z.eqb (map (fun x => Target_ID (fst x)) m).
Let n : nat := List.length (group_sums m).

Lemma F'_keys : map fst F' = T.
Proof. apply F_new_targets. Qed.

Lemma F'_NoDup : NoDup (map fst F').
Proof. rewrite F'_keys. apply (distinct_NoDup Z.eqb Z.eqb_eq). Qed.

Lemma merge_next : merge_F rows F' = map phi m.
Proof.
  unfold m. rewrite (merge_F_lookup rows F' F'_NoDup),
    (merge_F_lookup rows F Hnd).
  assert (H : forall l, incl l rows ->
            flat_map (fun r => match dict_get F' (Target_ID r) with
                               | Some v => [(r, v)]
                               | None => []
                               end) l
            = map phi
                (flat_map (fun r => match dict_get F (Target_ID r) with
                                    | Some v => [(r, v)]
                                    | None => []
                                    end) l)).
  { induction l as [| r l IH]; intros Hl; [reflexivity |].
    cbn [flat_map]. rewrite map_app, IH
      by (intros z Hz; apply Hl; right; exact Hz).
    f_equal.
    assert (Hr : In r rows) by (apply Hl; left; reflexivity).
    destruct (dict_get F (Target_ID r)) as [v |] eqn:Hv.
    - assert (Hin : In (Target_ID r) (map fst F')).
      { apply F_new_target_In. split.
        - apply dict_get_member in Hv. apply (in_map fst) in Hv. exact Hv.
        - exists r. split; [exact Hr | reflexivity]. }
      destruct (dict_get_In F' _ Hin) as [v' Hv'].
      cbn [map]. unfold phi, value. cbn [fst]. rewrite Hv'. reflexivity.
    - destruct (dict_get F' (Target_ID r)) as [v' |] eqn:Hv'; [| reflexivity].
      exfalso. apply dict_get_member in Hv'. apply (in_map fst) in Hv'.
      cbn [fst] in Hv'. apply F_new_target_In in Hv'. destruct Hv' as [Hk _].
      destruct (dict_get_In F _ Hk) as [v Hv'']. congruence. }
  apply H. apply incl_refl.
Qed.

Lemma loglik_groups (mu : list (LRow * R)) :
  Rsum (map snd (group_sums mu))
  = Rsum (map (norm_of mu)
            (distinct String.eqb (map (fun x => Read_ID (fst x)) mu))).
Proof. unfold group_sums. rewrite map_map. reflexivity. Qed.

Lemma norm_next (rd : string) :
  norm_of (map phi m) rd
  = logSumExp (map (fun x => joint (phi x))
                 (filter (fun y => String.eqb (Read_ID (fst y)) rd) m)).
Proof.
  unfold norm_of. rewrite filter_map_comm, map_map. reflexivity.
Qed.

(** Jensen, read by read. *)
Lemma read_gain (rd : string) :
  In rd (distinct String.eqb (map (fun x => Read_ID (fst x)) m)) ->
  Rsum (map (fun x => W x * U x)
          (filter (fun y => String.eqb (Read_ID (fst y)) rd) m))
  <= norm_of (map phi m) rd - norm_of m rd.
Proof.
  intros Hrd.
  set (l := filter (fun y => String.eqb (Read_ID (fst y)) rd) m).
  assert (Hl : l <> [])
    by exact (group_nonempty String.eqb String.eqb_eq
                (fun x => Read_ID (fst x)) m rd Hrd).
  eapply Rle_trans.
  - apply (weighted_log_le W U l).
    + intros x _. apply exp_pos.
    + exact (posteriors_of_read m rd Hrd).
  - right.
    rewrite (map_ext_in _ (fun x => exp (- norm_of m rd) * exp (joint (phi x)))).
    + rewrite Rsum_scale, norm_next. fold l.
      rewrite <- (map_map (fun x => joint (phi x)) exp).
      rewrite <- exp_logSumExp
        by (intros He; apply map_eq_nil in He; exact (Hl He)).
      rewrite <- exp_plus, ln_exp. ring.
    + intros x Hx. apply filter_In in Hx. destruct Hx as [_ Hx].
      apply String.eqb_eq in Hx. unfold W, U. rewrite Hx.
      rewrite <- !exp_plus. f_equal. unfold joint, phi. cbn [fst snd]. ring.
Qed.

Lemma targets_of_P :
  distinct Z.eqb (map t_Target_ID (posterior_rows m (group_sums m))) = T.
Proof.
  unfold T. f_equal. rewrite posterior_rows_eq, map_map. reflexivity.
Qed.

(** The posterior mass of a target is [n] times its new abundance. *)
Lemma target_mass (t : Z) :
  In t T ->
  Rsum (map W (filter (fun x => (Target_ID (fst x) =? t)%Z) m))
  = INR n * value F' t
  /\ 0 < value F' t /\ 0 < INR n.
Proof.
  intros Ht. rewrite <- targets_of_P in Ht.
  destruct (maximize_value m t Ht) as [Hv [Hs Hn]].
  assert (HF : value F' t
               = exp (logSumExp
                        (map t_post
                           (filter (fun x => (t_Target_ID x =? t)%Z)
                              (posterior_rows m (group_sums m))))
                      - ln (INR n))).
  { unfold value, F'. rewrite EM_step_F_new. cbn [EM_step P_tgr P_tgr_sum].
    unfold maximize. fold m.
    rewrite (dict_get_keyed _ t _ Ht). reflexivity. }
  fold n in Hv, Hn. rewrite Hv in HF.
  assert (HS : Rsum (map (fun x : TRow => exp (t_post x))
                       (filter (fun x => (t_Target_ID x =? t)%Z)
                          (posterior_rows m (group_sums m))))
               = Rsum (map W (filter (fun x => (Target_ID (fst x) =? t)%Z) m))).
  { rewrite posterior_rows_eq, filter_map_comm, map_map. reflexivity. }
  rewrite HS in HF, Hs. rewrite HF. split; [field; lra |].
  split; [apply Rdiv_lt_0_compat; assumption | exact Hn].
Qed.

Lemma old_value (x : LRow * R) :
  In x m -> value F (Target_ID (fst x)) = snd x /\ 0 < snd x.
Proof.
  intros Hx. destruct x as [r v]. apply merge_F_In in Hx.
  destruct Hx as [_ HF]. cbn [fst snd]. unfold value.
  rewrite (dict_get_NoDup F _ v Hnd HF). split; [reflexivity |].
  rewrite Forall_forall in Hpos. exact (Hpos _ HF).
Qed.

Lemma old_value_pos (t : Z) : In t T -> 0 < value F t.
Proof.
  intros Ht. apply (distinct_In Z.eqb Z.eqb_eq), in_map_iff in Ht.
  destruct Ht as [x [<- Hx]]. destruct (old_value x Hx) as [-> H]. exact H.
Qed.

Lemma old_values_sum :
  Rsum (map (value F) T) <= Rsum (map snd F).
Proof.
  rewrite (map_ext (value F)
             (fun t => Rsum (map snd (filter (fun e : Z * R => (fst e =? t)%Z) F)))).
  - rewrite (Rsum_groups_upto Z.eqb Z.eqb_eq fst snd F T
               (distinct_NoDup Z.eqb Z.eqb_eq _)).
    apply Rsum_filter_le. intros e He.
    rewrite Forall_forall in Hpos. apply Rlt_le, Hpos, He.
  - intros t. rewrite (filter_key_NoDup F t Hnd). unfold value.
    destruct (dict_get F t); cbn; ring.
Qed.

Lemma new_values_sum : m <> [] -> Rsum (map (value F') T) = 1.
Proof.
  intros Hne. rewrite <- (EM_step_sum rows F Hne). fold F'.
  f_equal. rewrite <- F'_keys, map_map. apply map_ext_in.
  intros [t v] He. cbn [fst snd]. unfold value.
  rewrite (dict_get_NoDup F' t v F'_NoDup He). reflexivity.
Qed.


Hypothesis Hsum : Rsum (map snd F) <= 1.

Lemma target_gain (t : Z) :
  In t T ->
  INR n * (value F' t - value F t)
  <= Rsum (map (fun x => W x * U x)
             (filter (fun x => (Target_ID (fst x) =? t)%Z) m)).
Proof.
  intros Ht. destruct (target_mass t Ht) as [Hmass [Hnew Hn]].
  pose proof (old_value_pos t Ht) as Hold.
  rewrite (map_ext_in _
             (fun x => (ln (value F' t) - ln (value F t)) * W x)).
  - rewrite Rsum_scale, Hmass.
    pose proof (gibbs_term (value F' t) (value F t) Hnew Hold) as Hg.
    replace ((ln (value F' t) - ln (value F t)) * (INR n * value F' t))
      with (INR n * (value F' t * (ln (value F' t) - ln (value F t))))
      by ring.
    apply Rmult_le_compat_l; lra.
  - intros x Hx. apply filter_In in Hx. destruct Hx as [Hx Hxt].
    apply Z.eqb_eq in Hxt. destruct (old_value x Hx) as [Hv _].
    unfold U. rewrite <- Hv, Hxt. ring.
Qed.

Lemma step_gain :
  m <> [] ->
  Rsum (map snd (group_sums m)) <= Rsum (map snd (group_sums (map phi m))).
Proof.
  intros Hne. rewrite !loglik_groups.
  replace (map (fun x => Read_ID (fst x)) (map phi m))
    with (map (fun x : LRow * R => Read_ID (fst x)) m)
    by (rewrite map_map; reflexivity).
  set (keys := distinct String.eqb (map (fun x : LRow * R => Read_ID (fst x)) m)).
  set (gain := fun rd =>
         Rsum (map (fun x => W x * U x)
                 (filter (fun y => String.eqb (Read_ID (fst y)) rd) m))).
  assert (H1 : Rsum (map (norm_of m) keys) + Rsum (map gain keys)
               <= Rsum (map (norm_of (map phi m)) keys)).
  { rewrite <- Rsum_plus. apply Rsum_le_pointwise. intros rd Hrd.
    pose proof (read_gain rd Hrd) as Hg. fold (gain rd) in Hg. lra. }
  assert (H2 : 0 <= Rsum (map gain keys)); [| lra].
  unfold gain, keys.
  rewrite (Rsum_by_group String.eqb String.eqb_eq
             (fun x : LRow * R => Read_ID (fst x))
             (fun x => W x * U x) m).
  rewrite <- (Rsum_by_group Z.eqb Z.eqb_eq
                (fun x : LRow * R => Target_ID (fst x))
                (fun x => W x * U x) m).
  fold T.
  apply Rle_trans
    with (Rsum (map (fun t => INR n * (value F' t - value F t)) T)).
  - rewrite Rsum_scale.
    rewrite (map_ext _ (fun t => value F' t + -1 * value F t))
      by (intros; ring).
    rewrite Rsum_plus, Rsum_scale, (new_values_sum Hne).
    pose proof old_values_sum as Ho. pose proof (pos_INR n) as Hn.
    apply Rmult_le_pos; lra.
  - apply Rsum_le_pointwise. intros t Ht. apply target_gain, Ht.
Qed.

End Monotone.

Lemma likelihood_one_step (rows : list LRow) (F : FVec) :
  Forall (fun e : Z * R => (0 < snd e)%R) F ->
  NoDup (map fst F) ->
  (Rsum (map snd F) <= 1)%R ->
  (Rsum (map snd (P_tgr_sum (EM_step rows F)))
   <= Rsum (map snd (P_tgr_sum (EM_step rows (F_new (EM_step rows F))))))%R.
Proof.
  intros Hpos Hnd Hsum.
  change (P_tgr_sum (EM_step rows (F_new (EM_step rows F))))
    with (group_sums (merge_F rows (F_new (EM_step rows F)))).
  rewrite (merge_next rows F Hnd).
  change (P_tgr_sum (EM_step rows F)) with (group_sums (merge_F rows F)).
  destruct (merge_F rows F) as [| x l] eqn:Hm.
  - cbn. lra.
  - rewrite <- Hm. apply (step_gain rows F Hpos Hnd Hsum).
    rewrite Hm. discriminate.
Qed.

Lemma F_new_sum_le_1 (rows : list LRow) (F : FVec) :
  (Rsum (map snd (F_new (EM_step rows F))) <= 1)%R.
Proof.
  destruct (merge_F rows F) as [| x l] eqn:Hm.
  - cbn [EM_step F_new]. rewrite Hm. cbn. lra.
  - right. apply EM_step_sum. rewrite Hm. discriminate.
Qed.

(** X26.  One EM step does not lower the log-likelihood of the data:
    for an abundance vector [F] with distinct taxa, positive entries
    and total at most 1, the sum of the reads' normalizing constants
    ([P_tgr_sum]) computed from the [F] the step returns is at least
    the sum computed from [F]. *)
Theorem EM_step_likelihood_monotone (rows : list LRow) (F : FVec)
  (Hpos : Forall (fun e : Z * R => (0 < snd e)%R) F)
  (Hnd : NoDup (map fst F))
  (Hsum : (Rsum (map snd F) <= 1)%R) :
  (Rsum (map snd (P_tgr_sum (EM_step rows F)))
   <= Rsum (map snd (P_tgr_sum (EM_step rows (F_new (EM_step rows F))))))%R.
Proof. exact (likelihood_one_step rows F Hpos Hnd Hsum). Qed.

Lemma EM_step_likelihood_monotone_witness :
  (Rsum (map snd (P_tgr_sum (EM_step two_target_rows half_half)))
   <= Rsum (map snd
              (P_tgr_sum
                 (EM_step two_target_rows
                    (F_new (EM_step two_target_rows half_half))))))%R.
Proof.
  apply EM_step_likelihood_monotone.
  - repeat constructor; cbn [snd]; lra.
  - cbn [map fst half_half].
    repeat constructor; cbn [In]; intuition discriminate.
  - cbn [map snd half_half]. rewrite !Rsum_cons. cbn. lra.
Defined.

(** ** The table build_edit_cost learns *)

Lemma op_total_nonneg (k : Z) (cigars : list Cigar) :
  Forall (Forall (fun r : Run => 0 <= snd r)) cigars ->
  0 <= op_total k cigars.
Proof.
  unfold op_total. induction 1 as [| c cigars Hc _ IH]; [cbn; lia |].
  cbn [map]. rewrite Zsum_cons.
  assert (0 <= Zsum (map (fun r : Run => if fst r =? k then snd r else 0) c));
    [| lia].
  clear IH. induction Hc as [| r c Hr _ IHc]; [cbn; lia |].
  cbn [map]. rewrite Zsum_cons. destruct (fst r =? k); lia.
Qed.

Lemma op_total_absent (k : Z) (cigars : list Cigar) :
  (forall c r, In c cigars -> In r c -> fst r <> k) ->
  op_total k cigars = 0.
Proof.
  unfold op_total. induction cigars as [| c cigars IH]; intros H;
    [reflexivity |].
  cbn [map]. rewrite Zsum_cons, IH
    by (intros c' r Hc'; apply H; right; exact Hc').
  assert (Hc : forall r, In r c -> fst r <> k)
    by (intros r; apply H; left; reflexivity).
  assert (H0 : Zsum (map (fun r : Run => if fst r =? k then snd r else 0) c)
               = 0); [| lia].
  clear H IH. induction c as [| r c IHc]; [reflexivity |].
  cbn [map]. rewrite Zsum_cons.
  rewrite IHc by (intros r' Hr'; apply Hc; right; exact Hr').
  destruct (Z.eqb_spec (fst r) k) as [He | _]; [| reflexivity].
  exfalso. exact (Hc r (or_introl eq_refl) He).
Qed.

Lemma costed_total_sum (cigars : list Cigar) :
  costed_total cigars
  = op_total 1 cigars + op_total 2 cigars + op_total 8 cigars
    + op_total 4 cigars + op_total 5 cigars.
Proof.
  unfold costed_total, ops_w_cost. cbn [map]. rewrite !Zsum_cons.
  cbn [Zsum fold_right]. lia.
Qed.

Lemma share_bounds (a t : Z) :
  0 <= a <= t -> 0 < t -> (0 <= inject_Z a / inject_Z t <= 1)%Q.
Proof.
  intros [Ha Hat] Ht.
  assert (Htq : (0 < inject_Z t)%Q) by (rewrite Zlt_Qlt in Ht; exact Ht).
  split.
  - apply Qle_shift_div_l; [exact Htq |]. rewrite Qmult_0_l.
    rewrite Zle_Qle in Ha. exact Ha.
  - apply Qle_shift_div_r; [exact Htq |]. rewrite Qmult_1_l.
    rewrite Zle_Qle in Hat. exact Hat.
Qed.

(** X27.  The table [build_edit_cost] returns for a corpus with
    non-negative run lengths: its keys are 0, 1, 2, 7, 8, 4, 5; the
    costs of the charged operations 1, 2, 8, 4 and 5 add up to 1; every
    cost is between 0 and 1; and a charged operation that no CIGAR of
    the corpus contains has cost 0. *)
Theorem edit_costs_distribution (cigars : list Cigar)
  (costs : list (Z * Q))
  (Hok : build_edit_cost false cigars = Ok (Some costs))
  (Hlen : Forall (Forall (fun r : Run => 0 <= snd r)) cigars) :
  map fst costs = [0; 1; 2; 7; 8; 4; 5]
  /\ (Qsum (map (cost_of costs) ops_w_cost) == 1)%Q
  /\ (forall k c, dict_get costs k = Some c -> (0 <= c <= 1)%Q)
  /\ (forall k, In k ops_w_cost ->
                (forall c r, In c cigars -> In r c -> fst r <> k) ->
                (cost_of costs k == 0)%Q).
Proof.
  rewrite build_edit_cost_spec in Hok.
  destruct (Z.eqb_spec (costed_total cigars) 0) as [| Hne]; [discriminate |].
  assert (Hc : costs = spec_op_costs cigars) by congruence.
  clear Hok. subst costs.
  pose proof (op_total_nonneg 1 cigars Hlen) as H1.
  pose proof (op_total_nonneg 2 cigars Hlen) as H2.
  pose proof (op_total_nonneg 8 cigars Hlen) as H8.
  pose proof (op_total_nonneg 4 cigars Hlen) as H4.
  pose proof (op_total_nonneg 5 cigars Hlen) as H5.
  pose proof (costed_total_sum cigars) as Hsum.
  assert (Htq : ~ (inject_Z (costed_total cigars) == 0)%Q).
  { intros H. apply Hne. unfold Qeq in H. cbn in H. lia. }
  split; [reflexivity |]. split; [| split].
  - change (map (cost_of (spec_op_costs cigars)) ops_w_cost)
      with (map (fun x => inject_Z x / inject_Z (costed_total cigars))%Q
              (map (fun k => op_total k cigars) ops_w_cost)).
    rewrite Qsum_scaled. fold (costed_total cigars).
    field. exact Htq.
  - intros k c.
    change (dict_get (spec_op_costs cigars) k)
      with (if k =? 0 then Some 1%Q
            else if k =? 1
            then Some (inject_Z (op_total 1 cigars)
                       / inject_Z (costed_total cigars))%Q
            else if k =? 2
            then Some (inject_Z (op_total 2 cigars)
                       / inject_Z (costed_total cigars))%Q
            else if k =? 7 then Some 1%Q
            else if k =? 8
            then Some (inject_Z (op_total 8 cigars)
                       / inject_Z (costed_total cigars))%Q
            else if k =? 4
            then Some (inject_Z (op_total 4 cigars)
                       / inject_Z (costed_total cigars))%Q
            else if k =? 5
            then Some (inject_Z (op_total 5 cigars)
                       / inject_Z (costed_total cigars))%Q
            else None).
    repeat match goal with
           | |- context [if ?b then _ else _] => destruct b
           end;
      intros H; try discriminate; injection H as <-;
      try (split; Lqa.lra); apply share_bounds; lia.
  - intros k Hk Habs. pose proof (op_total_absent k cigars Habs) as H0.
    unfold ops_w_cost in Hk. cbn [In] in Hk.
    assert (E : (cost_of (spec_op_costs cigars) k
                 == inject_Z (op_total k cigars)
                    / inject_Z (costed_total cigars))%Q).
    { destruct Hk as [<- | [<- | [<- | [<- | [<- | []]]]]]; reflexivity. }
    rewrite E, H0. unfold Qdiv. rewrite Qmult_0_l. reflexivity.
Qed.

Lemma edit_costs_distribution_witness :
  (Qsum (map (cost_of (match build_edit_cost false sample_corpus with
                       | Ok (Some c) => c
                       | _ => []
                       end)) ops_w_cost) == 1)%Q.
Proof.
  apply (edit_costs_distribution sample_corpus).
  - vm_compute. reflexivity.
  - repeat constructor; cbn [snd]; lia.
Defined.

(** ** Records the loop of build_P_rgs_df cannot take *)

Lemma P_rgs_data_raises (args : Args) (aln : Alignment) :
  forall sam,
    In aln sam ->
    (exists e, P_rgs_row args aln = Raise e) ->
    exists e, P_rgs_data args sam = Raise e.
Proof.
  induction sam as [| a sam IH]; intros Hin Hr; [destruct Hin |].
  cbn [P_rgs_data].
  destruct (P_rgs_row args a) as [row | e] eqn:Ha; cbn [bind];
    [| eexists; reflexivity].
  destruct Hin as [-> | Hin].
  - destruct Hr as [e He]. congruence.
  - destruct (IH Hin Hr) as [e ->]. cbn [bind]. eexists. reflexivity.
Qed.

Lemma P_rgs_data_raised_by (args : Args) :
  forall sam e,
    P_rgs_data args sam = Raise e ->
    exists aln, In aln sam /\ P_rgs_row args aln = Raise e.
Proof.
  induction sam as [| a sam IH]; intros e; cbn [P_rgs_data]; [discriminate |].
  destruct (P_rgs_row args a) as [row | e'] eqn:Ha; cbn [bind].
  - destruct (P_rgs_data args sam) as [rows | e''] eqn:Hs; cbn [bind];
      [discriminate |].
    intros H. injection H as <-. destruct (IH e'' eq_refl) as [aln [Hin Hr]].
    exists aln. split; [right; exact Hin | exact Hr].
  - intros H. injection H as <-. exists a.
    split; [left; reflexivity | exact Ha].
Qed.

Lemma get_aln_len_no_bases (aln : Alignment) :
  Forall (fun r : Run => mem_Z (fst r) [1; 7; 8] = false) (cigartuples aln) ->
  get_aln_len aln = 0.
Proof.
  unfold get_aln_len. induction 1 as [| r c Hr _ IH]; [reflexivity |].
  cbn [map]. rewrite Zsum_cons, Hr, IH. reflexivity.
Qed.

(** X28.  With [--minimap2-AS], a record with a score above 0 whose
    CIGAR has no insertion, no sequence match and no sequence mismatch
    run (operations 1, 7, 8) has alignment length 0, and the loop of
    [build_P_rgs_df] raises instead of returning a table. *)
Theorem minimap2_AS_zero_length (args : Args) (sam : list Alignment)
  (aln : Alignment)
  (HAS : minimap2_AS args = true)
  (Hin : In aln sam)
  (Hscore : positive_score aln = true)
  (Hops : Forall (fun r : Run => mem_Z (fst r) [1; 7; 8] = false)
            (cigartuples aln)) :
  get_aln_len aln = 0
  /\ exists e, P_rgs_data args sam = Raise e.
Proof.
  pose proof (get_aln_len_no_bases aln Hops) as Hlen.
  split; [exact Hlen |].
  apply (P_rgs_data_raises args aln sam Hin).
  unfold P_rgs_row. unfold positive_score in Hscore.
  destruct (tag_AS aln) as [s |]; [| discriminate].
  cbn [of_option bind]. rewrite Hscore, HAS, Hlen.
  unfold minimap2_log_P. cbn [Z.mul Z.eqb bind].
  destruct (gid_name args); [eexists; reflexivity |].
  destruct (of_option _ (py_int _)) as [tid | e]; cbn [bind];
    [| eexists; reflexivity].
  destruct (gene_of_reference (reference_name aln)) as [g | e]; cbn [bind];
    eexists; reflexivity.
Qed.

Lemma minimap2_AS_zero_length_witness :
  get_aln_len plain_match_hit = 0
  /\ exists e, P_rgs_data AS_args [primary_hit; plain_match_hit] = Raise e.
Proof.
  apply minimap2_AS_zero_length.
  - reflexivity.
  - right. left. reflexivity.
  - reflexivity.
  - repeat constructor.
Defined.

(** X29.  With [--gid-name] the branch taken never assigns [gene]: as
    soon as the file has a record with a score above 0 the loop of
    [build_P_rgs_df] raises, and without [--minimap2-AS] what it raises
    is the UnboundLocalError of that name or the KeyError of a record
    without a score. *)
Theorem gid_name_raises (args : Args) (sam : list Alignment)
  (aln : Alignment)
  (Hgid : gid_name args = true)
  (Hin : In aln sam)
  (Hscore : positive_score aln = true) :
  exists e,
    P_rgs_data args sam = Raise e
    /\ (minimap2_AS args = false -> e = UnboundLocalError \/ e = KeyError).
Proof.
  destruct (P_rgs_data_raises args aln sam Hin) as [e He].
  - unfold P_rgs_row. unfold positive_score in Hscore.
    destruct (tag_AS aln) as [s |]; [| discriminate].
    cbn [of_option bind]. rewrite Hscore, Hgid.
    destruct (minimap2_AS args); [| eexists; reflexivity].
    destruct (minimap2_log_P s (get_aln_len aln)); cbn [bind];
      eexists; reflexivity.
  - exists e. split; [exact He |]. intros HAS.
    destruct (P_rgs_data_raised_by args sam e He) as [a [_ Ha]].
    revert Ha. unfold P_rgs_row.
    destruct (tag_AS a) as [s |]; cbn [of_option bind];
      [| intros H; injection H as <-; right; reflexivity].
    destruct (0 <? s); [| discriminate].
    rewrite Hgid, HAS. intros H. injection H as <-. left. reflexivity.
Qed.

Lemma gid_name_raises_witness :
  exists e,
    P_rgs_data gid_args [primary_hit] = Raise e
    /\ (minimap2_AS gid_args = false -> e = UnboundLocalError \/ e = KeyError).
Proof.
  apply (gid_name_raises gid_args [primary_hit] primary_hit).
  - reflexivity.
  - left. reflexivity.
  - reflexivity.
Defined.

(** ** The likelihood along the loop *)

(** X30.  Along the iterations of the EM loop the log-likelihood of the
    data never goes down: started from an abundance vector with distinct
    taxa, positive entries and total at most 1, the sum of the reads'
    normalizing constants computed from a later iterate of [F] is at
    least the one computed from an earlier iterate. *)
Theorem EM_iterates_likelihood_monotone (rows : list LRow) (F : FVec)
  (Hpos : Forall (fun e : Z * R => (0 < snd e)%R) F)
  (Hnd : NoDup (map fst F))
  (Hsum : (Rsum (map snd F) <= 1)%R) :
  forall j k : nat,
    (j <= k)%nat ->
    (Rsum (map snd (P_tgr_sum (EM_step rows (F_iter rows F j))))
     <= Rsum (map snd (P_tgr_sum (EM_step rows (F_iter rows F k)))))%R.
Proof.
  assert (Hstep : forall k,
            (Rsum (map snd (P_tgr_sum (EM_step rows (F_iter rows F k))))
             <= Rsum (map snd
                        (P_tgr_sum (EM_step rows (F_iter rows F (S k))))))%R).
  { intros k. cbn [F_iter]. apply likelihood_one_step.
    - destruct k as [| k]; [exact Hpos | apply F_iter_pos; lia].
    - destruct k as [| k]; [exact Hnd |]. cbn [F_iter]. apply F'_NoDup.
    - destruct k as [| k]; [exact Hsum |]. cbn [F_iter].
      apply F_new_sum_le_1. }
  intros j k Hjk. induction Hjk as [| k _ IH]; [lra |].
  eapply Rle_trans; [exact IH | apply Hstep].
Qed.

Lemma EM_iterates_likelihood_monotone_witness :
  (Rsum (map snd (P_tgr_sum
                    (EM_step two_target_rows (F_iter two_target_rows half_half 1))))
   <= Rsum (map snd (P_tgr_sum
                       (EM_step two_target_rows
                          (F_iter two_target_rows half_half 4)))))%R.
Proof.
  apply EM_iterates_likelihood_monotone.
  - repeat constructor; cbn [snd]; lra.
  - cbn [map fst half_half].
    repeat constructor; cbn [In]; intuition discriminate.
  - cbn [map snd half_half]. rewrite !Rsum_cons. cbn. lra.
  - lia.
Defined.
